(** * vid-snip: segment merging, file tracking, encode pipeline, download tokens

    A shallow embedding of the two programs of the repository:

    - the timeline editor of the browser client ([checkOverlap],
      [mergeSegments], [endSelection] of the React component [App]);
    - the Express server ([trackFile], [deleteFile], [cleanupClientFiles],
      [scheduledCleanup] and the handlers of [/process] and
      [/download/:token]).

    JavaScript [Map]s are finite maps ([gmap]), arrays are lists, and every
    reading of [Date.now()] is an explicit argument: one argument for the
    readings a handler makes in one stretch without an [await], except
    where a definition says otherwise. What the Node library and the
    operating system decide ([path.join] and [path.parse] on names that
    come with a request, the encoder, a write that throws) is an argument
    too, about which nothing is assumed; the paths on which an unlink
    throws are part of the disk. *)

From Stdlib Require Import ZArith QArith Qround Qminmax List Lia Lqa Ascii.
From stdpp Require Import gmap strings list fin_maps pretty.

(* ===================================================================== *)
(** * The timeline editor (frontend) *)
(* ===================================================================== *)

Module Timeline.

Local Open Scope Z_scope.

(** A committed segment. Its two times went through
    [parseFloat(x.toFixed(2))], so they are multiples of one hundredth of a
    second: a time is stored as its number of hundredths. Comparison,
    [Math.min], [Math.max] and the sign of a difference of two such doubles
    agree with the same operations on the hundredths. *)
Record Segment : Type := mkSegment {
  start : Z;
  end_ : Z;
  color : string
}.

(** [const segmentColors = [...]] *)
Definition segmentColors : list string :=
  [ "#0077BE"; "#00A8E8"; "#00C9FF"; "#00E5FF"; "#1DE9B6";
    "#00E676"; "#69F0AE"; "#B2FF59"; "#76FF03"; "#64DD17" ]%string.

(** [parseFloat(x.toFixed(2))], in hundredths. A finite double is a rational
    number; [toFixed(2)] picks the integer [n] with [n / 100] closest to [x],
    the larger one on a tie, after taking the sign off a negative [x]. *)
Definition toFixed2 (x : Q) : Z :=
  if Qle_bool 0 x then Qfloor (x * 100 + (1 # 2))
  else - Qfloor ((- x) * 100 + (1 # 2)).

(** [checkOverlap(segment1, segment2)] *)
Definition checkOverlap (segment1 segment2 : Segment) : bool :=
  ((start segment1 <=? end_ segment2) && (end_ segment1 >=? start segment2))
  || ((start segment2 <=? end_ segment1) && (end_ segment2 >=? start segment1)).

(** [mergeSegments(segment1, segment2)] *)
Definition mergeSegments (segment1 segment2 : Segment) : Segment :=
  {| start := Z.min (start segment1) (start segment2);
     end_ := Z.max (end_ segment1) (end_ segment2);
     color := color segment1 |}.

(** The loop of [endSelection] over [updatedSegments]: an entry overlapping
    the current [mergedSegment] is folded into it and spliced out (the index
    is stepped back, so the scan continues with the next entry); the others
    stay, in order. Returns [(mergedSegment, hasOverlap, updatedSegments)]. *)
Fixpoint mergeLoop (mergedSegment : Segment) (hasOverlap : bool)
    (updatedSegments : list Segment) : Segment * bool * list Segment :=
  match updatedSegments with
  | [] => (mergedSegment, hasOverlap, [])
  | s :: rest =>
      if checkOverlap mergedSegment s
      then mergeLoop (mergeSegments mergedSegment s) true rest
      else
        let '(m, h, kept) := mergeLoop mergedSegment hasOverlap rest in
        (m, h, s :: kept)
  end.

(** [updatedSegments.sort((a, b) => a.start - b.start)]: a stable sort on
    the start time. *)
Fixpoint insertByStart (x : Segment) (l : list Segment) : list Segment :=
  match l with
  | [] => [x]
  | y :: l' =>
      if start x <=? start y then x :: y :: l' else y :: insertByStart x l'
  end.

Definition sortByStart (l : list Segment) : list Segment :=
  foldr insertByStart [] l.

(** The part of the component state that the selection handlers touch. *)
Record State : Type := mkState {
  segments : list Segment;
  isSelecting : bool;
  selectionStart : Q;
  selectionEnd : Q;
  currentTime : Q
}.

Definition initialState : State :=
  {| segments := []; isSelecting := false;
     selectionStart := 0%Q; selectionEnd := 0%Q; currentTime := 0%Q |}.

(** [startSelection()] *)
Definition startSelection (st : State) : State :=
  {| segments := segments st; isSelecting := true;
     selectionStart := currentTime st; selectionEnd := currentTime st;
     currentTime := currentTime st |}.

(** The segment list that [endSelection] commits when the guard
    [endTime > selectionStart] holds. *)
Definition commitSelection (segs : list Segment) (selStart endTime : Q)
    : list Segment :=
  let colorIndex := (length segs mod length segmentColors)%nat in
  let newSegment :=
    {| start := toFixed2 (Qmin selStart endTime);
       end_ := toFixed2 (Qmax selStart endTime);
       color := nth colorIndex segmentColors ""%string |} in
  let '(mergedSegment, hasOverlap, updatedSegments) :=
    mergeLoop newSegment false segs in
  sortByStart
    (updatedSegments ++ [if hasOverlap then mergedSegment else newSegment]).

(** [endSelection()] *)
Definition endSelection (st : State) : State :=
  if isSelecting st then
    let endTime := currentTime st in
    {| segments :=
         if negb (Qle_bool endTime (selectionStart st))
         then commitSelection (segments st) (selectionStart st) endTime
         else segments st;
       isSelecting := false;
       selectionStart := selectionStart st;
       selectionEnd := endTime;
       currentTime := currentTime st |}
  else st.

(** [removeSegment(index)]: [splice(index, 1)] on a copy. *)
Definition removeSegment (index : nat) (st : State) : State :=
  {| segments := take index (segments st) ++ drop (S index) (segments st);
     isSelecting := isSelecting st;
     selectionStart := selectionStart st;
     selectionEnd := selectionEnd st;
     currentTime := currentTime st |}.

(** What the user can do to the timeline. [TimeUpdate] stands for
    [handleTimeUpdate] and [handleSeek], [LoadVideo] for the handlers that
    reset the segment list ([handleFileChange], [handleDrop],
    [handleCleanup]). *)
Inductive Event : Type :=
  | TimeUpdate (t : Q)
  | StartSelection
  | EndSelection
  | RemoveSegment (index : nat)
  | LoadVideo.

Definition step (st : State) (e : Event) : State :=
  match e with
  | TimeUpdate t =>
      {| segments := segments st; isSelecting := isSelecting st;
         selectionStart := selectionStart st;
         selectionEnd := selectionEnd st; currentTime := t |}
  | StartSelection => startSelection st
  | EndSelection => endSelection st
  | RemoveSegment index => removeSegment index st
  | LoadVideo =>
      {| segments := []; isSelecting := isSelecting st;
         selectionStart := selectionStart st;
         selectionEnd := selectionEnd st; currentTime := 0%Q |}
  end.

Definition run (st : State) (es : list Event) : State := foldl step st es.

(** One proposal: seek to [from], start the selection, seek to [to], end
    it. *)
Definition propose (st : State) (p : Q * Q) : State :=
  run st [TimeUpdate (fst p); StartSelection; TimeUpdate (snd p); EndSelection].

(** ** The invariant of the committed set *)

Definition noOverlap (a b : Segment) : Prop := checkOverlap a b = false.

(** No two committed segments overlap (in the sense of [checkOverlap],
    which counts touching end points as an overlap). *)
Definition pairwiseDisjoint (l : list Segment) : Prop :=
  ∀ (i j : nat) (a b : Segment),
    i ≠ j → l !! i = Some a → l !! j = Some b → checkOverlap a b = false.

(** Ascending by start time. *)
Definition sortedByStart (l : list Segment) : Prop :=
  ∀ (i j : nat) (a b : Segment),
    (i < j)%nat → l !! i = Some a → l !! j = Some b → start a <= start b.

Definition wellFormed (s : Segment) : Prop := start s <= end_ s.

Definition startLe (a b : Segment) : Prop := start a <= start b.

(** The invariant carried from one committed set to the next. *)
Definition committed (l : list Segment) : Prop :=
  Forall wellFormed l ∧ ForallOrdPairs noOverlap l ∧ ForallOrdPairs startLe l.

(** ** What a committed set covers *)

(** [newSegment] of [endSelection]: the segment proposed on top of [segs]
    by a selection from [selStart] to [endTime]. *)
Definition proposedSegment (segs : list Segment) (selStart endTime : Q)
    : Segment :=
  {| start := toFixed2 (Qmin selStart endTime);
     end_ := toFixed2 (Qmax selStart endTime);
     color := nth (length segs mod length segmentColors)%nat segmentColors
                ""%string |}.

(** The instant [t] (in hundredths) lies in the segment, end points
    included. *)
Definition contains (s : Segment) (t : Z) : Prop := start s <= t <= end_ s.

(** The instant [t] lies in one of the segments. *)
Definition covered (l : list Segment) (t : Z) : Prop :=
  ∃ s, s ∈ l ∧ contains s t.

End Timeline.

(* ===================================================================== *)
(** * The server (backend/server.js) *)
(* ===================================================================== *)

Module Server.

Local Open Scope Z_scope.

(** The [type] argument of [trackFile] and [deleteFile]; every call site
    passes one of the three literals ['upload'], ['output'], ['temp']. *)
Inductive FileType : Type := Upload | Output | Temp.

(** [uploadsDir], [outputDir], [tempDir], and [elsewhere] for every
    directory that is none of the three: the server builds no path into it,
    but the [filename] of a request, which [POST /process] joins to
    [uploadsDir] as it comes, can lead there. The name of a file in
    [elsewhere] is its whole path. *)
Inductive Dir : Type := uploadsDir | outputDir | tempDir | elsewhere.

#[global] Instance FileType_eq_dec : EqDecision FileType.
Proof. solve_decision. Defined.

#[global] Instance Dir_eq_dec : EqDecision Dir.
Proof. solve_decision. Defined.

#[global] Instance Dir_countable : Countable Dir.
Proof.
  refine (inj_countable'
    (λ d, match d with
          | uploadsDir => 0%nat | outputDir => 1%nat | tempDir => 2%nat
          | elsewhere => 3%nat
          end)
    (λ n, match n with
          | 0%nat => uploadsDir | 1%nat => outputDir | 2%nat => tempDir
          | _ => elsewhere
          end) _).
  by intros [].
Defined.

(** A file: its directory and its name in it. For the names the server
    makes up itself, which hold no separator, this is
    [path.join(dir, filename)]. *)
Definition Path : Type := Dir * string.

Definition basename (p : Path) : string := snd p.

(** The directory that [deleteFile] joins with the file name. *)
Definition dirOf (type : FileType) : Dir :=
  match type with
  | Upload => uploadsDir
  | Output => outputDir
  | Temp => tempDir
  end.

(** The file system as the server sees it: the paths for which
    [fs.existsSync] answers true, and those on which [fs.unlinkSync]
    throws (the [catch] branch of [deleteFile]). *)
Record Disk : Type := mkDisk {
  present : gset Path;
  unlinkFails : gset Path
}.

(** A value of [fileTracker.uploads], [.output] or [.temp]. *)
Record FileData : Type := mkFileData {
  timestamp : Z;
  clientId : string;
  inUse : bool
}.

(** [const fileTracker = { uploads, output, temp }] *)
Record FileTracker : Type := mkFileTracker {
  uploads : gmap string FileData;
  output : gmap string FileData;
  temp : gmap string FileData
}.

(** A value of [clients]. *)
Record Client : Type := mkClient {
  lastActivity : Z;
  files : list (string * FileType);
  originalName : option string
}.

(** A value of [downloadTokens]. *)
Record TokenData : Type := mkTokenData {
  filename : string;
  created : Z;
  tokenOriginalName : string
}.

(** The three module-level maps and the disk. *)
Record State : Type := mkState {
  fileTracker : FileTracker;
  clients : gmap string Client;
  downloadTokens : gmap string TokenData;
  fs : Disk
}.

Definition emptyState : State :=
  {| fileTracker := {| uploads := ∅; output := ∅; temp := ∅ |};
     clients := ∅; downloadTokens := ∅;
     fs := {| present := ∅; unlinkFails := ∅ |} |}.

(** The map [trackFile] and [deleteFile] select for a type. *)
Definition trackerOf (type : FileType) (ft : FileTracker) : gmap string FileData :=
  match type with
  | Upload => uploads ft
  | Output => output ft
  | Temp => temp ft
  end.

Definition setTracker (type : FileType) (m : gmap string FileData)
    (ft : FileTracker) : FileTracker :=
  match type with
  | Upload => {| uploads := m; output := output ft; temp := temp ft |}
  | Output => {| uploads := uploads ft; output := m; temp := temp ft |}
  | Temp => {| uploads := uploads ft; output := output ft; temp := m |}
  end.

(** [trackFile(filename, type, clientId)], with [now] every reading of
    [Date.now()] in it. *)
Definition trackFile (now : Z) (name : string) (type : FileType)
    (cid : string) (st : State) : State :=
  let tracker :=
    <[name := {| timestamp := now; clientId := cid; inUse := false |}]>
      (trackerOf type (fileTracker st)) in
  let clients1 :=
    match clients st !! cid with
    | Some _ => clients st
    | None =>
        <[cid := {| lastActivity := now; files := []; originalName := None |}]>
          (clients st)
    end in
  let clients2 :=
    alter (λ c, {| lastActivity := now;
                   files := files c ++ [(name, type)];
                   originalName := originalName c |}) cid clients1 in
  {| fileTracker := setTracker type tracker (fileTracker st);
     clients := clients2;
     downloadTokens := downloadTokens st;
     fs := fs st |}.

(** [data?.inUse] *)
Definition dataInUse (data : option FileData) : bool :=
  match data with
  | Some d => inUse d
  | None => false
  end.

(** [fs.unlinkSync(filePath); tracker?.delete(filename)], when the unlink
    does not throw. *)
Definition unlinkAndUntrack (name : string) (type : FileType) (st : State)
    : State :=
  {| fileTracker :=
       setTracker type (delete name (trackerOf type (fileTracker st)))
         (fileTracker st);
     clients := clients st;
     downloadTokens := downloadTokens st;
     fs := {| present := present (fs st) ∖ {[(dirOf type, name)]};
              unlinkFails := unlinkFails (fs st) |} |}.

(** [deleteFile(filename, type)]: the returned boolean and the state it
    leaves. *)
Definition deleteFile (name : string) (type : FileType) (st : State)
    : bool * State :=
  let tracker := trackerOf type (fileTracker st) in
  let filePath : Path := (dirOf type, name) in
  if dataInUse (tracker !! name) then (false, st)
  else if bool_decide (filePath ∈ present (fs st)) then
    if bool_decide (filePath ∈ unlinkFails (fs st)) then (false, st) (* catch *)
    else (true, unlinkAndUntrack name type st)
  else (false, st).

(** [client.files.forEach((file) => deleteFile(file.filename, file.type))] *)
Definition deleteFiles (l : list (string * FileType)) (st : State) : State :=
  foldl (λ s file, snd (deleteFile (fst file) (snd file) s)) st l.

(** [cleanupClientFiles(clientId)] *)
Definition cleanupClientFiles (cid : string) (st : State) : State :=
  match clients st !! cid with
  | None => st
  | Some client =>
      let st' := deleteFiles (files client) st in
      {| fileTracker := fileTracker st';
         clients := delete cid (clients st');
         downloadTokens := downloadTokens st';
         fs := fs st' |}
  end.

Definition maxAge : Z := 30 * 60 * 1000.
Definition heartbeatTimeout : Z := 5 * 60 * 1000.

(** The body of the loop over [tracker.entries()]. *)
Definition sweepEntry (now : Z) (type : FileType) (st : State)
    (entry : string * FileData) : State :=
  if negb (inUse (snd entry)) && (now - timestamp (snd entry) >? maxAge)
  then snd (deleteFile (fst entry) type st)
  else st.

(** One of the three trackers swept. The loop deletes nothing but the entry
    it is visiting, so it visits the entries the map had when it started;
    the visits do not depend on one another, and the Map's insertion order
    is not modelled. *)
Definition sweepTracker (now : Z) (st : State) (type : FileType) : State :=
  foldl (sweepEntry now type) st
    (map_to_list (trackerOf type (fileTracker st))).

(** The body of the loop over [clients.entries()]. *)
Definition sweepClient (now : Z) (st : State) (entry : string * Client) : State :=
  if now - lastActivity (snd entry) >? heartbeatTimeout
  then cleanupClientFiles (fst entry) st
  else st.

(** The body of the loop over [downloadTokens.entries()]. *)
Definition sweepToken (now : Z) (st : State) (entry : string * TokenData) : State :=
  if now - created (snd entry) >? maxAge
  then {| fileTracker := fileTracker st;
          clients := clients st;
          downloadTokens := delete (fst entry) (downloadTokens st);
          fs := fs st |}
  else st.

Definition sweepFiles (now : Z) (st : State) : State :=
  foldl (sweepTracker now) st [Upload; Output; Temp].

Definition sweepClients (now : Z) (st : State) : State :=
  foldl (sweepClient now) st (map_to_list (clients st)).

Definition sweepTokens (now : Z) (st : State) : State :=
  foldl (sweepToken now) st (map_to_list (downloadTokens st)).

(** [scheduledCleanup()], with [now] its [const now = Date.now()]. *)
Definition scheduledCleanup (now : Z) (st : State) : State :=
  sweepTokens now (sweepClients now (sweepFiles now st)).

(** ** [POST /upload] *)

(** The handler once multer has stored the file under [name] in
    [uploadsDir]; [cid] is [req.body.clientId || generateClientId()]. After
    [trackFile] the session is in [clients], so the second
    [if (!clients.has(clientId))] never fires. *)
Definition uploadRequest (now : Z) (name originalname cid : string)
    (st : State) : State :=
  let st1 :=
    trackFile now name Upload cid
      {| fileTracker := fileTracker st; clients := clients st;
         downloadTokens := downloadTokens st;
         fs := {| present := present (fs st) ∪ {[(uploadsDir, name)]};
                  unlinkFails := unlinkFails (fs st) |} |} in
  {| fileTracker := fileTracker st1;
     clients :=
       alter (λ c, {| lastActivity := lastActivity c; files := files c;
                      originalName := Some originalname |}) cid (clients st1);
     downloadTokens := downloadTokens st1;
     fs := fs st1 |}.

(** ** States of one file, as the sweeps and cleanups see it *)

(** The file is flagged in use with entry [d], and is on disk or not as
    [onDisk] says. *)
Definition heldInUse (type : FileType) (name : string) (d : FileData)
    (onDisk : Prop) (ft : FileTracker) (disk : Disk) : Prop :=
  trackerOf type ft !! name = Some d
  ∧ ((dirOf type, name) ∈ present disk ↔ onDisk).

(** The file is on disk, can be unlinked, and its entry is [od]. *)
Definition live (type : FileType) (name : string) (od : option FileData)
    (ft : FileTracker) (disk : Disk) : Prop :=
  trackerOf type ft !! name = od
  ∧ (dirOf type, name) ∈ present disk
  ∧ (dirOf type, name) ∉ unlinkFails disk.

(** The file is neither on disk nor tracked. *)
Definition gone (type : FileType) (name : string) (ft : FileTracker)
    (disk : Disk) : Prop :=
  trackerOf type ft !! name = None ∧ (dirOf type, name) ∉ present disk.

(** Either of the two: what a file that was live can have become. *)
Definition liveOrGone (type : FileType) (name : string)
    (od : option FileData) (ft : FileTracker) (disk : Disk) : Prop :=
  live type name od ft disk ∨ gone type name ft disk.

(** The file is not on disk, and its entry is [od]. *)
Definition offDisk (type : FileType) (name : string)
    (od : option FileData) (ft : FileTracker) (disk : Disk) : Prop :=
  trackerOf type ft !! name = od ∧ (dirOf type, name) ∉ present disk.

(** The file list the session has before a [trackFile]: empty if the
    session is not known yet. *)
Definition filesOf (cid : string) (st : State) : list (string * FileType) :=
  match clients st !! cid with
  | Some c => files c
  | None => []
  end.

(** ** [GET /download/:token] *)

(** What the callback of [res.download] closes over: [token], [data] and
    whether [fileData] was found. *)
Record Transfer : Type := mkTransfer {
  transferToken : string;
  transferData : TokenData;
  transferHasFileData : bool
}.

Inductive DownloadResponse : Type :=
  | LinkInvalid404      (* 'Download link has expired or is invalid.' *)
  | FileMissing404      (* 'File not found on server.' *)
  | Sending (filePath : Path) (downloadName : string) (t : Transfer).

Definition setInUse (b : bool) (d : FileData) : FileData :=
  {| timestamp := timestamp d; clientId := clientId d; inUse := b |}.

(** [if (fileData) fileData.inUse = b], on the entry of [fileTracker.output]. *)
Definition markOutput (name : string) (b : bool) (st : State) : State :=
  {| fileTracker :=
       setTracker Output (alter (setInUse b) name (output (fileTracker st)))
         (fileTracker st);
     clients := clients st;
     downloadTokens := downloadTokens st;
     fs := fs st |}.

(** The handler up to the call of [res.download]: the token is looked up,
    the file is checked and flagged in use, and the transfer starts. The
    handler reads no clock. *)
Definition downloadRequest (token : string) (st : State)
    : DownloadResponse * State :=
  match downloadTokens st !! token with
  | None => (LinkInvalid404, st)
  | Some data =>
      let filePath : Path := (outputDir, filename data) in
      if bool_decide (filePath ∈ present (fs st)) then
        let fileData := output (fileTracker st) !! filename data in
        (Sending filePath (tokenOriginalName data +:+ "-vidsnip-edited.mp4")
           {| transferToken := token; transferData := data;
              transferHasFileData := bool_decide (is_Some fileData) |},
         markOutput (filename data) true st)
      else (FileMissing404, st)
  end.

(** The callback of [res.download], run when the transfer has ended (with or
    without an error), on the state the server has by then. [fileData] is
    the object the handler found at request time, and the callback clears
    the flag of that object. The state holds the values of the tracker, not
    the identity of its objects, so whether that object is still the one
    the tracker holds under the file name is an input, [attached]: it is,
    unless since the request the entry has been deleted or written anew by
    a [trackFile], and then clearing the flag of the old object changes
    nothing the server can see. *)
Definition downloadCallback (t : Transfer) (attached : bool) (st : State)
    : State :=
  let st1 :=
    if transferHasFileData t && attached
    then markOutput (filename (transferData t)) false st
    else st in
  {| fileTracker := fileTracker st1;
     clients := clients st1;
     downloadTokens := delete (transferToken t) (downloadTokens st1);
     fs := fs st1 |}.

(** ** [POST /process] *)

(** The two shapes of encoder command line the handler builds. *)
Inductive Cmd : Type :=
  | CutCmd (inputPath : Path) (seg : Timeline.Segment) (tempFile : Path)
  | ConcatCmd (listFile : Path) (outputPath : Path).

(** One awaited [exec]: the command and whether it resolved ([true]) or
    rejected ([false]). *)
Definition Invocation : Type := Cmd * bool.

(** The body of the request. A [filename] that is missing is the empty
    string. [segments] is taken to be an array of objects with a numeric
    [start] and [end], as the editor sends it; the handler does not look at
    its elements. *)
Record ProcessRequest : Type := mkProcessRequest {
  reqFilename : string;
  reqSegments : list Timeline.Segment;
  reqClientId : string
}.

Inductive ProcessResponse : Type :=
  | InvalidRequest400                 (* { error: 'Invalid request' } *)
  | FileNotFound404                   (* { error: 'File not found' } *)
  | VideoProcessed (downloadToken : string)
  | ProcessingFailed500.              (* { error: 'Video processing failed' } *)

(** What one run of the handler leaves behind: the response, the state, and
    the encoder invocations it awaited, oldest first. *)
Record Run : Type := mkRun {
  response : ProcessResponse;
  finalState : State;
  invocations : list Invocation
}.

Section Pipeline.

(** The encoder child process: given the command, the disk and the time
    at which it is started, whether it exits successfully, the disk it
    leaves and the time at which the promise settles. Nothing is assumed
    about it. Other handlers running during an [await] are not part of a
    run. *)
Variable exec : Cmd → Disk → Z → bool * Disk * Z.

(** [fs.writeFileSync(listFile, content)] when it throws: the disk it
    leaves behind then. [None] is the call that returns, after which the
    file is on disk. Nothing is assumed about when it throws. *)
Variable writeThrows : Path → Disk → option Disk.

(** [path.join(uploadsDir, filename)] of the Node library, on the
    [filename] of the request body. The handler does not look at the name:
    one with separators or with [..] in it leads out of [uploadsDir]. *)
Variable joinUploads : string → Path.

(** [path.parse(originalName).name] of the Node library. *)
Variable pathParseName : string → string.

(** [temp-${i}-${Date.now()}.mp4] in [tempDir], one per segment;
    [nameClock i] is the reading of [Date.now()] in the call of the [map]
    callback for segment [i]. *)
Definition tempFilesFor (nameClock : nat → Z) (segs : list Timeline.Segment)
    : list Path :=
  imap (λ i _, (tempDir,
    "temp-" +:+ pretty (Z.of_nat i) +:+ "-" +:+ pretty (nameClock i)
      +:+ ".mp4")) segs.

(** The entry [trackFile] writes at time [now] for session [cid]. *)
Definition freshEntry (now : Z) (cid : string) : FileData :=
  {| timestamp := now; clientId := cid; inUse := false |}.

(** [tempFiles.forEach((f) => trackFile(path.basename(f), 'temp', clientId))] *)
Definition trackTempFiles (now : Z) (cid : string) (tempFiles : list Path)
    (st : State) : State :=
  foldl (λ s f, trackFile now (basename f) Temp cid s) st tempFiles.

(** The [for] loop over the segments: each cut is awaited before the next
    is started, and the first rejection leaves the loop. Returns whether
    every cut resolved, the disk, the clock and the invocations made. *)
Fixpoint cutSegments (inputPath : Path)
    (jobs : list (Timeline.Segment * Path)) (d : Disk) (now : Z)
    : bool * Disk * Z * list Invocation :=
  match jobs with
  | [] => (true, d, now, [])
  | (seg, tempFile) :: rest =>
      let cmd := CutCmd inputPath seg tempFile in
      let '(ok, d', now') := exec cmd d now in
      if ok then
        let '(ok', d'', now'', log) := cutSegments inputPath rest d' now' in
        (ok', d'', now'', (cmd, true) :: log)
      else (false, d', now', [(cmd, false)])
  end.

(** The cut commands of the loop, in the order of the jobs. *)
Definition cutCommands (inputPath : Path)
    (jobs : list (Timeline.Segment * Path)) : list Cmd :=
  map (λ job, CutCmd inputPath job.1 job.2) jobs.

(** Invocations that all resolved. *)
Definition resolved (cmds : list Cmd) : list Invocation :=
  map (λ cmd, (cmd, true)) cmds.

Definition withDisk (d : Disk) (st : State) : State :=
  {| fileTracker := fileTracker st; clients := clients st;
     downloadTokens := downloadTokens st; fs := d |}.

(** [fs.writeFileSync(listFile, content)] *)
Definition writeFile (p : Path) (d : Disk) : Disk :=
  {| present := present d ∪ {[p]}; unlinkFails := unlinkFails d |}.

(** [clientData?.originalName || "video"] *)
Definition originalNameOf (c : option Client) : string :=
  match c with
  | Some {| originalName := Some n |} => if decide (n = "") then "video" else n
  | _ => "video"
  end.

(** The handler of [POST /process]. [now] is the reading of [Date.now()]
    for the output name and in the [trackFile] calls before the first
    [await], [nameClock] the readings in [segments.map], [rnd] the value of
    [Math.floor(Math.random() * 1e9)]; after an [await] the clock is what
    [exec] returned. Whatever is thrown inside the [try] block, by a
    rejected [exec] or by [fs.writeFileSync], ends in the [catch]. *)
Definition processRequest (now : Z) (nameClock : nat → Z) (rnd : Z)
    (req : ProcessRequest) (st : State) : Run :=
  if bool_decide (reqFilename req = "") || bool_decide (reqSegments req = []) then
    {| response := InvalidRequest400; finalState := st; invocations := [] |}
  else
    let inputPath : Path := joinUploads (reqFilename req) in
    if negb (bool_decide (inputPath ∈ present (fs st))) then
      {| response := FileNotFound404; finalState := st; invocations := [] |}
    else
      let outputFilename := "processed-" +:+ pretty now +:+ ".mp4" in
      let outputPath : Path := (outputDir, outputFilename) in
      let originalName := originalNameOf (clients st !! reqClientId req) in
      let tempFiles := tempFilesFor nameClock (reqSegments req) in
      let st1 := trackTempFiles now (reqClientId req) tempFiles st in
      (* try *)
      let '(ok, d2, now2, log) :=
        cutSegments inputPath (zip (reqSegments req) tempFiles) (fs st1) now in
      if negb ok then
        {| response := ProcessingFailed500;
           finalState := withDisk d2 st1; invocations := log |}
      else
        let listFile : Path := (tempDir, "list-" +:+ pretty now2 +:+ ".txt") in
        match writeThrows listFile d2 with
        | Some d3 =>
            {| response := ProcessingFailed500;
               finalState := withDisk d3 st1; invocations := log |}
        | None =>
        let st3 :=
          trackFile now2 (basename listFile) Temp (reqClientId req)
            (withDisk (writeFile listFile d2) st1) in
        let concat := ConcatCmd listFile outputPath in
        let '(ok4, d4, now4) := exec concat (fs st3) now2 in
        if negb ok4 then
          {| response := ProcessingFailed500;
             finalState := withDisk d4 st3;
             invocations := log ++ [(concat, false)] |}
        else
          let st5 :=
            deleteFiles (map (λ f, (basename f, Temp)) tempFiles)
              (withDisk d4 st3) in
          let st6 := snd (deleteFile (basename listFile) Temp st5) in
          let st7 := trackFile now4 outputFilename Output (reqClientId req) st6 in
          let token := "dl-" +:+ pretty now4 +:+ "-" +:+ pretty rnd in
          {| response := VideoProcessed token;
             finalState :=
               {| fileTracker := fileTracker st7;
                  clients := clients st7;
                  downloadTokens :=
                    <[token := {| filename := outputFilename;
                                  created := now4;
                                  tokenOriginalName := pathParseName originalName |}]>
                      (downloadTokens st7);
                  fs := fs st7 |};
             invocations := log ++ [(concat, true)] |}
        end.

End Pipeline.

(** ** Identifiers *)

(** [generateClientId()], with [now] its [Date.now()] and [rnd] its
    [Math.floor(Math.random() * 1e9)]. *)
Definition generateClientId (now rnd : Z) : string :=
  "client-" +:+ pretty now +:+ "-" +:+ pretty rnd.

(** The download token minted by [POST /process]:
    [`dl-${Date.now()}-${Math.floor(Math.random() * 1e9)}`]. *)
Definition downloadTokenName (now rnd : Z) : string :=
  "dl-" +:+ pretty now +:+ "-" +:+ pretty rnd.

(** [s] has no occurrence of the character [c]. *)
Fixpoint lacks (c : Ascii.ascii) (s : string) : Prop :=
  match s with
  | EmptyString => True
  | String a s' => a ≠ c ∧ lacks c s'
  end.

(** ** [POST /heartbeat] *)

Inductive HeartbeatResponse : Type :=
  | HeartbeatIdRequired400      (* { error: 'Client ID required' } *)
  | HeartbeatActive             (* { status: 'active' } *)
  | HeartbeatNotFound404.       (* { error: 'Client not found' } *)

(** The handler of [POST /heartbeat]; a missing client id is the empty
    string. *)
Definition heartbeatRequest (now : Z) (cid : string) (st : State)
    : HeartbeatResponse * State :=
  if bool_decide (cid = "") then (HeartbeatIdRequired400, st)
  else
    match clients st !! cid with
    | Some _ =>
        (HeartbeatActive,
         {| fileTracker := fileTracker st;
            clients :=
              alter (λ c, {| lastActivity := now; files := files c;
                             originalName := originalName c |}) cid (clients st);
            downloadTokens := downloadTokens st;
            fs := fs st |})
    | None => (HeartbeatNotFound404, st)
    end.

(** ** [POST /cleanup] *)

Inductive CleanupResponse : Type :=
  | CleanupIdRequired400        (* { error: 'Client ID required' } *)
  | ClientFilesCleaned.         (* { message: 'Client files cleaned' } *)

Definition cleanupRequest (cid : string) (st : State)
    : CleanupResponse * State :=
  if bool_decide (cid = "") then (CleanupIdRequired400, st)
  else (ClientFilesCleaned, cleanupClientFiles cid st).

(** ** What deletes files while a transfer is running *)

(** The collector firing at some time, or a [POST /cleanup] for some
    session. *)
Inductive Housekeeping : Type :=
  | CollectorRun (now : Z)
  | SessionCleanup (cid : string).

Definition housekeep (st : State) (h : Housekeeping) : State :=
  match h with
  | CollectorRun now => scheduledCleanup now st
  | SessionCleanup cid => (cleanupRequest cid st).2
  end.

(** ** [POST /upload], from the request *)

(** [req.file] as multer leaves it: the name it stored the file under in
    [uploadsDir], and the name the browser sent. *)
Record UploadedFile : Type := mkUploadedFile {
  storedName : string;
  sentName : string
}.

Inductive UploadResponse : Type :=
  | NoFileUploaded400           (* { error: 'No file uploaded' } *)
  | UploadedSuccessfully (name originalname cid : string).

(** The handler of [POST /upload]. Without a file nothing is stored; a
    request without a client id gets a generated one, [idNow] and [rnd]
    being the readings of [generateClientId], [now] the one of
    [trackFile]. *)
Definition uploadHandler (idNow now rnd : Z) (file : option UploadedFile)
    (bodyClientId : string) (st : State) : UploadResponse * State :=
  match file with
  | None => (NoFileUploaded400, st)
  | Some f =>
      let cid :=
        if bool_decide (bodyClientId = "") then generateClientId idNow rnd
        else bodyClientId in
      (UploadedSuccessfully (storedName f) (sentName f) cid,
       uploadRequest now (storedName f) (sentName f) cid st)
  end.

(** ** Ages *)

(** The test of the token loop and of the tracker loop of
    [scheduledCleanup], on a creation time. *)
Definition olderThanMaxAge (now created : Z) : Prop := now - created > maxAge.

(** The test of the client loop of [scheduledCleanup]. *)
Definition inactive (now : Z) (c : Client) : Prop :=
  now - lastActivity c > heartbeatTimeout.

#[global] Instance olderThanMaxAge_dec (now created : Z) :
  Decision (olderThanMaxAge now created).
Proof. unfold olderThanMaxAge. apply _. Defined.

#[global] Instance inactive_dec (now : Z) (c : Client) : Decision (inactive now c).
Proof. unfold inactive. apply _. Defined.

(** ** What a sweep or a cleanup can have done to one file *)

(** From [st] to [st'] the file has the same tracking entry (or none, as
    before) and is on disk in one exactly when it is in the other. *)
Definition untouched (type : FileType) (name : string) (st st' : State)
    : Prop :=
  (trackerOf type (fileTracker st') !! name)
    = (trackerOf type (fileTracker st) !! name)
  ∧ ((dirOf type, name) ∈ present (fs st')
     ↔ (dirOf type, name) ∈ present (fs st)).

(** In [st] the file was on disk, not in use and could be unlinked; in
    [st'] it is neither on disk nor tracked. *)
Definition deleted (type : FileType) (name : string) (st st' : State)
    : Prop :=
  (dirOf type, name) ∈ present (fs st)
  ∧ dataInUse (trackerOf type (fileTracker st) !! name) = false
  ∧ ((dirOf type, name) ∉ unlinkFails (fs st))
  ∧ gone type name (fileTracker st') (fs st').

(** No tracked file is both due for the sweep (not in use, older than the
    retention window) and deletable (on disk, unlink not failing). *)
Definition swept (now : Z) (ft : FileTracker) (disk : Disk) : Prop :=
  ∀ (type : FileType) (name : string) (d : FileData),
    trackerOf type ft !! name = Some d →
    inUse d = false →
    now - timestamp d > maxAge →
    (dirOf type, name) ∉ present disk ∨ (dirOf type, name) ∈ unlinkFails disk.

End Server.

(* ===================================================================== *)
(** * Concrete server states used in the checks below *)
(* ===================================================================== *)

Module Scenario.

Import Server.
Local Open Scope Z_scope.

Definition resultName : string := "processed-1000.mp4".
Definition resultToken : string := "dl-5000-123456789".

Definition resultData : TokenData :=
  {| filename := resultName; created := 5000; tokenOriginalName := "clip" |}.

(** A finished run: the result is on disk and tracked, and one token has
    been issued for it at time 5000. *)
Definition resultReady : State :=
  {| fileTracker :=
       {| uploads := ∅;
          output := {[ resultName :=
            {| timestamp := 5000; clientId := "client-0-1"; inUse := false |} ]};
          temp := ∅ |};
     clients := {[ "client-0-1"%string :=
       {| lastActivity := 5000; files := [(resultName, Output)];
          originalName := Some "clip.mp4"%string |} ]};
     downloadTokens := {[ resultToken := resultData ]};
     fs := {| present := {[ (outputDir, resultName) ]}; unlinkFails := ∅ |} |}.

(** The same, while a transfer of the result is running. *)
Definition resultInTransfer : State := markOutput resultName true resultReady.

(** The same, with the result file no longer on disk. *)
Definition resultLost : State :=
  {| fileTracker := fileTracker resultReady;
     clients := clients resultReady;
     downloadTokens := downloadTokens resultReady;
     fs := {| present := ∅; unlinkFails := ∅ |} |}.

(** One upload at time 0. *)
Definition uploaded : State :=
  uploadRequest 0 "0-1.mp4" "clip.mp4" "client-0-1" emptyState.

(** The same upload, on a disk that refuses to unlink it. *)
Definition uploadedLocked : State :=
  {| fileTracker := fileTracker uploaded;
     clients := clients uploaded;
     downloadTokens := downloadTokens uploaded;
     fs := {| present := present (fs uploaded);
              unlinkFails := {[ (uploadsDir, "0-1.mp4"%string) ]} |} |}.

(** The file an encoder command writes. *)
Definition target (cmd : Cmd) : Path :=
  match cmd with
  | CutCmd _ _ tempFile => tempFile
  | ConcatCmd _ outputPath => outputPath
  end.

(** An encoder that always succeeds, writes its target and takes one
    second. *)
Definition execOk (cmd : Cmd) (d : Disk) (now : Z) : bool * Disk * Z :=
  (true, writeFile (target cmd) d, now + 1000).

(** An encoder that fails, writing nothing, on the cut of any segment that
    starts at [bad] hundredths, and succeeds otherwise. *)
Definition execFailingAt (bad : Z) (cmd : Cmd) (d : Disk) (now : Z)
    : bool * Disk * Z :=
  match cmd with
  | CutCmd _ seg _ =>
      if Timeline.start seg =? bad then (false, d, now + 10)
      else execOk cmd d now
  | ConcatCmd _ _ => execOk cmd d now
  end.


(** Stands for [path.parse(originalName).name] on the one name used. *)
Definition nameOfClip (originalName : string) : string := "clip".

(** A [fs.writeFileSync] that never throws. *)
Definition writeOk (p : Path) (d : Disk) : option Disk := None.

(** A [fs.writeFileSync] that always throws and writes nothing, as on a
    full disk. *)
Definition writeFailing (p : Path) (d : Disk) : option Disk := Some d.

(** [path.join(uploadsDir, filename)] on names without a separator. *)
Definition joinPlain (name : string) : Path := (uploadsDir, name).

(** [path.join(uploadsDir, filename)] on the names used below, one of
    which leads into [outputDir]. *)
Definition joinEscaping (name : string) : Path :=
  if decide (name = "../output/processed-1000.mp4")
  then (outputDir, "processed-1000.mp4") else (uploadsDir, name).

(** Every name read off the clock in the same millisecond, the first. *)
Definition clock0 (i : nat) : Z := 0.

Definition seg (a b : Z) : Timeline.Segment :=
  {| Timeline.start := a; Timeline.end_ := b; Timeline.color := "#0077BE" |}.

(** The segments [{0,2},{5,7}] against the upload. *)
Definition twoSegments : ProcessRequest :=
  {| reqFilename := "0-1.mp4"; reqSegments := [seg 0 200; seg 500 700];
     reqClientId := "client-0-1" |}.

Definition threeSegments : ProcessRequest :=
  {| reqFilename := "0-1.mp4";
     reqSegments := [seg 0 200; seg 500 700; seg 900 1000];
     reqClientId := "client-0-1" |}.

(** A request whose file name leads out of [uploadsDir]. *)
Definition outsideUploads : ProcessRequest :=
  {| reqFilename := "../output/processed-1000.mp4";
     reqSegments := [seg 0 200]; reqClientId := "client-0-1" |}.

(** The state a run leaves when the first cut fails: two intermediates
    are tracked, neither was written. *)
Definition failedRun : State :=
  finalState
    (processRequest (execFailingAt 0) writeOk joinPlain nameOfClip 0 clock0 7
       twoSegments uploaded).

End Scenario.

(* ===================================================================== *)
(** * Properties of the timeline editor *)
(* ===================================================================== *)

Module TimelineFacts.

Import Timeline.
Local Open Scope Z_scope.

Lemma checkOverlap_false (a b : Segment) :
  checkOverlap a b = false ↔ end_ a < start b ∨ end_ b < start a.
Proof. unfold checkOverlap. lia. Qed.

Lemma checkOverlap_true (a b : Segment) :
  checkOverlap a b = true ↔ start a <= end_ b ∧ start b <= end_ a.
Proof. unfold checkOverlap. lia. Qed.

Lemma noOverlap_sym (a b : Segment) : noOverlap a b → noOverlap b a.
Proof. unfold noOverlap. rewrite !checkOverlap_false. lia. Qed.

(** A segment that misses two overlapping segments misses their hull. *)
Lemma noOverlap_mergeSegments (x m s : Segment) :
  wellFormed x → checkOverlap m s = true →
  noOverlap x m → noOverlap x s → noOverlap x (mergeSegments m s).
Proof.
  unfold wellFormed, noOverlap.
  rewrite checkOverlap_true, !checkOverlap_false. simpl. lia.
Qed.

Lemma wellFormed_mergeSegments (m s : Segment) :
  wellFormed m → wellFormed s → wellFormed (mergeSegments m s).
Proof. unfold wellFormed. simpl. lia. Qed.

(** ** Rounding *)

Lemma toFixed2_mono (a b : Q) : (a <= b)%Q → toFixed2 a <= toFixed2 b.
Proof.
  intros Hab. unfold toFixed2.
  destruct (Qle_bool 0 a) eqn:Ha, (Qle_bool 0 b) eqn:Hb.
  - apply Qfloor_resp_le. lra.
  - apply Qle_bool_iff in Ha.
    assert (¬ (0 <= b)%Q) as Hn by (rewrite <- Qle_bool_iff; congruence).
    exfalso. apply Hn. lra.
  - apply Qle_bool_iff in Hb.
    assert (¬ (0 <= a)%Q) as Hn by (rewrite <- Qle_bool_iff; congruence).
    assert (Qfloor 0 <= Qfloor (- a * 100 + (1 # 2))) as H1
      by (apply Qfloor_resp_le; lra).
    assert (Qfloor 0 <= Qfloor (b * 100 + (1 # 2))) as H2
      by (apply Qfloor_resp_le; lra).
    change (Qfloor 0) with 0 in *. lia.
  - assert (Qfloor (- b * 100 + (1 # 2)) <= Qfloor (- a * 100 + (1 # 2)))
      by (apply Qfloor_resp_le; lra).
    lia.
Qed.

Lemma newSegment_wellFormed (a b : Q) (c : string) :
  wellFormed {| start := toFixed2 (Qmin a b); end_ := toFixed2 (Qmax a b);
                color := c |}.
Proof.
  unfold wellFormed. simpl. apply toFixed2_mono.
  apply Qle_trans with a; [apply Q.le_min_l | apply Q.le_max_l].
Qed.

(** ** The merge loop *)

Lemma mergeLoop_true_flag (l : list Segment) (m : Segment) :
  (mergeLoop m true l).1.2 = true.
Proof.
  revert m. induction l as [|s l IH]; intros m; simpl; [done|].
  destruct (checkOverlap m s); [apply IH|].
  specialize (IH m). destruct (mergeLoop m true l) as [[m' h'] kept]. done.
Qed.

Lemma mergeLoop_spec (l : list Segment) :
  ∀ (m : Segment) (h : bool),
    wellFormed m → Forall wellFormed l → ForallOrdPairs noOverlap l →
    ∃ m' h' kept,
      mergeLoop m h l = (m', h', kept)
      ∧ wellFormed m'
      ∧ (∀ P : Segment → Prop, Forall P l → Forall P kept)
      ∧ ForallOrdPairs noOverlap kept
      ∧ Forall (noOverlap m') kept
      ∧ (∀ x, wellFormed x → noOverlap x m → Forall (noOverlap x) l →
              noOverlap x m')
      ∧ (h' = false → m' = m).
Proof.
  induction l as [|s l IH]; intros m h Hm Hwf Hdis.
  - exists m, h, []. repeat split; auto; constructor.
  - inversion Hwf as [|? ? Hs Hl]; subst.
    inversion Hdis as [|? ? Hsl Hll]; subst. simpl.
    destruct (checkOverlap m s) eqn:Hov.
    + destruct (IH (mergeSegments m s) true) as
        (m' & h' & kept & Heq & Hm' & Hsub & Hk & Hmk & Hhull & Hflag);
        auto using wellFormed_mergeSegments.
      exists m', h', kept. rewrite Heq. repeat split; auto.
      * intros P HP. inversion HP; subst. auto.
      * intros x Hx Hxm Hxl. inversion Hxl; subst.
        apply Hhull; auto using noOverlap_mergeSegments.
      * intros ->. pose proof (mergeLoop_true_flag l (mergeSegments m s)) as Ht.
        rewrite Heq in Ht. done.
    + destruct (IH m h) as
        (m' & h' & kept & Heq & Hm' & Hsub & Hk & Hmk & Hhull & Hflag); auto.
      exists m', h', (s :: kept). rewrite Heq. repeat split; auto.
      * intros P HP. inversion HP; subst. constructor; auto.
      * constructor; auto.
      * constructor; auto. apply noOverlap_sym, Hhull; auto.
        apply noOverlap_sym. exact Hov.
      * intros x Hx Hxm Hxl. inversion Hxl; subst. auto.
Qed.

(** ** The sort *)

Lemma Forall_insertByStart (P : Segment → Prop) (x : Segment) (l : list Segment) :
  P x → Forall P l → Forall P (insertByStart x l).
Proof.
  intros Hx Hl. induction Hl as [|y l Hy Hl IH]; simpl.
  - by constructor.
  - destruct (start x <=? start y); repeat constructor; auto.
Qed.

Lemma Forall_sortByStart (P : Segment → Prop) (l : list Segment) :
  Forall P l → Forall P (sortByStart l).
Proof.
  induction 1; simpl; [constructor|]. by apply Forall_insertByStart.
Qed.

Lemma noOverlap_insertByStart (x : Segment) (l : list Segment) :
  Forall (noOverlap x) l → ForallOrdPairs noOverlap l →
  ForallOrdPairs noOverlap (insertByStart x l).
Proof.
  intros Hx Hl. induction Hl as [|y l Hy Hl IH]; simpl.
  - repeat constructor.
  - inversion Hx as [|? ? Hxy Hxl]; subst.
    destruct (start x <=? start y).
    + constructor; [by constructor | by constructor].
    + constructor; [|by apply IH].
      apply Forall_insertByStart; auto using noOverlap_sym.
Qed.

Lemma noOverlap_sortByStart (l : list Segment) :
  ForallOrdPairs noOverlap l → ForallOrdPairs noOverlap (sortByStart l).
Proof.
  induction 1 as [|x l Hx Hl IH]; simpl; [constructor|].
  apply noOverlap_insertByStart; auto using Forall_sortByStart.
Qed.

Lemma startLe_insertByStart (x : Segment) (l : list Segment) :
  ForallOrdPairs startLe l → ForallOrdPairs startLe (insertByStart x l).
Proof.
  induction 1 as [|y l Hy Hl IH]; simpl.
  - repeat constructor.
  - destruct (start x <=? start y) eqn:Hle.
    + apply Z.leb_le in Hle. constructor; [|by constructor].
      constructor; [exact Hle|].
      eapply Forall_impl; [exact Hy|]. unfold startLe. simpl. lia.
    + apply Z.leb_gt in Hle. constructor; [|exact IH].
      apply Forall_insertByStart; [unfold startLe; lia | exact Hy].
Qed.

Lemma startLe_sortByStart (l : list Segment) :
  ForallOrdPairs startLe (sortByStart l).
Proof.
  induction l; simpl; [constructor | by apply startLe_insertByStart].
Qed.

Lemma noOverlap_snoc (l : list Segment) (m : Segment) :
  ForallOrdPairs noOverlap l → Forall (noOverlap m) l →
  ForallOrdPairs noOverlap (l ++ [m]).
Proof.
  induction 1 as [|x l Hx Hl IH]; intros Hm; simpl.
  - repeat constructor.
  - inversion Hm; subst. constructor; [|by apply IH].
    apply Forall_app. split; [exact Hx|].
    constructor; [by apply noOverlap_sym | constructor].
Qed.

(** ** Each handler keeps the invariant *)

Lemma commitSelection_committed (segs : list Segment) (a b : Q) :
  committed segs → committed (commitSelection segs a b).
Proof.
  intros (Hwf & Hdis & _). unfold commitSelection.
  set (new := {| start := toFixed2 (Qmin a b); end_ := _; color := _ |}).
  assert (wellFormed new) as Hnew by apply newSegment_wellFormed.
  destruct (mergeLoop_spec segs new false Hnew Hwf Hdis) as
    (m' & h' & kept & Heq & Hm' & Hsub & Hk & Hmk & _ & Hflag).
  rewrite Heq.
  assert ((if h' then m' else new) = m') as ->
    by (destruct h'; [done | by rewrite Hflag]).
  split; [|split].
  - apply Forall_sortByStart, Forall_app. split; auto.
  - apply noOverlap_sortByStart, noOverlap_snoc; auto.
  - apply startLe_sortByStart.
Qed.

Lemma Forall_sublist {A} (P : A → Prop) (k l : list A) :
  k `sublist_of` l → Forall P l → Forall P k.
Proof.
  induction 1; intros Hl; [constructor | |];
    inversion Hl; subst; [constructor|]; auto.
Qed.

Lemma ForallOrdPairs_sublist {A} (R : A → A → Prop) (k l : list A) :
  k `sublist_of` l → ForallOrdPairs R l → ForallOrdPairs R k.
Proof.
  induction 1 as [|x k l Hkl IH|x k l Hkl IH]; intros Hl.
  - constructor.
  - inversion Hl; subst. constructor; [|by apply IH].
    eapply Forall_sublist; eauto.
  - inversion Hl; subst. by apply IH.
Qed.

Lemma committed_sublist (k l : list Segment) :
  k `sublist_of` l → committed l → committed k.
Proof.
  intros Hkl (Hwf & Hdis & Hs). split; [|split].
  - eapply Forall_sublist; eauto.
  - eapply ForallOrdPairs_sublist; eauto.
  - eapply ForallOrdPairs_sublist; eauto.
Qed.

Lemma committed_nil : committed [].
Proof. repeat split; constructor. Qed.

Lemma step_committed (st : State) (e : Event) :
  committed (segments st) → committed (segments (step st e)).
Proof.
  intros Hc. destruct e; simpl; auto using committed_nil.
  - unfold endSelection. destruct (isSelecting st); simpl; [|done].
    destruct (negb _); auto using commitSelection_committed.
  - rewrite <- delete_take_drop.
    eapply committed_sublist; [apply sublist_delete | exact Hc].
Qed.

Lemma run_committed (es : list Event) (st : State) :
  committed (segments st) → committed (segments (run st es)).
Proof.
  revert st. induction es as [|e es IH]; intros st Hc; simpl; [done|].
  apply IH, step_committed, Hc.
Qed.

Lemma ForallOrdPairs_lookup {A} (R : A → A → Prop) (l : list A) :
  ForallOrdPairs R l →
  ∀ (i j : nat) (a b : A),
    (i < j)%nat → l !! i = Some a → l !! j = Some b → R a b.
Proof.
  induction 1 as [|x l Hx Hl IH]; intros i j a b Hij Hi Hj; [done|].
  destruct j as [|j]; [lia|]. simpl in Hj. destruct i as [|i]; simpl in Hi.
  - injection Hi as ->. rewrite Forall_forall in Hx.
    apply Hx. eapply list_elem_of_lookup_2, Hj.
  - eapply IH; [|exact Hi|exact Hj]. lia.
Qed.

Lemma committed_disjoint_sorted (l : list Segment) :
  committed l → pairwiseDisjoint l ∧ sortedByStart l.
Proof.
  intros (_ & Hdis & Hs). split.
  - intros i j a b Hij Hi Hj.
    destruct (decide (i < j)%nat).
    + eapply (ForallOrdPairs_lookup _ _ Hdis); eauto.
    + apply noOverlap_sym.
      eapply (ForallOrdPairs_lookup _ _ Hdis j i); eauto. lia.
  - intros i j a b Hij Hi Hj.
    eapply (ForallOrdPairs_lookup _ _ Hs); eauto.
Qed.

(** ** Checks on concrete selections *)

Example merge_2_5_then_4_8 :
  map (λ s, (start s, end_ s))
    (segments (foldl propose initialState [(2, 5); (4, 8)]%Q))
  = [(200, 800)].
Proof. vm_compute. reflexivity. Qed.

Example merge_1_2_then_5_6 :
  map (λ s, (start s, end_ s))
    (segments (foldl propose initialState [(5, 6); (1, 2)]%Q))
  = [(100, 200); (500, 600)].
Proof. vm_compute. reflexivity. Qed.

(** A proposal that bridges two committed segments swallows both. *)
Example merge_bridge :
  map (λ s, (start s, end_ s))
    (segments (foldl propose initialState
       [(1, 2); (5, 6); (9, 10); (3 # 2, 11 # 2)]%Q))
  = [(100, 600); (900, 1000)].
Proof. vm_compute. reflexivity. Qed.

(** Proposals with [end <= start] leave the set as it is. *)
Example degenerate_rejected :
  segments (foldl propose initialState [(1, 2); (5, 5); (7, 3)]%Q)
  = segments (foldl propose initialState [(1, 2)]%Q).
Proof. vm_compute. reflexivity. Qed.

(** Two distinct instants less than half a hundredth apart commit a segment
    of zero length. *)
Example rounded_to_a_point :
  map (λ s, (start s, end_ s))
    (segments (foldl propose initialState [(1001 # 1000, 1002 # 1000)]%Q))
  = [(100, 100)].
Proof. vm_compute. reflexivity. Qed.

(** ** The committed set is disjoint and sorted *)

Lemma propose_committed (st : State) (p : Q * Q) :
  committed (segments st) → committed (segments (propose st p)).
Proof. apply run_committed. Qed.

Lemma proposals_committed (ps : list (Q * Q)) (st : State) :
  committed (segments st) → committed (segments (foldl propose st ps)).
Proof.
  revert st. induction ps as [|p ps IH]; intros st Hc; simpl; [done|].
  apply IH, propose_committed, Hc.
Qed.

(** Whatever the user does to the timeline, from the first render on, the
    committed segments are pairwise disjoint and sorted by start. *)
Lemma run_disjoint_sorted (es : list Event) :
  pairwiseDisjoint (segments (run initialState es))
  ∧ sortedByStart (segments (run initialState es)).
Proof. apply committed_disjoint_sorted, run_committed, committed_nil. Qed.

(** C1. For every sequence of proposed segments added through
    [endSelection], starting from the empty set, the committed set after
    each insertion (that is, after every prefix [take n proposals] of the
    sequence) is pairwise disjoint and sorted ascending by start time. *)
Theorem endSelection_sequence_disjoint_sorted (proposals : list (Q * Q)) (n : nat) :
  pairwiseDisjoint (segments (foldl propose initialState (take n proposals)))
  ∧ sortedByStart (segments (foldl propose initialState (take n proposals))).
Proof. apply committed_disjoint_sorted, proposals_committed, committed_nil. Qed.

End TimelineFacts.

(* ===================================================================== *)
(** * Properties of the server *)
(* ===================================================================== *)

Module ServerFacts.

Import Server.
Local Open Scope Z_scope.

(** ** The three trackers *)

Lemma trackerOf_setTracker (type : FileType) (m : gmap string FileData)
    (ft : FileTracker) :
  trackerOf type (setTracker type m ft) = m.
Proof. by destruct type. Qed.

Lemma trackerOf_setTracker_ne (type type' : FileType)
    (m : gmap string FileData) (ft : FileTracker) :
  type ≠ type' → trackerOf type' (setTracker type m ft) = trackerOf type' ft.
Proof. by destruct type, type'. Qed.

Lemma dirOf_inj (type type' : FileType) : dirOf type = dirOf type' → type = type'.
Proof. by destruct type, type'. Qed.

(** ** What [deleteFile] does *)

(** It deletes exactly when the entry is not flagged, the file is on disk
    and the unlink goes through; otherwise it changes nothing. *)
Lemma deleteFile_cases (name : string) (type : FileType) (st : State) :
  (deleteFile name type st = (true, unlinkAndUntrack name type st)
   ∧ dataInUse (trackerOf type (fileTracker st) !! name) = false
   ∧ (dirOf type, name) ∈ present (fs st)
   ∧ (dirOf type, name) ∉ unlinkFails (fs st))
  ∨ (deleteFile name type st = (false, st)
     ∧ (dataInUse (trackerOf type (fileTracker st) !! name) = true
        ∨ (dirOf type, name) ∉ present (fs st)
        ∨ (dirOf type, name) ∈ unlinkFails (fs st))).
Proof.
  unfold deleteFile. cbv zeta.
  destruct (dataInUse _); [by auto|].
  repeat case_bool_decide; by auto 6.
Qed.

Lemma deleteFile_true (name : string) (type : FileType) (st : State) :
  (deleteFile name type st).1 = true ↔
    dataInUse (trackerOf type (fileTracker st) !! name) = false
    ∧ (dirOf type, name) ∈ present (fs st)
    ∧ (dirOf type, name) ∉ unlinkFails (fs st).
Proof.
  destruct (deleteFile_cases name type st) as [(-> & ?)|(-> & Hc)]; simpl.
  - done.
  - split; [done|]. intros (? & ? & ?). destruct Hc as [?|[?|?]]; congruence.
Qed.

Lemma deleteFile_false (name : string) (type : FileType) (st : State) :
  (deleteFile name type st).1 = false → (deleteFile name type st).2 = st.
Proof.
  by destruct (deleteFile_cases name type st) as [(-> & ?)|(-> & ?)].
Qed.

Lemma deleteFile_clients (name : string) (type : FileType) (st : State) :
  clients (deleteFile name type st).2 = clients st.
Proof.
  by destruct (deleteFile_cases name type st) as [(-> & ?)|(-> & ?)].
Qed.

Lemma deleteFile_downloadTokens (name : string) (type : FileType) (st : State) :
  downloadTokens (deleteFile name type st).2 = downloadTokens st.
Proof.
  by destruct (deleteFile_cases name type st) as [(-> & ?)|(-> & ?)].
Qed.

Lemma deleteFile_unlinkFails (name : string) (type : FileType) (st : State) :
  unlinkFails (fs (deleteFile name type st).2) = unlinkFails (fs st).
Proof.
  by destruct (deleteFile_cases name type st) as [(-> & ?)|(-> & ?)].
Qed.

(** The entry of a file, after any [deleteFile], is what it was or is gone;
    it is gone only if the call was for that very file. *)
Lemma deleteFile_lookup (name name' : string) (type type' : FileType) (st : State) :
  trackerOf type' (fileTracker (deleteFile name type st).2) !! name' =
    if bool_decide (type = type' ∧ name = name') && (deleteFile name type st).1
    then None
    else trackerOf type' (fileTracker st) !! name'.
Proof.
  destruct (deleteFile_cases name type st) as [(-> & ?)|(-> & ?)];
    cbn [fst snd]; [|by rewrite andb_false_r].
  rewrite andb_true_r. unfold unlinkAndUntrack. cbn [fileTracker].
  case_bool_decide as Heq.
  - destruct Heq as [-> ->]. by rewrite trackerOf_setTracker, lookup_delete_eq.
  - destruct (decide (type = type')) as [->|Hne].
    + rewrite trackerOf_setTracker, lookup_delete_ne; [done|].
      intros ->. by apply Heq.
    + by rewrite trackerOf_setTracker_ne.
Qed.

Lemma deleteFile_present (name : string) (type : FileType) (p : Path) (st : State) :
  p ∈ present (fs (deleteFile name type st).2) ↔
    p ∈ present (fs st)
    ∧ ¬ (p = (dirOf type, name) ∧ (deleteFile name type st).1 = true).
Proof.
  destruct (deleteFile_cases name type st) as [(-> & ?)|(-> & ?)]; simpl.
  - rewrite elem_of_difference, elem_of_singleton. by intuition.
  - by intuition.
Qed.

(** ** Facts about the files that every sweep and cleanup keeps *)

Section FileInvariant.

(** A property of the trackers and the disk that no [deleteFile] breaks. *)
Variable P : FileTracker → Disk → Prop.
Hypothesis deleteFile_keeps :
  ∀ name type st,
    P (fileTracker st) (fs st) →
    P (fileTracker (deleteFile name type st).2) (fs (deleteFile name type st).2).

Lemma deleteFiles_keeps (l : list (string * FileType)) (st : State) :
  P (fileTracker st) (fs st) →
  P (fileTracker (deleteFiles l st)) (fs (deleteFiles l st)).
Proof.
  revert st. induction l as [|[name type] l IH]; intros st HP; [done|].
  apply IH. by apply deleteFile_keeps.
Qed.

Lemma cleanupClientFiles_keeps (cid : string) (st : State) :
  P (fileTracker st) (fs st) →
  P (fileTracker (cleanupClientFiles cid st)) (fs (cleanupClientFiles cid st)).
Proof.
  intros HP. unfold cleanupClientFiles.
  destruct (clients st !! cid); [|done]. by apply deleteFiles_keeps.
Qed.

Lemma sweepEntry_keeps (now : Z) (type : FileType) (st : State)
    (entry : string * FileData) :
  P (fileTracker st) (fs st) →
  P (fileTracker (sweepEntry now type st entry)) (fs (sweepEntry now type st entry)).
Proof.
  intros HP. unfold sweepEntry.
  destruct (_ && _); [by apply deleteFile_keeps | done].
Qed.

Lemma sweepEntries_keeps (now : Z) (type : FileType)
    (l : list (string * FileData)) (st : State) :
  P (fileTracker st) (fs st) →
  P (fileTracker (foldl (sweepEntry now type) st l))
    (fs (foldl (sweepEntry now type) st l)).
Proof.
  revert st. induction l as [|e l IH]; intros st HP; [done|].
  apply IH. by apply sweepEntry_keeps.
Qed.

Lemma sweepTracker_keeps (now : Z) (st : State) (type : FileType) :
  P (fileTracker st) (fs st) →
  P (fileTracker (sweepTracker now st type)) (fs (sweepTracker now st type)).
Proof. apply sweepEntries_keeps. Qed.

Lemma sweepFiles_keeps (now : Z) (st : State) :
  P (fileTracker st) (fs st) →
  P (fileTracker (sweepFiles now st)) (fs (sweepFiles now st)).
Proof.
  intros HP. unfold sweepFiles. simpl. by do 3 apply sweepTracker_keeps.
Qed.

Lemma sweepClientList_keeps (now : Z) (l : list (string * Client)) (st : State) :
  P (fileTracker st) (fs st) →
  P (fileTracker (foldl (sweepClient now) st l))
    (fs (foldl (sweepClient now) st l)).
Proof.
  revert st. induction l as [|e l IH]; intros st HP; [done|].
  apply IH. unfold sweepClient.
  destruct (_ >? _); [by apply cleanupClientFiles_keeps | done].
Qed.

Lemma sweepClients_keeps (now : Z) (st : State) :
  P (fileTracker st) (fs st) →
  P (fileTracker (sweepClients now st)) (fs (sweepClients now st)).
Proof. apply sweepClientList_keeps. Qed.

Lemma sweepTokenList_files (now : Z) (l : list (string * TokenData)) (st : State) :
  fileTracker (foldl (sweepToken now) st l) = fileTracker st
  ∧ fs (foldl (sweepToken now) st l) = fs st
  ∧ clients (foldl (sweepToken now) st l) = clients st.
Proof.
  revert st. induction l as [|e l IH]; intros st; [done|]. simpl.
  destruct (IH (sweepToken now st e)) as (-> & -> & ->).
  unfold sweepToken. by destruct (_ >? _).
Qed.

Lemma sweepTokens_keeps (now : Z) (st : State) :
  P (fileTracker st) (fs st) →
  P (fileTracker (sweepTokens now st)) (fs (sweepTokens now st)).
Proof.
  unfold sweepTokens.
  destruct (sweepTokenList_files now (map_to_list (downloadTokens st)) st)
    as (-> & -> & _). done.
Qed.

Lemma scheduledCleanup_keeps (now : Z) (st : State) :
  P (fileTracker st) (fs st) →
  P (fileTracker (scheduledCleanup now st)) (fs (scheduledCleanup now st)).
Proof.
  intros HP. unfold scheduledCleanup.
  by apply sweepTokens_keeps, sweepClients_keeps, sweepFiles_keeps.
Qed.

End FileInvariant.

(** ** One file under sweeps and cleanups *)

Section OneFile.

Variables (type : FileType) (name : string).

Lemma deleteFile_heldInUse (d : FileData) (onDisk : Prop)
    (name' : string) (type' : FileType) (st : State) :
  inUse d = true →
  heldInUse type name d onDisk (fileTracker st) (fs st) →
  heldInUse type name d onDisk (fileTracker (deleteFile name' type' st).2)
    (fs (deleteFile name' type' st).2).
Proof.
  intros Hd [Hl Hp]. unfold heldInUse.
  rewrite deleteFile_lookup, deleteFile_present.
  assert (¬ ((type' = type ∧ name' = name)
             ∧ (deleteFile name' type' st).1 = true)) as Hno.
  { intros [[-> ->] Ht]. apply deleteFile_true in Ht as (Hu & _).
    rewrite Hl in Hu. simpl in Hu. congruence. }
  split.
  - case_bool_decide; [|done].
    destruct (deleteFile name' type' st).1 eqn:?; [|done]. by destruct Hno.
  - rewrite <- Hp. split; [by intros [? _]|]. intros Hin. split; [done|].
    intros [Heq Ht]. apply Hno. split; [|done].
    injection Heq as Hdir ->. by apply dirOf_inj in Hdir as ->.
Qed.

Lemma deleteFile_gone (name' : string) (type' : FileType) (st : State) :
  gone type name (fileTracker st) (fs st) →
  gone type name (fileTracker (deleteFile name' type' st).2)
    (fs (deleteFile name' type' st).2).
Proof.
  intros [Hl Hp]. unfold gone. rewrite deleteFile_lookup, deleteFile_present.
  split; [by destruct (_ && _) | by intros [? _]].
Qed.

Lemma deleteFile_offDisk (od : option FileData)
    (name' : string) (type' : FileType) (st : State) :
  offDisk type name od (fileTracker st) (fs st) →
  offDisk type name od (fileTracker (deleteFile name' type' st).2)
    (fs (deleteFile name' type' st).2).
Proof.
  intros [Hl Hp]. unfold offDisk. rewrite deleteFile_lookup, deleteFile_present.
  split; [|by intros [? _]].
  case_bool_decide as Heq; [|done]. destruct Heq as [-> ->].
  destruct (deleteFile name type st).1 eqn:Ht; [|done].
  apply deleteFile_true in Ht as (_ & Hin & _). done.
Qed.

(** Deleting this very file, when it is live and not flagged, removes it. *)
Lemma deleteFile_live_gone (od : option FileData) (st : State) :
  dataInUse od = false →
  live type name od (fileTracker st) (fs st) →
  gone type name (fileTracker (deleteFile name type st).2)
    (fs (deleteFile name type st).2).
Proof.
  intros Hod (Hl & Hp & Hu).
  assert ((deleteFile name type st).1 = true) as Ht
    by (apply deleteFile_true; by rewrite Hl).
  unfold gone. rewrite deleteFile_lookup, deleteFile_present, Ht.
  rewrite bool_decide_eq_true_2 by done. split; [done|]. by intros [_ []].
Qed.

Lemma deleteFile_liveOrGone (od : option FileData)
    (name' : string) (type' : FileType) (st : State) :
  dataInUse od = false →
  liveOrGone type name od (fileTracker st) (fs st) →
  liveOrGone type name od (fileTracker (deleteFile name' type' st).2)
    (fs (deleteFile name' type' st).2).
Proof.
  intros Hod [Hlive|Hgone]; [|right; by apply deleteFile_gone].
  destruct (decide (type' = type ∧ name' = name)) as [[-> ->]|Hne].
  - destruct (deleteFile_cases name type st) as [(Heq & _)|(Heq & _)].
    + right. by eapply deleteFile_live_gone.
    + left. by rewrite Heq.
  - left. destruct Hlive as (Hl & Hp & Hu). unfold live.
    rewrite deleteFile_lookup, deleteFile_present, deleteFile_unlinkFails.
    rewrite bool_decide_eq_false_2 by done. repeat split; try done.
    intros [Heq _]. apply Hne. injection Heq as Hdir ->.
    by apply dirOf_inj in Hdir as ->.
Qed.

End OneFile.

(** ** The file sweep reaches every aged, unflagged, live file *)

Lemma FileType_all (type : FileType) : type ∈ [Upload; Output; Temp].
Proof. destruct type; set_solver. Qed.

Section SweepOneFile.

Variables (now : Z) (type : FileType) (name : string) (d : FileData).
Hypothesis not_in_use : inUse d = false.
Hypothesis aged : now - timestamp d > maxAge.

Lemma sweepEntries_gone (l : list (string * FileData)) (st : State) :
  live type name (Some d) (fileTracker st) (fs st) →
  (name, d) ∈ l →
  gone type name (fileTracker (foldl (sweepEntry now type) st l))
    (fs (foldl (sweepEntry now type) st l)).
Proof.
  revert st. induction l as [|e l IH]; intros st Hlive Hin.
  { by apply elem_of_nil in Hin. }
  simpl. apply elem_of_cons in Hin as [<-|Hin].
  - apply (sweepEntries_keeps _ (deleteFile_gone type name)).
    unfold sweepEntry. simpl. rewrite not_in_use.
    rewrite (proj2 (Z.gtb_lt _ _)) by lia. simpl.
    by apply (deleteFile_live_gone type name (Some d)).
  - assert (liveOrGone type name (Some d)
              (fileTracker (sweepEntry now type st e))
              (fs (sweepEntry now type st e))) as [Hl|Hg].
    { apply (sweepEntry_keeps _
               (λ n t s, deleteFile_liveOrGone type name (Some d) n t s
                           not_in_use)).
      by left. }
    + by apply IH.
    + by apply (sweepEntries_keeps _ (deleteFile_gone type name)).
Qed.

Lemma sweepTracker_gone (st : State) :
  liveOrGone type name (Some d) (fileTracker st) (fs st) →
  gone type name (fileTracker (sweepTracker now st type))
    (fs (sweepTracker now st type)).
Proof.
  intros [Hlive|Hgone].
  - apply sweepEntries_gone; [done|].
    apply elem_of_map_to_list. by destruct Hlive.
  - by apply (sweepTracker_keeps _ (deleteFile_gone type name)).
Qed.

Lemma sweepTrackers_gone (types : list FileType) (st : State) :
  liveOrGone type name (Some d) (fileTracker st) (fs st) →
  type ∈ types →
  gone type name (fileTracker (foldl (sweepTracker now) st types))
    (fs (foldl (sweepTracker now) st types)).
Proof.
  revert st. induction types as [|t types IH]; intros st Hst Hin.
  { by apply elem_of_nil in Hin. }
  simpl. destruct (decide (type = t)) as [<-|Hne].
  - clear IH Hin. apply sweepTracker_gone in Hst. revert Hst.
    generalize (sweepTracker now st type). clear st.
    induction types as [|t types IH]; intros st Hst; [done|].
    simpl. by apply IH, (sweepTracker_keeps _ (deleteFile_gone type name)).
  - apply IH.
    + apply (sweepTracker_keeps _
               (λ n t s, deleteFile_liveOrGone type name (Some d) n t s
                           not_in_use)), Hst.
    + apply elem_of_cons in Hin as [?|?]; done.
Qed.

Lemma sweepFiles_gone (st : State) :
  live type name (Some d) (fileTracker st) (fs st) →
  gone type name (fileTracker (sweepFiles now st)) (fs (sweepFiles now st)).
Proof.
  intros Hlive. apply sweepTrackers_gone; [by left | apply FileType_all].
Qed.

Lemma scheduledCleanup_gone (st : State) :
  live type name (Some d) (fileTracker st) (fs st) →
  gone type name (fileTracker (scheduledCleanup now st))
    (fs (scheduledCleanup now st)).
Proof.
  intros Hlive. unfold scheduledCleanup.
  apply (sweepTokens_keeps _), (sweepClients_keeps _ (deleteFile_gone type name)).
  by apply sweepFiles_gone.
Qed.

End SweepOneFile.

(** ** What the sweeps do to the client and token maps *)

Lemma deleteFiles_clients (l : list (string * FileType)) (st : State) :
  clients (deleteFiles l st) = clients st.
Proof.
  revert st. induction l as [|e l IH]; intros st; [done|].
  change (deleteFiles (e :: l) st) with (deleteFiles l (deleteFile e.1 e.2 st).2).
  by rewrite IH, deleteFile_clients.
Qed.

Lemma deleteFiles_downloadTokens (l : list (string * FileType)) (st : State) :
  downloadTokens (deleteFiles l st) = downloadTokens st.
Proof.
  revert st. induction l as [|e l IH]; intros st; [done|].
  change (deleteFiles (e :: l) st) with (deleteFiles l (deleteFile e.1 e.2 st).2).
  by rewrite IH, deleteFile_downloadTokens.
Qed.

Lemma cleanupClientFiles_clients (cid : string) (st : State) :
  clients (cleanupClientFiles cid st) = delete cid (clients st).
Proof.
  unfold cleanupClientFiles. destruct (clients st !! cid) eqn:Hc; simpl.
  - by rewrite deleteFiles_clients.
  - by rewrite delete_id.
Qed.

Lemma cleanupClientFiles_downloadTokens (cid : string) (st : State) :
  downloadTokens (cleanupClientFiles cid st) = downloadTokens st.
Proof.
  unfold cleanupClientFiles. destruct (clients st !! cid); simpl; [|done].
  by rewrite deleteFiles_downloadTokens.
Qed.

Lemma sweepEntries_rest (now : Z) (type : FileType)
    (l : list (string * FileData)) (st : State) :
  clients (foldl (sweepEntry now type) st l) = clients st
  ∧ downloadTokens (foldl (sweepEntry now type) st l) = downloadTokens st.
Proof.
  revert st. induction l as [|e l IH]; intros st; [done|]. simpl.
  destruct (IH (sweepEntry now type st e)) as [-> ->].
  unfold sweepEntry. destruct (_ && _); [|done].
  by rewrite deleteFile_clients, deleteFile_downloadTokens.
Qed.

Lemma sweepFiles_rest (now : Z) (st : State) :
  clients (sweepFiles now st) = clients st
  ∧ downloadTokens (sweepFiles now st) = downloadTokens st.
Proof.
  unfold sweepFiles, sweepTracker. simpl.
  repeat match goal with
  | |- context [foldl (sweepEntry now ?t) ?s ?l] =>
      destruct (sweepEntries_rest now t l s) as [-> ->]
  end. done.
Qed.

Lemma sweepClient_clients (now : Z) (st : State) (e : string * Client) :
  clients (sweepClient now st e) =
    if now - lastActivity e.2 >? heartbeatTimeout
    then delete e.1 (clients st) else clients st.
Proof.
  unfold sweepClient. destruct (_ >? _); [|done].
  apply cleanupClientFiles_clients.
Qed.

Lemma sweepClientList_downloadTokens (now : Z) (l : list (string * Client))
    (st : State) :
  downloadTokens (foldl (sweepClient now) st l) = downloadTokens st.
Proof.
  revert st. induction l as [|e l IH]; intros st; [done|]. simpl.
  rewrite IH. unfold sweepClient. destruct (_ >? _); [|done].
  apply cleanupClientFiles_downloadTokens.
Qed.

(** ** The client sweep removes an inactive session and its files *)

Section SweepOneClient.

Variables (now : Z) (cid : string) (c : Client).
Hypothesis inactive : now - lastActivity c > heartbeatTimeout.

Lemma sweepClientList_absent (l : list (string * Client)) (st : State) :
  clients st !! cid = None →
  clients (foldl (sweepClient now) st l) !! cid = None.
Proof.
  revert st. induction l as [|e l IH]; intros st Hst; [done|]. simpl.
  apply IH. rewrite sweepClient_clients. destruct (_ >? _); [|done].
  apply lookup_delete_None. by right.
Qed.

Lemma sweepClientList_removes (l : list (string * Client)) (st : State) :
  clients st !! cid = Some c → (cid, c) ∈ l →
  clients (foldl (sweepClient now) st l) !! cid = None.
Proof.
  revert st. induction l as [|e l IH]; intros st Hst Hin.
  { by apply elem_of_nil in Hin. }
  simpl. apply elem_of_cons in Hin as [<-|Hin].
  - apply sweepClientList_absent. rewrite sweepClient_clients. simpl.
    rewrite (proj2 (Z.gtb_lt _ _)) by lia. apply lookup_delete_eq.
  - destruct (clients (sweepClient now st e) !! cid) as [c'|] eqn:Hc.
    + apply IH; [|done]. rewrite Hc. f_equal.
      rewrite sweepClient_clients in Hc.
      destruct (_ >? _); [apply lookup_delete_Some in Hc as [_ Hc]|];
        congruence.
    + by apply sweepClientList_absent.
Qed.

Lemma sweepClients_removes (st : State) :
  clients st !! cid = Some c → clients (sweepClients now st) !! cid = None.
Proof.
  intros Hst. apply sweepClientList_removes; [done|].
  by apply elem_of_map_to_list.
Qed.

(** One of the session's files, live and not flagged. *)
Variables (type : FileType) (name : string) (od : option FileData).
Hypothesis owned : (name, type) ∈ files c.
Hypothesis not_in_use : dataInUse od = false.

Lemma deleteFiles_gone (l : list (string * FileType)) (st : State) :
  liveOrGone type name od (fileTracker st) (fs st) → (name, type) ∈ l →
  gone type name (fileTracker (deleteFiles l st)) (fs (deleteFiles l st)).
Proof.
  revert st. induction l as [|e l IH]; intros st Hst Hin.
  { by apply elem_of_nil in Hin. }
  change (deleteFiles (e :: l) st)
    with (deleteFiles l (deleteFile e.1 e.2 st).2).
  apply elem_of_cons in Hin as [<-|Hin].
  - apply (deleteFiles_keeps _ (deleteFile_gone type name)). simpl.
    destruct Hst as [Hl|Hg];
      [by eapply deleteFile_live_gone | by apply deleteFile_gone].
  - apply IH; [|done]. by apply deleteFile_liveOrGone.
Qed.

Lemma cleanupClientFiles_gone (st : State) :
  clients st !! cid = Some c →
  liveOrGone type name od (fileTracker st) (fs st) →
  gone type name (fileTracker (cleanupClientFiles cid st))
    (fs (cleanupClientFiles cid st)).
Proof.
  intros Hc Hst. unfold cleanupClientFiles. rewrite Hc. simpl.
  by apply deleteFiles_gone.
Qed.

Lemma sweepClientList_gone (l : list (string * Client)) (st : State) :
  clients st !! cid = Some c → (cid, c) ∈ l →
  liveOrGone type name od (fileTracker st) (fs st) →
  gone type name (fileTracker (foldl (sweepClient now) st l))
    (fs (foldl (sweepClient now) st l)).
Proof.
  pose proof (deleteFile_gone type name) as Hgone.
  pose proof (λ n t s, deleteFile_liveOrGone type name od n t s not_in_use)
    as Hkeep.
  revert st. induction l as [|e l IH]; intros st Hc Hin Hst.
  { by apply elem_of_nil in Hin. }
  simpl. apply elem_of_cons in Hin as [<-|Hin].
  - apply (sweepClientList_keeps _ Hgone). unfold sweepClient. simpl.
    rewrite (proj2 (Z.gtb_lt _ _)) by lia. by apply cleanupClientFiles_gone.
  - assert (sweepClient now st e =
            if now - lastActivity e.2 >? heartbeatTimeout
            then cleanupClientFiles e.1 st else st) as -> by done.
    destruct (now - lastActivity e.2 >? heartbeatTimeout) eqn:Hstale;
      [|by apply IH].
    destruct (decide (e.1 = cid)) as [Heq|Hne].
    + apply (sweepClientList_keeps _ Hgone). rewrite Heq.
      by apply cleanupClientFiles_gone.
    + apply IH; [|done|by apply (cleanupClientFiles_keeps _ Hkeep)].
      by rewrite cleanupClientFiles_clients, lookup_delete_ne.
Qed.

Lemma sweepClients_gone (st : State) :
  clients st !! cid = Some c →
  liveOrGone type name od (fileTracker st) (fs st) →
  gone type name (fileTracker (sweepClients now st)) (fs (sweepClients now st)).
Proof.
  intros Hc Hst. apply sweepClientList_gone; [done| |done].
  by apply elem_of_map_to_list.
Qed.

End SweepOneClient.

(** ** The token sweep *)

Lemma sweepToken_downloadTokens (now : Z) (st : State) (e : string * TokenData) :
  downloadTokens (sweepToken now st e) =
    if now - created e.2 >? maxAge
    then delete e.1 (downloadTokens st) else downloadTokens st.
Proof. unfold sweepToken. by destruct (_ >? _). Qed.

Lemma sweepTokenList_absent (now : Z) (token : string)
    (l : list (string * TokenData)) (st : State) :
  downloadTokens st !! token = None →
  downloadTokens (foldl (sweepToken now) st l) !! token = None.
Proof.
  revert st. induction l as [|e l IH]; intros st Hst; [done|]. simpl.
  apply IH. rewrite sweepToken_downloadTokens. destruct (_ >? _); [|done].
  apply lookup_delete_None. by right.
Qed.

Lemma sweepTokenList_removes (now : Z) (token : string) (data : TokenData)
    (l : list (string * TokenData)) (st : State) :
  now - created data > maxAge → (token, data) ∈ l →
  downloadTokens (foldl (sweepToken now) st l) !! token = None.
Proof.
  intros Hexp. revert st. induction l as [|e l IH]; intros st Hin.
  { by apply elem_of_nil in Hin. }
  simpl. apply elem_of_cons in Hin as [<-|Hin]; [|by apply IH].
  apply sweepTokenList_absent. rewrite sweepToken_downloadTokens. simpl.
  rewrite (proj2 (Z.gtb_lt _ _)) by lia. apply lookup_delete_eq.
Qed.

Lemma scheduledCleanup_downloadTokens (now : Z) (token : string)
    (data : TokenData) (st : State) :
  downloadTokens st !! token = Some data → now - created data > maxAge →
  downloadTokens (scheduledCleanup now st) !! token = None.
Proof.
  intros Hst Hexp. unfold scheduledCleanup, sweepTokens.
  apply (sweepTokenList_removes now token data); [done|].
  apply elem_of_map_to_list. unfold sweepClients.
  rewrite sweepClientList_downloadTokens.
  by destruct (sweepFiles_rest now st) as [_ ->].
Qed.

(** ** The download handler *)

Lemma downloadRequest_unknown (token : string) (st : State) :
  downloadTokens st !! token = None →
  downloadRequest token st = (LinkInvalid404, st).
Proof. intros H. unfold downloadRequest. by rewrite H. Qed.

Lemma downloadRequest_missing (token : string) (data : TokenData) (st : State) :
  downloadTokens st !! token = Some data →
  (outputDir, filename data) ∉ present (fs st) →
  downloadRequest token st = (FileMissing404, st).
Proof.
  intros H Hp. unfold downloadRequest. rewrite H. cbv zeta.
  by rewrite bool_decide_eq_false_2.
Qed.

Lemma downloadRequest_served (token : string) (data : TokenData) (st : State) :
  downloadTokens st !! token = Some data →
  (outputDir, filename data) ∈ present (fs st) →
  downloadRequest token st =
    (Sending (outputDir, filename data)
       (tokenOriginalName data +:+ "-vidsnip-edited.mp4")
       {| transferToken := token; transferData := data;
          transferHasFileData :=
            bool_decide (is_Some (output (fileTracker st) !! filename data)) |},
     markOutput (filename data) true st).
Proof.
  intros H Hp. unfold downloadRequest. rewrite H. cbv zeta.
  by rewrite bool_decide_eq_true_2.
Qed.

(** A request that starts a transfer hands the callback the token it was
    made for. *)
Lemma downloadRequest_transferToken (token : string) (st st' : State)
    (p : Path) (n : string) (t : Transfer) :
  downloadRequest token st = (Sending p n t, st') → transferToken t = token.
Proof.
  unfold downloadRequest. destruct (downloadTokens st !! token); [|done].
  cbv zeta. case_bool_decide; [|done]. by intros [= <- <- <- <-].
Qed.

Lemma downloadCallback_downloadTokens (t : Transfer) (attached : bool)
    (st : State) :
  downloadTokens (downloadCallback t attached st)
    = delete (transferToken t) (downloadTokens st).
Proof.
  unfold downloadCallback. by destruct (transferHasFileData t && attached).
Qed.

(** ** [trackFile] *)

Lemma trackFile_tracker (now : Z) (name : string) (type : FileType)
    (cid : string) (st : State) :
  trackerOf type (fileTracker (trackFile now name type cid st)) =
    <[name := {| timestamp := now; clientId := cid; inUse := false |}]>
      (trackerOf type (fileTracker st)).
Proof. unfold trackFile. simpl. apply trackerOf_setTracker. Qed.

Lemma trackFile_tracker_ne (now : Z) (name : string) (type type' : FileType)
    (cid : string) (st : State) :
  type ≠ type' →
  trackerOf type' (fileTracker (trackFile now name type cid st)) =
    trackerOf type' (fileTracker st).
Proof. intros. unfold trackFile. simpl. by apply trackerOf_setTracker_ne. Qed.

Lemma trackFile_client (now : Z) (name : string) (type : FileType)
    (cid : string) (st : State) :
  clients (trackFile now name type cid st) !! cid =
    Some {| lastActivity := now;
            files := filesOf cid st ++ [(name, type)];
            originalName := clients st !! cid ≫= originalName |}.
Proof.
  unfold trackFile, filesOf. simpl. rewrite lookup_alter_eq.
  destruct (clients st !! cid) as [c|] eqn:Hc.
  - by rewrite Hc.
  - by rewrite lookup_insert_eq.
Qed.

Lemma trackFile_client_ne (now : Z) (name : string) (type : FileType)
    (cid cid' : string) (st : State) :
  cid ≠ cid' →
  clients (trackFile now name type cid st) !! cid' = clients st !! cid'.
Proof.
  intros Hne. unfold trackFile. simpl. rewrite lookup_alter_ne by done.
  destruct (clients st !! cid); [done|]. by rewrite lookup_insert_ne.
Qed.

Lemma trackFile_rest (now : Z) (name : string) (type : FileType)
    (cid : string) (st : State) :
  downloadTokens (trackFile now name type cid st) = downloadTokens st
  ∧ fs (trackFile now name type cid st) = fs st.
Proof. done. Qed.

(** ** Download tokens *)

Import Scenario.

(** C2, on the code. The handler deletes the token in the callback of
    [res.download], not when it starts the transfer, so a token is not
    redeemed at most once: a second request for the same token that
    arrives while the first transfer is still running finds the token in
    the store and is served the same file. Here the token issued for
    [processed-1000.mp4] is redeemed twice, both requests starting the
    transfer of the file. *)
Theorem download_overlapping_requests :
  ∃ p n t1 t2 st1 st2,
    downloadRequest resultToken resultReady = (Sending p n t1, st1)
    ∧ downloadRequest resultToken st1 = (Sending p n t2, st2).
Proof.
  eexists _, _, _, _, _, _. split; [vm_compute; reflexivity|].
  vm_compute. reflexivity.
Qed.

(** What the code does keep of one-time tokens: when a redemption has
    completed (the request started a transfer, and the callback of that
    transfer has run, on whatever state [st2] the server had by then), the
    token is no longer in the token store and redeeming it again returns
    the not-found failure of an unknown link, leaving the state as it
    is. *)
Lemma download_after_callback_unknown (token : string) (st st1 st2 : State)
    (p : Path) (n : string) (t : Transfer) (attached : bool) :
  downloadRequest token st = (Sending p n t, st1) →
  downloadTokens (downloadCallback t attached st2) !! token = None
  ∧ downloadRequest token (downloadCallback t attached st2)
    = (LinkInvalid404, downloadCallback t attached st2).
Proof.
  intros Hreq. apply downloadRequest_transferToken in Hreq as Ht.
  assert (downloadTokens (downloadCallback t attached st2) !! token = None)
    as Hnone
    by (by rewrite downloadCallback_downloadTokens, Ht, lookup_delete_eq).
  split; [done | by apply downloadRequest_unknown].
Qed.

(** C3, as stated, fails: the handler reads no clock. At time 1805001 the
    token issued at time 5000 is older than the retention window of
    1800000 ms, no sweep has run, and redeeming it starts the transfer,
    whereas a token that was never issued gets the not-found failure. *)
Lemma expired_token_served_before_sweep :
  downloadTokens resultReady !! resultToken = Some resultData
  ∧ 1805001 - created resultData > maxAge
  ∧ (downloadRequest resultToken resultReady).1
    = Sending (outputDir, resultName) "clip-vidsnip-edited.mp4"
        {| transferToken := resultToken; transferData := resultData;
           transferHasFileData := true |}
  ∧ (downloadRequest "dl-never-issued" resultReady).1 = LinkInvalid404.
Proof. vm_compute. repeat split; reflexivity. Qed.

(** C3, amended. Once a sweep has run at a time [now] at which the token is
    older than the retention window, the token is gone from the store and
    redeeming it returns the same not-found failure as redeeming a token
    [unknown] that was never issued. *)
Theorem expired_token_unknown_after_sweep (now : Z) (token unknown : string)
    (data : TokenData) (st : State) :
  downloadTokens st !! token = Some data →
  now - created data > maxAge →
  downloadTokens (scheduledCleanup now st) !! unknown = None →
  downloadTokens (scheduledCleanup now st) !! token = None
  ∧ downloadRequest token (scheduledCleanup now st)
    = (LinkInvalid404, scheduledCleanup now st)
  ∧ (downloadRequest token (scheduledCleanup now st)).1
    = (downloadRequest unknown (scheduledCleanup now st)).1.
Proof.
  intros Hst Hexp Hunk.
  pose proof (scheduledCleanup_downloadTokens now token data st Hst Hexp) as Hn.
  rewrite (downloadRequest_unknown _ _ Hn), (downloadRequest_unknown _ _ Hunk).
  done.
Qed.

Lemma expired_token_unknown_after_sweep_witness :
  downloadTokens (scheduledCleanup 1805001 resultReady) !! resultToken = None
  ∧ downloadRequest resultToken (scheduledCleanup 1805001 resultReady)
    = (LinkInvalid404, scheduledCleanup 1805001 resultReady)
  ∧ (downloadRequest resultToken (scheduledCleanup 1805001 resultReady)).1
    = (downloadRequest "dl-never-issued" (scheduledCleanup 1805001 resultReady)).1.
Proof.
  apply (expired_token_unknown_after_sweep 1805001 resultToken
           "dl-never-issued" resultData resultReady).
  - vm_compute. reflexivity.
  - vm_compute. reflexivity.
  - vm_compute. reflexivity.
Defined.

(** C10. When the token is in the store but its result file is not on disk,
    the handler answers with the file-not-found failure and changes
    nothing: the token is still in the store, and a later request for it,
    made on any state that still holds the token and has the file on disk,
    starts the transfer. *)
Theorem download_missing_file_keeps_token (token : string) (data : TokenData)
    (st : State) :
  downloadTokens st !! token = Some data →
  (outputDir, filename data) ∉ present (fs st) →
  downloadRequest token st = (FileMissing404, st)
  ∧ downloadTokens (downloadRequest token st).2 !! token = Some data
  ∧ ∀ st' : State,
      downloadTokens st' !! token
        = downloadTokens (downloadRequest token st).2 !! token →
      (outputDir, filename data) ∈ present (fs st') →
      ∃ t, (downloadRequest token st').1
           = Sending (outputDir, filename data)
               (tokenOriginalName data +:+ "-vidsnip-edited.mp4") t.
Proof.
  intros Hst Hp. rewrite (downloadRequest_missing _ _ _ Hst Hp). simpl.
  repeat split; [done|]. intros st' Hst' Hp'. rewrite Hst in Hst'.
  rewrite (downloadRequest_served _ _ _ Hst' Hp'). by eexists.
Qed.

Lemma download_missing_file_keeps_token_witness :
  downloadRequest resultToken resultLost = (FileMissing404, resultLost)
  ∧ downloadTokens (downloadRequest resultToken resultLost).2 !! resultToken
    = Some resultData.
Proof.
  assert (downloadTokens resultLost !! resultToken = Some resultData) as H1
    by (vm_compute; reflexivity).
  assert ((outputDir, filename resultData) ∉ present (fs resultLost)) as H2
    by (simpl; apply not_elem_of_empty).
  destruct (download_missing_file_keeps_token _ _ _ H1 H2) as (Ha & Hb & _).
  split; [exact Ha | exact Hb].
Defined.

(** ** Files in use, aged files *)

(** A file that is tracked but not on disk keeps its tracking entry through
    every sweep, whatever its age and whoever owns it: [deleteFile] returns
    before [tracker.delete] when [fs.existsSync] answers false. *)
Lemma scheduledCleanup_offDisk (now : Z) (type : FileType) (name : string)
    (od : option FileData) (st : State) :
  offDisk type name od (fileTracker st) (fs st) →
  offDisk type name od (fileTracker (scheduledCleanup now st))
    (fs (scheduledCleanup now st)).
Proof.
  apply (scheduledCleanup_keeps _ (deleteFile_offDisk type name od)).
Qed.

(** C4, as stated, fails in its second half. After a run whose first cut
    failed, [temp-1-0.mp4] is tracked, not in use and was never written: at
    time 1800001 it is older than the retention window, and the sweep
    leaves its tracking entry where it is. An upload that the disk refuses
    to unlink, as old and not in use either, is still on disk and tracked
    after the sweep. *)
Lemma aged_file_survives_sweep :
  (trackerOf Temp (fileTracker failedRun) !! "temp-1-0.mp4"
     = Some {| timestamp := 0; clientId := "client-0-1"; inUse := false |}
   ∧ 1800001 - 0 > maxAge
   ∧ trackerOf Temp (fileTracker (scheduledCleanup 1800001 failedRun))
       !! "temp-1-0.mp4"
     = Some {| timestamp := 0; clientId := "client-0-1"; inUse := false |})
  ∧ (trackerOf Upload (fileTracker uploadedLocked) !! "0-1.mp4"
       = Some {| timestamp := 0; clientId := "client-0-1"; inUse := false |}
     ∧ 1800001 - 0 > maxAge
     ∧ trackerOf Upload (fileTracker (scheduledCleanup 1800001 uploadedLocked))
         !! "0-1.mp4"
       = Some {| timestamp := 0; clientId := "client-0-1"; inUse := false |}
     ∧ bool_decide ((uploadsDir, "0-1.mp4"%string)
                      ∈ present (fs (scheduledCleanup 1800001 uploadedLocked)))
       = true).
Proof. vm_compute. repeat split; reflexivity. Qed.

(** C4, amended. A tracked file whose in-use flag is true keeps its
    tracking entry, and stays on disk if it was there, through a sweep and
    through [cleanupClientFiles], whatever its age. A tracked file whose
    in-use flag is false, whose age exceeds the retention window, that is on
    disk and whose unlink does not fail is, after the next sweep, neither on
    disk nor tracked. *)
Theorem in_use_kept_aged_deleted (now : Z) (cid : string) (type : FileType)
    (name : string) (d : FileData) (st : State) :
  trackerOf type (fileTracker st) !! name = Some d →
  (inUse d = true →
     heldInUse type name d ((dirOf type, name) ∈ present (fs st))
       (fileTracker (scheduledCleanup now st)) (fs (scheduledCleanup now st))
     ∧ heldInUse type name d ((dirOf type, name) ∈ present (fs st))
         (fileTracker (cleanupClientFiles cid st))
         (fs (cleanupClientFiles cid st)))
  ∧ (inUse d = false →
     now - timestamp d > maxAge →
     (dirOf type, name) ∈ present (fs st) →
     (dirOf type, name) ∉ unlinkFails (fs st) →
     gone type name (fileTracker (scheduledCleanup now st))
       (fs (scheduledCleanup now st))).
Proof.
  intros Hst. split.
  - intros Hd.
    pose proof (λ n t s, deleteFile_heldInUse type name d
                  ((dirOf type, name) ∈ present (fs st)) n t s Hd) as Hkeep.
    assert (heldInUse type name d ((dirOf type, name) ∈ present (fs st))
              (fileTracker st) (fs st)) as H0 by done.
    split.
    + by apply (scheduledCleanup_keeps _ Hkeep).
    + by apply (cleanupClientFiles_keeps _ Hkeep).
  - intros Hd Hage Hp Hu. by apply (scheduledCleanup_gone now type name d).
Qed.

Lemma in_use_kept_aged_deleted_witness :
  (heldInUse Output resultName
     {| timestamp := 5000; clientId := "client-0-1"; inUse := true |}
     ((outputDir, resultName) ∈ present (fs resultInTransfer))
     (fileTracker (scheduledCleanup 1805001 resultInTransfer))
     (fs (scheduledCleanup 1805001 resultInTransfer))
   ∧ heldInUse Output resultName
       {| timestamp := 5000; clientId := "client-0-1"; inUse := true |}
       ((outputDir, resultName) ∈ present (fs resultInTransfer))
       (fileTracker (cleanupClientFiles "client-0-1" resultInTransfer))
       (fs (cleanupClientFiles "client-0-1" resultInTransfer)))
  ∧ gone Output resultName
      (fileTracker (scheduledCleanup 1805001 resultReady))
      (fs (scheduledCleanup 1805001 resultReady)).
Proof.
  split.
  - apply (in_use_kept_aged_deleted 1805001 "client-0-1" Output resultName
             {| timestamp := 5000; clientId := "client-0-1"; inUse := true |}
             resultInTransfer).
    + vm_compute. reflexivity.
    + reflexivity.
  - apply (in_use_kept_aged_deleted 1805001 "client-0-1" Output resultName
             {| timestamp := 5000; clientId := "client-0-1"; inUse := false |}
             resultReady).
    + vm_compute. reflexivity.
    + reflexivity.
    + vm_compute. reflexivity.
    + simpl. apply elem_of_singleton. reflexivity.
    + simpl. apply not_elem_of_empty.
Defined.

(** ** [trackFile] twice *)

(** C7, as stated, fails: tracking the same file twice in a fresh server
    leaves the file twice in the session's list, and once if it is tracked
    once. *)
Lemma trackFile_twice_lists_twice :
  filesOf "client-0-1"
    (trackFile 2 "0-1.mp4" Upload "client-0-1"
       (trackFile 1 "0-1.mp4" Upload "client-0-1" emptyState))
    = [("0-1.mp4"%string, Upload); ("0-1.mp4"%string, Upload)]
  ∧ filesOf "client-0-1"
      (trackFile 2 "0-1.mp4" Upload "client-0-1" emptyState)
    = [("0-1.mp4"%string, Upload)].
Proof. vm_compute. split; reflexivity. Qed.

Lemma setTracker_setTracker (type : FileType) (m m' : gmap string FileData)
    (ft : FileTracker) :
  setTracker type m' (setTracker type m ft) = setTracker type m' ft.
Proof. by destruct type. Qed.

(** C7, amended. Tracking a file a second time, at time [now2] after a first
    time [now1], leaves the three trackers exactly as tracking it once at
    [now2] does, and the session with the same last-activity time; the
    session's file list holds one more entry for the file than after one
    call. *)
Theorem trackFile_twice (now1 now2 : Z) (name : string) (type : FileType)
    (cid : string) (st : State) :
  let once := trackFile now2 name type cid st in
  let twice := trackFile now2 name type cid (trackFile now1 name type cid st) in
  fileTracker twice = fileTracker once
  ∧ (lastActivity <$> clients twice !! cid) = (lastActivity <$> clients once !! cid)
  ∧ filesOf cid twice = filesOf cid once ++ [(name, type)].
Proof.
  cbv zeta. split; [|split].
  - unfold trackFile at 1 3. cbn [fileTracker].
    rewrite trackFile_tracker, insert_insert_eq.
    unfold trackFile. cbn [fileTracker]. apply setTracker_setTracker.
  - by rewrite !trackFile_client.
  - unfold filesOf at 1 2. rewrite !trackFile_client.
    unfold filesOf at 1. by rewrite trackFile_client.
Qed.

(** ** The session's last activity *)

(** C8, as stated, fails for deletions: [deleteFile] reads no clock.
    Deleting the upload of time 0 succeeds, and the owning session's last
    activity is still 0 afterwards: not the time of the deletion, be it
    60000 or any other time after the upload. *)
Lemma deleteFile_leaves_lastActivity :
  (deleteFile "0-1.mp4" Upload uploaded).1 = true
  ∧ (clientId <$> trackerOf Upload (fileTracker uploaded) !! "0-1.mp4")
    = Some "client-0-1"%string
  ∧ (lastActivity <$> clients uploaded !! "client-0-1") = Some 0
  ∧ (lastActivity <$>
       clients (deleteFile "0-1.mp4" Upload uploaded).2 !! "client-0-1")
    = Some 0
  ∧ (lastActivity <$>
       clients (deleteFile "0-1.mp4" Upload uploaded).2 !! "client-0-1")
    ≠ Some 60000.
Proof. vm_compute. repeat split; try reflexivity. discriminate. Qed.

(** C8, amended. Every [trackFile] sets the last activity of the session it
    is called for to the current time (creating the session if it is not in
    the map); [deleteFile] leaves the session map, and so every last
    activity, as it is. *)
Theorem trackFile_refreshes_lastActivity (now : Z) (name : string)
    (type : FileType) (cid : string) (st : State) :
  (lastActivity <$> clients (trackFile now name type cid st) !! cid) = Some now
  ∧ clients (deleteFile name type st).2 = clients st.
Proof.
  split; [by rewrite trackFile_client | apply deleteFile_clients].
Qed.

(** ** Inactive sessions *)

(** C9, as stated, fails for the files. At time 300001 the session of the
    failed run has been inactive for longer than the heartbeat timeout of
    300000 ms. After the collector run the session is gone, but
    [temp-1-0.mp4], which it had tracked, which is not in use and which was
    never written, is still tracked; and the upload that the disk refuses
    to unlink, not in use either, is still on disk and tracked. *)
Lemma inactive_session_file_survives :
  ((lastActivity <$> clients failedRun !! "client-0-1") = Some 0
   ∧ 300001 - 0 > heartbeatTimeout
   ∧ clients (scheduledCleanup 300001 failedRun) !! "client-0-1" = None
   ∧ ("temp-1-0.mp4"%string, Temp) ∈ filesOf "client-0-1" failedRun
   ∧ trackerOf Temp (fileTracker (scheduledCleanup 300001 failedRun))
       !! "temp-1-0.mp4"
     = Some {| timestamp := 0; clientId := "client-0-1"; inUse := false |})
  ∧ ((lastActivity <$> clients uploadedLocked !! "client-0-1") = Some 0
     ∧ clients (scheduledCleanup 300001 uploadedLocked) !! "client-0-1" = None
     ∧ ("0-1.mp4"%string, Upload) ∈ filesOf "client-0-1" uploadedLocked
     ∧ trackerOf Upload (fileTracker (scheduledCleanup 300001 uploadedLocked))
         !! "0-1.mp4"
       = Some {| timestamp := 0; clientId := "client-0-1"; inUse := false |}
     ∧ bool_decide ((uploadsDir, "0-1.mp4"%string)
                      ∈ present (fs (scheduledCleanup 300001 uploadedLocked)))
       = true).
Proof.
  split; [split; [|split; [|split; [|split]]]
         | split; [|split; [|split; [|split]]]];
    try (vm_compute; reflexivity).
  - vm_compute. set_solver.
  - vm_compute. set_solver.
Qed.

Lemma scheduledCleanup_clients (now : Z) (cid : string) (c : Client) (st : State) :
  clients st !! cid = Some c → now - lastActivity c > heartbeatTimeout →
  clients (scheduledCleanup now st) !! cid = None.
Proof.
  intros Hc Hin. unfold scheduledCleanup, sweepTokens.
  destruct (sweepTokenList_files now
              (map_to_list (downloadTokens (sweepClients now (sweepFiles now st))))
              (sweepClients now (sweepFiles now st))) as (_ & _ & ->).
  apply (sweepClients_removes now cid c Hin).
  by destruct (sweepFiles_rest now st) as [-> _].
Qed.

(** C9, amended. A session whose last activity is older than the heartbeat
    timeout when the collector runs is absent from the session map after
    the run. Of the files in its list, those whose in-use flag is true keep
    their tracking entry (and stay on disk if they were there); those that
    are not in use, are on disk and whose unlink does not fail are, after
    the run, neither on disk nor tracked. *)
Theorem inactive_session_collected (now : Z) (cid : string) (c : Client)
    (st : State) :
  clients st !! cid = Some c →
  now - lastActivity c > heartbeatTimeout →
  clients (scheduledCleanup now st) !! cid = None
  ∧ ∀ (name : string) (type : FileType),
      (name, type) ∈ files c →
      (∀ d : FileData,
         trackerOf type (fileTracker st) !! name = Some d → inUse d = true →
         heldInUse type name d ((dirOf type, name) ∈ present (fs st))
           (fileTracker (scheduledCleanup now st)) (fs (scheduledCleanup now st)))
      ∧ (dataInUse (trackerOf type (fileTracker st) !! name) = false →
         (dirOf type, name) ∈ present (fs st) →
         (dirOf type, name) ∉ unlinkFails (fs st) →
         gone type name (fileTracker (scheduledCleanup now st))
           (fs (scheduledCleanup now st))).
Proof.
  intros Hc Hin. split; [by eapply scheduledCleanup_clients|].
  intros name type Hown. split.
  - intros d Hd Hu.
    apply (scheduledCleanup_keeps _
             (λ n t s, deleteFile_heldInUse type name d _ n t s Hu)).
    done.
  - intros Hu Hp Hf.
    set (od := trackerOf type (fileTracker st) !! name) in *.
    pose proof (λ n t s, deleteFile_liveOrGone type name od n t s Hu) as Hkeep.
    unfold scheduledCleanup.
    apply (sweepTokens_keeps _).
    apply (sweepClients_gone now cid c Hin type name od Hown Hu).
    + by destruct (sweepFiles_rest now st) as [-> _].
    + apply (sweepFiles_keeps _ Hkeep). by left.
Qed.

Lemma inactive_session_collected_witness :
  clients (scheduledCleanup 305001 resultReady) !! "client-0-1" = None
  ∧ gone Output resultName
      (fileTracker (scheduledCleanup 305001 resultReady))
      (fs (scheduledCleanup 305001 resultReady)).
Proof.
  destruct (inactive_session_collected 305001 "client-0-1"
    {| lastActivity := 5000; files := [(resultName, Output)];
       originalName := Some "clip.mp4"%string |} resultReady)
    as [Habsent Hfiles].
  - vm_compute. reflexivity.
  - reflexivity.
  - split; [exact Habsent|].
    apply (Hfiles resultName Output).
    + apply list_elem_of_singleton. reflexivity.
    + vm_compute. reflexivity.
    + simpl. apply elem_of_singleton. reflexivity.
    + simpl. apply not_elem_of_empty.
Defined.

(** ** The encode pipeline *)

Section PipelineFacts.

Variable exec : Cmd → Disk → Z → bool * Disk * Z.
Variable writeThrows : Path → Disk → option Disk.
Variable joinUploads : string → Path.
Variable pathParseName : string → string.

(** The loop runs the cuts in order and stops at the first that fails. *)
Lemma cutSegments_log (inputPath : Path)
    (jobs : list (Timeline.Segment * Path)) (d : Disk) (now : Z) :
  ∃ ok d' now' log,
    cutSegments exec inputPath jobs d now = (ok, d', now', log)
    ∧ if ok then log = resolved (cutCommands inputPath jobs)
      else ∃ (k : nat) (cmd : Cmd),
             cutCommands inputPath jobs !! k = Some cmd
             ∧ log = resolved (take k (cutCommands inputPath jobs))
                       ++ [(cmd, false)].
Proof.
  revert d now. induction jobs as [|[seg tempFile] jobs IH]; intros d now.
  { by exists true, d, now, []. }
  simpl. destruct (exec _ d now) as [[ok d1] now1]. destruct ok.
  - destruct (IH d1 now1) as (ok & d' & now' & log & -> & Hlog).
    exists ok, d', now', ((CutCmd inputPath seg tempFile, true) :: log).
    split; [done|]. destruct ok.
    + by rewrite Hlog.
    + destruct Hlog as (k & cmd & Hk & ->). by exists (S k), cmd.
  - exists false, d1, now1, [(CutCmd inputPath seg tempFile, false)].
    split; [done|]. by exists 0%nat, (CutCmd inputPath seg tempFile).
Qed.

(** Registering the intermediates tracks each of them, lists each of them
    in the session, and touches neither the tokens nor the disk. *)
Lemma trackTempFiles_rest (now : Z) (cid : string) (l : list Path) (st : State) :
  downloadTokens (trackTempFiles now cid l st) = downloadTokens st
  ∧ fs (trackTempFiles now cid l st) = fs st.
Proof.
  revert st. induction l as [|p l IH]; intros st; [done|]. simpl.
  by destruct (IH (trackFile now (basename p) Temp cid st)) as [-> ->].
Qed.

Lemma trackTempFiles_keeps_entry (now : Z) (cid name : string)
    (l : list Path) (st : State) :
  temp (fileTracker st) !! name = Some (freshEntry now cid) →
  temp (fileTracker (trackTempFiles now cid l st)) !! name
    = Some (freshEntry now cid).
Proof.
  revert st. induction l as [|p l IH]; intros st Hst; [done|]. simpl.
  apply IH. change (temp ?ft) with (trackerOf Temp ft).
  rewrite trackFile_tracker.
  destruct (decide (basename p = name)) as [->|Hne].
  - by rewrite lookup_insert_eq.
  - by rewrite lookup_insert_ne.
Qed.

Lemma trackTempFiles_tracked (now : Z) (cid : string) (l : list Path)
    (st : State) (p : Path) :
  p ∈ l →
  temp (fileTracker (trackTempFiles now cid l st)) !! basename p
    = Some (freshEntry now cid).
Proof.
  revert st. induction l as [|q l IH]; intros st Hin.
  { by apply elem_of_nil in Hin. }
  simpl. apply elem_of_cons in Hin as [<-|Hin]; [|by apply IH].
  apply trackTempFiles_keeps_entry.
  change (temp ?ft) with (trackerOf Temp ft).
  by rewrite trackFile_tracker, lookup_insert_eq.
Qed.




Lemma tempFilesFor_lookup (nameClock : nat → Z) (segs : list Timeline.Segment)
    (i : nat) (p : Path) :
  tempFilesFor nameClock segs !! i = Some p →
  (i < length segs)%nat
  ∧ p = (tempDir, "temp-" +:+ pretty (Z.of_nat i) +:+ "-"
                    +:+ pretty (nameClock i) +:+ ".mp4").
Proof.
  unfold tempFilesFor. intros Hi.
  apply list_lookup_imap_Some in Hi as (seg & Hseg & ->).
  split; [by eapply lookup_lt_Some | done].
Qed.

Lemma tempFilesFor_name (nameClock : nat → Z) (segs : list Timeline.Segment)
    (p : Path) :
  p ∈ tempFilesFor nameClock segs →
  ∃ i : nat, p = (tempDir, "temp-" +:+ pretty (Z.of_nat i) +:+ "-"
                              +:+ pretty (nameClock i) +:+ ".mp4").
Proof.
  intros Hin. apply list_elem_of_lookup in Hin as [i Hi].
  apply tempFilesFor_lookup in Hi as [_ ->]. by exists i.
Qed.

Lemma tempFilesFor_length (nameClock : nat → Z) (segs : list Timeline.Segment) :
  length (tempFilesFor nameClock segs) = length segs.
Proof. apply length_imap. Qed.

(** *** The four ways a run of a valid request ends *)

Section ValidRequest.

Variables (now : Z) (nameClock : nat → Z) (rnd : Z).
Variables (req : ProcessRequest) (st : State).
Hypothesis has_filename : reqFilename req ≠ "".
Hypothesis has_segments : reqSegments req ≠ [].
Hypothesis source_on_disk : joinUploads (reqFilename req) ∈ present (fs st).

Let r : Run :=
  processRequest exec writeThrows joinUploads pathParseName now nameClock rnd
    req st.
Let cid : string := reqClientId req.
Let tempFiles : list Path := tempFilesFor nameClock (reqSegments req).
Let cuts : list Cmd :=
  cutCommands (joinUploads (reqFilename req)) (zip (reqSegments req) tempFiles).
Let outputPath : Path := (outputDir, "processed-" +:+ pretty now +:+ ".mp4").
Let st1 : State := trackTempFiles now cid tempFiles st.

Lemma processRequest_cases :
  (∃ (now2 now4 : Z),
     response r = VideoProcessed ("dl-" +:+ pretty now4 +:+ "-" +:+ pretty rnd)
     ∧ invocations r =
         resolved cuts
         ++ [(ConcatCmd (tempDir, "list-" +:+ pretty now2 +:+ ".txt") outputPath,
              true)]
     ∧ downloadTokens (finalState r) =
         <["dl-" +:+ pretty now4 +:+ "-" +:+ pretty rnd :=
             {| filename := "processed-" +:+ pretty now +:+ ".mp4";
                created := now4;
                tokenOriginalName :=
                  pathParseName (originalNameOf (clients st !! cid)) |}]>
           (downloadTokens st))
  ∨ (∃ (k : nat) (cmd : Cmd) (d2 : Disk),
       cuts !! k = Some cmd
       ∧ response r = ProcessingFailed500
       ∧ invocations r = resolved (take k cuts) ++ [(cmd, false)]
       ∧ finalState r = withDisk d2 st1)
  ∨ (∃ (now2 : Z) (d2 d4 : Disk),
       response r = ProcessingFailed500
       ∧ invocations r =
           resolved cuts
           ++ [(ConcatCmd (tempDir, "list-" +:+ pretty now2 +:+ ".txt")
                  outputPath, false)]
       ∧ finalState r =
           withDisk d4
             (trackFile now2 ("list-" +:+ pretty now2 +:+ ".txt") Temp cid
                (withDisk (writeFile (tempDir, "list-" +:+ pretty now2 +:+ ".txt") d2)
                   st1)))
  ∨ (∃ (now2 : Z) (d2 d3 : Disk),
       writeThrows (tempDir, "list-" +:+ pretty now2 +:+ ".txt") d2 = Some d3
       ∧ response r = ProcessingFailed500
       ∧ invocations r = resolved cuts
       ∧ finalState r = withDisk d3 st1).
Proof.
  subst r. unfold processRequest.
  rewrite (bool_decide_eq_false_2 _ has_filename),
    (bool_decide_eq_false_2 _ has_segments),
    (bool_decide_eq_true_2 _ source_on_disk).
  cbn [orb negb]. cbv zeta.
  fold tempFiles. fold cid. fold st1.
  destruct (cutSegments_log (joinUploads (reqFilename req))
              (zip (reqSegments req) tempFiles) (fs st1) now)
    as (ok & d2 & now2 & log & -> & Hlog).
  destruct ok; cbn [negb].
  - destruct (writeThrows _ d2) as [d3|] eqn:Hwrite.
    { right. right. right. exists now2, d2, d3.
      cbn [response invocations finalState]. by rewrite Hlog. }
    destruct (exec _ _ now2) as [[ok4 d4] now4]. destruct ok4; cbn [negb].
    + left. exists now2, now4. cbn [response invocations finalState].
      rewrite Hlog. repeat split. cbn [downloadTokens]. f_equal.
      rewrite (proj1 (trackFile_rest _ _ _ _ _)), deleteFile_downloadTokens,
        deleteFiles_downloadTokens.
      cbn [withDisk downloadTokens].
      rewrite (proj1 (trackFile_rest _ _ _ _ _)).
      cbn [withDisk downloadTokens].
      apply trackTempFiles_rest.
    + right. right. left. exists now2, d2, d4.
      cbn [response invocations finalState]. by rewrite Hlog.
  - right. left. destruct Hlog as (k & cmd & Hk & ->).
    by exists k, cmd, d2.
Qed.

End ValidRequest.

End PipelineFacts.

(** *** Shapes of the invocation log *)

Lemma cutCommands_lookup (inputPath : Path)
    (jobs : list (Timeline.Segment * Path)) (i : nat) (cmd : Cmd) :
  cutCommands inputPath jobs !! i = Some cmd →
  ∃ seg tempFile, jobs !! i = Some (seg, tempFile)
                  ∧ cmd = CutCmd inputPath seg tempFile.
Proof.
  unfold cutCommands. rewrite list_lookup_fmap.
  destruct (jobs !! i) as [[seg tempFile]|]; [|done].
  intros [= <-]. by exists seg, tempFile.
Qed.

Lemma resolved_lookup (cmds : list Cmd) (i : nat) (cmd : Cmd) (ok : bool) :
  resolved cmds !! i = Some (cmd, ok) → cmds !! i = Some cmd ∧ ok = true.
Proof.
  unfold resolved. rewrite list_lookup_fmap.
  destruct (cmds !! i); [|done]. by intros [= <- <-].
Qed.

Lemma resolved_length (cmds : list Cmd) : length (resolved cmds) = length cmds.
Proof. apply length_map. Qed.


(** In a log made of cuts followed by one more invocation, a concatenation
    can only be that last one. *)
Lemma concat_is_last (inputPath : Path) (jobs : list (Timeline.Segment * Path))
    (k : nat) (last : Invocation) (i : nat)
    (listFile outputPath : Path) (ok : bool) :
  (resolved (take k (cutCommands inputPath jobs)) ++ [last]) !! i
    = Some (ConcatCmd listFile outputPath, ok) →
  i = length (take k (cutCommands inputPath jobs))
  ∧ last = (ConcatCmd listFile outputPath, ok).
Proof.
  intros Hi. apply lookup_app_Some in Hi as [Hi|[Hge Hi]].
  - apply resolved_lookup in Hi as [Hi _].
    apply lookup_take_Some in Hi as [Hi _].
    by apply cutCommands_lookup in Hi as (? & ? & _ & ?).
  - rewrite resolved_length in Hge, Hi.
    apply list_lookup_singleton_Some in Hi as [Hi ->]. split; [lia | done].
Qed.

Lemma concat_after_all_cuts (inputPath : Path)
    (jobs : list (Timeline.Segment * Path)) (last : Invocation) (i : nat)
    (listFile outputPath : Path) (ok : bool) :
  (resolved (cutCommands inputPath jobs) ++ [last]) !! i
    = Some (ConcatCmd listFile outputPath, ok) →
  i = length (cutCommands inputPath jobs)
  ∧ take i (resolved (cutCommands inputPath jobs) ++ [last])
    = resolved (cutCommands inputPath jobs).
Proof.
  intros Hi.
  rewrite <- (take_ge (cutCommands inputPath jobs)
                (length (cutCommands inputPath jobs))) in Hi by reflexivity.
  apply concat_is_last in Hi as [-> _].
  rewrite take_ge by reflexivity. split; [done|].
  rewrite <- (resolved_length (cutCommands inputPath jobs)).
  apply take_app_length.
Qed.

Lemma list_name_not_temp_name (now2 : Z) (p : Path) (nameClock : nat → Z)
    (segs : list Timeline.Segment) :
  p ∈ tempFilesFor nameClock segs →
  "list-" +:+ pretty now2 +:+ ".txt" ≠ basename p.
Proof.
  intros Hp. apply tempFilesFor_name in Hp as [i ->]. simpl. discriminate.
Qed.

(** *** Order of the invocations *)

Lemma cutCommands_plan (inputPath : Path) (nameClock : nat → Z)
    (segs : list Timeline.Segment) :
  length (cutCommands inputPath (zip segs (tempFilesFor nameClock segs)))
    = length segs
  ∧ ∀ (i : nat) (seg : Timeline.Segment),
      segs !! i = Some seg →
      ∃ tempFile,
        cutCommands inputPath (zip segs (tempFilesFor nameClock segs)) !! i
          = Some (CutCmd inputPath seg tempFile).
Proof.
  unfold cutCommands. split.
  - rewrite length_map, length_zip, tempFilesFor_length. lia.
  - intros i seg Hi.
    destruct (lookup_lt_is_Some_2 (tempFilesFor nameClock segs) i) as [tf Htf].
    { rewrite tempFilesFor_length. by eapply lookup_lt_Some. }
    exists tf. rewrite list_lookup_fmap.
    by rewrite (proj2 (lookup_zip_with_Some _ _ _ _ _)
                  (ex_intro _ seg (ex_intro _ tf (conj eq_refl (conj Hi Htf))))).
Qed.

(** C5, as stated, fails: it holds of the runs in which no invocation fails
    only. The two segments [{0,2},{5,7}] are submitted against an upload
    that is on disk, and the encoder fails on the first cut: the run makes
    that one cut and nothing else, neither the second cut nor a
    concatenation. *)
Lemma failed_cut_ends_the_run :
  reqFilename twoSegments ≠ ""
  ∧ length (reqSegments twoSegments) = 2%nat
  ∧ bool_decide (joinPlain (reqFilename twoSegments) ∈ present (fs uploaded))
    = true
  ∧ invocations
      (processRequest (execFailingAt 0) writeOk joinPlain nameOfClip 0 clock0 7
         twoSegments uploaded)
    = [ (CutCmd (uploadsDir, "0-1.mp4"%string) (seg 0 200)
           (tempDir, "temp-0-0.mp4"%string), false) ].
Proof. vm_compute. repeat split; try reflexivity. discriminate. Qed.

(** The list file is written inside the [try] block too: when
    [fs.writeFileSync] throws, the run has made its cuts, all of them
    resolved, and ends there with the processing error, without a
    concatenation and without a token. *)
Example list_file_not_written :
  let r :=
    processRequest execOk writeFailing joinPlain nameOfClip 0 clock0 7
      twoSegments uploaded in
  response r = ProcessingFailed500
  ∧ invocations r =
      [ (CutCmd (uploadsDir, "0-1.mp4"%string) (seg 0 200)
           (tempDir, "temp-0-0.mp4"%string), true);
        (CutCmd (uploadsDir, "0-1.mp4"%string) (seg 500 700)
           (tempDir, "temp-1-0.mp4"%string), true) ]
  ∧ downloadTokens (finalState r) = ∅.
Proof. vm_compute. repeat split; reflexivity. Qed.

(** C5, amended. For a submission of a non-empty list of N segments against
    a source file that is on disk: the cut commands are one per segment, in
    the order submitted; a run in which no encoder invocation fails makes
    exactly these N cuts, in that order, and then either the write of the
    list file throws, and the run ends with the processing error and
    without a concatenation, or it makes exactly one concatenation and
    answers with a token that is in the store; a token is in the answer
    only in a run that ends with a successful concatenation after the N
    cuts, and otherwise the token store is left as it was; and in every run
    a concatenation invocation, if there is one, comes after the N cuts,
    all of them resolved. *)
Theorem pipeline_cuts_then_concat_then_token
    (exec : Cmd → Disk → Z → bool * Disk * Z)
    (writeThrows : Path → Disk → option Disk) (joinUploads : string → Path)
    (pathParseName : string → string) (now : Z) (nameClock : nat → Z) (rnd : Z)
    (req : ProcessRequest) (st : State) :
  reqFilename req ≠ "" →
  reqSegments req ≠ [] →
  joinUploads (reqFilename req) ∈ present (fs st) →
  let r :=
    processRequest exec writeThrows joinUploads pathParseName now nameClock
      rnd req st in
  let cuts :=
    cutCommands (joinUploads (reqFilename req))
      (zip (reqSegments req) (tempFilesFor nameClock (reqSegments req))) in
  (length cuts = length (reqSegments req)
   ∧ ∀ (i : nat) (seg : Timeline.Segment),
       reqSegments req !! i = Some seg →
       ∃ tempFile,
         cuts !! i = Some (CutCmd (joinUploads (reqFilename req)) seg tempFile))
  ∧ (Forall (λ inv : Invocation, inv.2 = true) (invocations r) →
     (∃ listFile d2 d3,
        writeThrows listFile d2 = Some d3
        ∧ invocations r = resolved cuts
        ∧ response r = ProcessingFailed500)
     ∨ (∃ token listFile outputPath,
          invocations r = resolved cuts ++ [(ConcatCmd listFile outputPath, true)]
          ∧ response r = VideoProcessed token
          ∧ is_Some (downloadTokens (finalState r) !! token)))
  ∧ ((∀ p d, writeThrows p d = None) →
     Forall (λ inv : Invocation, inv.2 = true) (invocations r) →
     ∃ token listFile outputPath,
       invocations r = resolved cuts ++ [(ConcatCmd listFile outputPath, true)]
       ∧ response r = VideoProcessed token
       ∧ is_Some (downloadTokens (finalState r) !! token))
  ∧ (∀ token, response r = VideoProcessed token →
     ∃ listFile outputPath,
       invocations r = resolved cuts ++ [(ConcatCmd listFile outputPath, true)])
  ∧ ((∀ token, response r ≠ VideoProcessed token) →
     downloadTokens (finalState r) = downloadTokens st)
  ∧ (∀ (i : nat) (listFile outputPath : Path) (ok : bool),
       invocations r !! i = Some (ConcatCmd listFile outputPath, ok) →
       i = length (reqSegments req) ∧ take i (invocations r) = resolved cuts).
Proof.
  intros Hname Hsegs Hsrc r cuts.
  pose proof (cutCommands_plan (joinUploads (reqFilename req)) nameClock
                (reqSegments req)) as [Hlen Hplan].
  fold cuts in Hlen, Hplan.
  split; [by split|].
  assert (∀ (last : Invocation) i listFile outputPath ok,
            (resolved cuts ++ [last]) !! i
              = Some (ConcatCmd listFile outputPath, ok) →
            i = length (reqSegments req)
            ∧ take i (resolved cuts ++ [last]) = resolved cuts) as Hfull.
  { intros last i lf out ok Hi.
    apply concat_after_all_cuts in Hi as [-> Ht]. by rewrite <- Hlen. }
  destruct (processRequest_cases exec writeThrows joinUploads pathParseName now
              nameClock rnd req st Hname Hsegs Hsrc)
    as [(now2 & now4 & Hresp & Hinv & Htok)
       |[(k & cmd & d2 & Hk & Hresp & Hinv & Hfin)
        |[(now2 & d2 & d4 & Hresp & Hinv & Hfin)
         |(now2 & d2 & d3 & Hwrite & Hresp & Hinv & Hfin)]]];
    fold r in Hresp, Hinv; fold cuts in Hinv.
  - (* every invocation resolved, the list file was written *)
    fold r in Htok.
    assert (∃ token listFile outputPath,
              invocations r
                = resolved cuts ++ [(ConcatCmd listFile outputPath, true)]
              ∧ response r = VideoProcessed token
              ∧ is_Some (downloadTokens (finalState r) !! token)) as Hdone.
    { eexists _, _, _. repeat split; [exact Hinv | exact Hresp |].
      rewrite Htok, lookup_insert_eq. by eexists. }
    split; [by right|]. split; [done|]. split; [|split].
    + intros token _. by eexists _, _.
    + intros Hno. by destruct (Hno _ Hresp).
    + intros i lf out ok Hi. rewrite Hinv in Hi |- *. by apply Hfull in Hi.
  - (* a cut failed *)
    fold cuts in Hk. fold r in Hfin.
    assert (¬ Forall (λ inv : Invocation, inv.2 = true) (invocations r))
      as Hnot.
    { intros Hall. rewrite Hinv in Hall.
      apply Forall_app in Hall as [_ Hall]. by inversion Hall. }
    split; [by intros ?%Hnot|]. split; [by intros _ ?%Hnot|].
    split; [|split].
    + intros token Ht. congruence.
    + intros _. rewrite Hfin. apply trackTempFiles_rest.
    + intros i lf out ok Hi. rewrite Hinv in Hi.
      apply concat_is_last in Hi as [_ [= Hcmd _]].
      apply cutCommands_lookup in Hk as (? & ? & _ & ?). congruence.
  - (* the concatenation failed *)
    fold r in Hfin.
    assert (¬ Forall (λ inv : Invocation, inv.2 = true) (invocations r))
      as Hnot.
    { intros Hall. rewrite Hinv in Hall.
      apply Forall_app in Hall as [_ Hall]. by inversion Hall. }
    split; [by intros ?%Hnot|]. split; [by intros _ ?%Hnot|].
    split; [|split].
    + intros token Ht. congruence.
    + intros _. rewrite Hfin. cbn [withDisk downloadTokens].
      rewrite (proj1 (trackFile_rest _ _ _ _ _)). cbn [withDisk downloadTokens].
      apply trackTempFiles_rest.
    + intros i lf out ok Hi. rewrite Hinv in Hi |- *. by apply Hfull in Hi.
  - (* the write of the list file threw *)
    fold r in Hfin. split; [|split; [|split; [|split]]].
    + intros _. left. by eexists _, _, _.
    + intros Hnever. by rewrite Hnever in Hwrite.
    + intros token Ht. congruence.
    + intros _. rewrite Hfin. apply trackTempFiles_rest.
    + intros i lf out ok Hi. rewrite Hinv in Hi.
      apply resolved_lookup in Hi as [Hi _].
      by apply cutCommands_lookup in Hi as (? & ? & _ & ?).
Qed.

Lemma pipeline_cuts_then_concat_then_token_witness :
  let r :=
    processRequest execOk writeOk joinPlain nameOfClip 0 clock0 7
      twoSegments uploaded in
  let cuts :=
    cutCommands (joinPlain (reqFilename twoSegments))
      (zip (reqSegments twoSegments)
         (tempFilesFor clock0 (reqSegments twoSegments))) in
  ∃ token listFile outputPath,
    invocations r = resolved cuts ++ [(ConcatCmd listFile outputPath, true)]
    ∧ response r = VideoProcessed token
    ∧ is_Some (downloadTokens (finalState r) !! token).
Proof.
  intros r cuts.
  destruct (pipeline_cuts_then_concat_then_token execOk writeOk joinPlain
              nameOfClip 0 clock0 7 twoSegments uploaded)
    as (_ & _ & Hrun & _).
  - discriminate.
  - discriminate.
  - apply (bool_decide_unpack _). vm_compute. exact I.
  - apply Hrun; [done|]. vm_compute. repeat constructor.
Defined.

(** The run of the two segments [{0,2},{5,7}] with an encoder that does not
    fail: two cuts, one concatenation, then the token. *)
Example two_segments_run :
  let r :=
    processRequest execOk writeOk joinPlain nameOfClip 0 clock0 7
      twoSegments uploaded in
  response r = VideoProcessed "dl-3000-7"
  ∧ invocations r =
      [ (CutCmd (uploadsDir, "0-1.mp4"%string) (seg 0 200)
           (tempDir, "temp-0-0.mp4"%string), true);
        (CutCmd (uploadsDir, "0-1.mp4"%string) (seg 500 700)
           (tempDir, "temp-1-0.mp4"%string), true);
        (ConcatCmd (tempDir, "list-2000.txt"%string)
           (outputDir, "processed-0.mp4"%string), true) ]
  ∧ downloadTokens (finalState r) !! "dl-3000-7"
    = Some {| filename := "processed-0.mp4"; created := 3000;
              tokenOriginalName := "clip" |}.
Proof. vm_compute. repeat split; reflexivity. Qed.

(** *** A failing invocation *)




(** The encoder fails on the second of three segments: the third cut and
    the concatenation are never started, the answer is the processing
    error, and the three intermediates registered at the start are still
    tracked. *)
Example second_of_three_fails :
  let r :=
    processRequest (execFailingAt 500) writeOk joinPlain nameOfClip 0 clock0 7
      threeSegments uploaded in
  response r = ProcessingFailed500
  ∧ invocations r =
      [ (CutCmd (uploadsDir, "0-1.mp4"%string) (seg 0 200)
           (tempDir, "temp-0-0.mp4"%string), true);
        (CutCmd (uploadsDir, "0-1.mp4"%string) (seg 500 700)
           (tempDir, "temp-1-0.mp4"%string), false) ]
  ∧ downloadTokens (finalState r) = ∅
  ∧ temp (fileTracker (finalState r)) !! "temp-0-0.mp4"
    = Some (freshEntry 0 "client-0-1")
  ∧ temp (fileTracker (finalState r)) !! "temp-1-0.mp4"
    = Some (freshEntry 0 "client-0-1")
  ∧ temp (fileTracker (finalState r)) !! "temp-2-0.mp4"
    = Some (freshEntry 0 "client-0-1").
Proof. vm_compute. repeat split; reflexivity. Qed.


End ServerFacts.

(* ===================================================================== *)
(** * More on the timeline editor *)
(* ===================================================================== *)

Module TimelineMore.

Import Timeline TimelineFacts.
Local Open Scope Z_scope.

(** ** What [checkOverlap] decides *)

Lemma checkOverlap_sym (a b : Segment) : checkOverlap a b = checkOverlap b a.
Proof.
  destruct (checkOverlap b a) eqn:Hba.
  - apply checkOverlap_true in Hba. apply checkOverlap_true. lia.
  - apply checkOverlap_false in Hba. apply checkOverlap_false. lia.
Qed.

(** X1. [checkOverlap] is symmetric, and on two well-formed segments it
    answers true exactly when they share an instant, end points included:
    two segments that only touch overlap. *)
Theorem checkOverlap_shared_instant (a b : Segment) :
  wellFormed a → wellFormed b →
  checkOverlap a b = checkOverlap b a
  ∧ (checkOverlap a b = true ↔ ∃ t : Z, contains a t ∧ contains b t).
Proof.
  unfold wellFormed, contains. intros Ha Hb.
  split; [apply checkOverlap_sym|]. rewrite checkOverlap_true. split.
  - intros [H1 H2]. exists (Z.max (start a) (start b)). lia.
  - intros (t & H1 & H2). lia.
Qed.

Lemma checkOverlap_shared_instant_witness :
  checkOverlap (mkSegment 200 500 "#0077BE") (mkSegment 500 800 "#00A8E8")
    = checkOverlap (mkSegment 500 800 "#00A8E8") (mkSegment 200 500 "#0077BE")
  ∧ (checkOverlap (mkSegment 200 500 "#0077BE") (mkSegment 500 800 "#00A8E8")
       = true
     ↔ ∃ t : Z, contains (mkSegment 200 500 "#0077BE") t
                ∧ contains (mkSegment 500 800 "#00A8E8") t).
Proof.
  apply (checkOverlap_shared_instant (mkSegment 200 500 "#0077BE")
           (mkSegment 500 800 "#00A8E8")).
  - unfold wellFormed. simpl. lia.
  - unfold wellFormed. simpl. lia.
Defined.

(** ** Nothing selected is lost, nothing is added *)

Lemma contains_mergeSegments (m s : Segment) (t : Z) :
  wellFormed m → wellFormed s → checkOverlap m s = true →
  contains (mergeSegments m s) t ↔ contains m t ∨ contains s t.
Proof.
  unfold wellFormed, contains. rewrite checkOverlap_true. simpl. lia.
Qed.

Lemma covered_cons (s : Segment) (l : list Segment) (t : Z) :
  covered (s :: l) t ↔ contains s t ∨ covered l t.
Proof.
  unfold covered. split.
  - intros (x & Hx & Ht). apply elem_of_cons in Hx as [->|Hx]; eauto.
  - intros [Ht|(x & Hx & Ht)].
    + exists s. split; [apply elem_of_cons; by left | done].
    + exists x. split; [apply elem_of_cons; by right | done].
Qed.

Lemma covered_nil (t : Z) : ¬ covered [] t.
Proof. intros (x & Hx & _). by apply elem_of_nil in Hx. Qed.

Lemma covered_app (l k : list Segment) (t : Z) :
  covered (l ++ k) t ↔ covered l t ∨ covered k t.
Proof.
  unfold covered. split.
  - intros (x & Hx & Ht). apply elem_of_app in Hx as [Hx|Hx]; eauto.
  - intros [(x & Hx & Ht)|(x & Hx & Ht)]; exists x;
      (split; [apply elem_of_app; auto | done]).
Qed.

(** The loop neither loses nor adds an instant. *)
Lemma mergeLoop_covered (l : list Segment) :
  ∀ (m : Segment) (h : bool) (t : Z),
    wellFormed m → Forall wellFormed l →
    contains (mergeLoop m h l).1.1 t ∨ covered (mergeLoop m h l).2 t
    ↔ contains m t ∨ covered l t.
Proof.
  induction l as [|s l IH]; intros m h t Hm Hl; [done|].
  inversion Hl as [|? ? Hs Hl']; subst. simpl.
  destruct (checkOverlap m s) eqn:Hov.
  - rewrite IH by auto using wellFormed_mergeSegments.
    rewrite contains_mergeSegments, covered_cons by done. tauto.
  - specialize (IH m h t Hm Hl').
    destruct (mergeLoop m h l) as [[m' h'] kept]. simpl in *.
    rewrite !covered_cons. tauto.
Qed.

(** When the loop reports no overlap the merged segment is the one it was
    given. *)
Lemma mergeLoop_flag (l : list Segment) (m : Segment) (h : bool) :
  (mergeLoop m h l).1.2 = false → (mergeLoop m h l).1.1 = m.
Proof.
  revert m h. induction l as [|s l IH]; intros m h; [done|]. simpl.
  destruct (checkOverlap m s).
  - by rewrite mergeLoop_true_flag.
  - specialize (IH m h). by destruct (mergeLoop m h l) as [[m' h'] kept].
Qed.

Lemma elem_of_insertByStart (x y : Segment) (l : list Segment) :
  y ∈ insertByStart x l ↔ y = x ∨ y ∈ l.
Proof.
  induction l as [|z l IH]; simpl.
  - rewrite list_elem_of_singleton, elem_of_nil. tauto.
  - destruct (start x <=? start z).
    + by rewrite elem_of_cons.
    + rewrite !elem_of_cons, IH. tauto.
Qed.

Lemma elem_of_sortByStart (y : Segment) (l : list Segment) :
  y ∈ sortByStart l ↔ y ∈ l.
Proof.
  induction l as [|x l IH]; simpl; [done|].
  by rewrite elem_of_insertByStart, elem_of_cons, IH.
Qed.

Lemma covered_sortByStart (l : list Segment) (t : Z) :
  covered (sortByStart l) t ↔ covered l t.
Proof. unfold covered. by setoid_rewrite elem_of_sortByStart. Qed.

(** The list [endSelection] commits, in terms of the loop. *)
Lemma commitSelection_unfold (segs : list Segment) (a b : Q) :
  commitSelection segs a b =
    sortByStart ((mergeLoop (proposedSegment segs a b) false segs).2
                 ++ [(mergeLoop (proposedSegment segs a b) false segs).1.1]).
Proof.
  unfold commitSelection. fold (proposedSegment segs a b).
  pose proof (mergeLoop_flag segs (proposedSegment segs a b) false) as Hflag.
  destruct (mergeLoop (proposedSegment segs a b) false segs) as [[m h] kept].
  simpl in *. destruct h; [done|]. by rewrite Hflag.
Qed.

(** X2. Committing a selection neither loses nor adds an instant: on
    well-formed segments, an instant is covered by the set [endSelection]
    commits exactly when it was covered before or lies in the proposed
    segment. *)
Theorem commitSelection_covered (segs : list Segment) (a b : Q) (t : Z) :
  Forall wellFormed segs →
  covered (commitSelection segs a b) t
  ↔ covered segs t ∨ contains (proposedSegment segs a b) t.
Proof.
  intros Hwf. rewrite commitSelection_unfold, covered_sortByStart, covered_app.
  pose proof (mergeLoop_covered segs (proposedSegment segs a b) false t
                (newSegment_wellFormed a b _) Hwf) as Hloop.
  rewrite covered_cons. pose proof (covered_nil t). tauto.
Qed.

Lemma commitSelection_covered_witness :
  covered (commitSelection [mkSegment 200 500 "#0077BE"] 4 8) 650
  ↔ covered [mkSegment 200 500 "#0077BE"] 650
    ∨ contains (proposedSegment [mkSegment 200 500 "#0077BE"] 4 8) 650.
Proof.
  apply (commitSelection_covered [mkSegment 200 500 "#0077BE"] 4 8 650).
  constructor; [unfold wellFormed; simpl; lia | constructor].
Defined.

(** ** How many segments a selection leaves *)

Lemma insertByStart_perm (x : Segment) (l : list Segment) :
  insertByStart x l ≡ₚ x :: l.
Proof.
  induction l as [|y l IH]; simpl; [done|].
  destruct (start x <=? start y); [done|].
  rewrite IH. apply Permutation_swap.
Qed.

Lemma sortByStart_perm (l : list Segment) : sortByStart l ≡ₚ l.
Proof.
  induction l as [|x l IH]; simpl; [done|].
  by rewrite insertByStart_perm, IH.
Qed.

(** Without an overlap the loop keeps every segment. *)
Lemma mergeLoop_no_overlap (l : list Segment) (m : Segment) (h : bool) :
  Forall (λ s, checkOverlap m s = false) l → mergeLoop m h l = (m, h, l).
Proof.
  induction 1 as [|s l Hs Hl IH]; simpl; [done|]. by rewrite Hs, IH.
Qed.

(** The loop never keeps more than it was given, and keeps less when the
    proposal overlaps something. *)
Lemma mergeLoop_length (l : list Segment) (m : Segment) (h : bool) :
  (length (mergeLoop m h l).2 ≤ length l)%nat
  ∧ (Exists (λ s, checkOverlap m s = true) l →
     (length (mergeLoop m h l).2 < length l)%nat).
Proof.
  revert m h. induction l as [|s l IH]; intros m h; simpl.
  { split; [lia|]. intros Hex. by apply Exists_nil in Hex. }
  destruct (checkOverlap m s) eqn:Hov.
  - destruct (IH (mergeSegments m s) true) as [Hle _]. split; [lia|]. lia.
  - destruct (IH m h) as [Hle Hlt].
    destruct (mergeLoop m h l) as [[m' h'] kept]. simpl in *.
    split; [lia|]. intros Hex. apply Exists_cons in Hex as [Hex|Hex].
    + congruence.
    + specialize (Hlt Hex). lia.
Qed.

(** X3. A selection adds at most one segment. If the proposed segment
    overlaps none of the committed ones, the committed set afterwards is
    the old one plus the proposed segment, every old segment unchanged; if
    it overlaps one, the set does not grow. *)
Theorem commitSelection_size (segs : list Segment) (a b : Q) :
  (length (commitSelection segs a b) ≤ S (length segs))%nat
  ∧ (Forall (λ s, checkOverlap (proposedSegment segs a b) s = false) segs →
     commitSelection segs a b ≡ₚ proposedSegment segs a b :: segs)
  ∧ (Exists (λ s, checkOverlap (proposedSegment segs a b) s = true) segs →
     (length (commitSelection segs a b) ≤ length segs)%nat).
Proof.
  rewrite commitSelection_unfold.
  destruct (mergeLoop_length segs (proposedSegment segs a b) false) as [Hle Hlt].
  split; [|split].
  - rewrite sortByStart_perm, length_app. simpl. lia.
  - intros Hno. rewrite (mergeLoop_no_overlap _ _ _ Hno). simpl.
    rewrite sortByStart_perm. by rewrite Permutation_app_comm.
  - intros Hex. specialize (Hlt Hex).
    rewrite sortByStart_perm, length_app. simpl. lia.
Qed.

(** ** Adding a segment and removing it again *)

Lemma insertByStart_least (x : Segment) (l : list Segment) :
  Forall (startLe x) l → insertByStart x l = x :: l.
Proof.
  destruct 1 as [|y l Hy Hl]; simpl; [done|].
  by rewrite (proj2 (Z.leb_le _ _) Hy).
Qed.

(** Sorting a sorted list with one more segment at its end puts that
    segment somewhere and moves nothing else. *)
Lemma sortByStart_snoc (l : list Segment) (x : Segment) :
  ForallOrdPairs startLe l →
  ∃ k : nat, (k ≤ length l)%nat
             ∧ sortByStart (l ++ [x]) = take k l ++ x :: drop k l.
Proof.
  induction 1 as [|y l Hy Hl IH].
  { exists 0%nat. by split. }
  destruct IH as (k & Hk & IH).
  change (sortByStart ((y :: l) ++ [x]))
    with (insertByStart y (sortByStart (l ++ [x]))).
  rewrite IH. destruct k as [|k].
  - rewrite take_0, drop_0. simpl. destruct (start y <=? start x).
    + exists 1%nat. split; [simpl; lia | done].
    + exists 0%nat. split; [lia|]. simpl. by rewrite insertByStart_least.
  - destruct l as [|z l]; simpl in Hk; [lia|].
    inversion Hy as [|? ? Hyz _]; subst.
    exists (S (S k)). split; [simpl; lia|]. simpl.
    by rewrite (proj2 (Z.leb_le _ _) Hyz).
Qed.

(** X4. On a committed set that is sorted by start, a selection that
    overlaps none of the committed segments sits at some index of the new
    set, and [removeSegment] at that index gives back the set as it was. *)
Theorem removeSegment_undoes_selection (st : State) (segs : list Segment)
    (a b : Q) :
  ForallOrdPairs startLe segs →
  Forall (λ s, checkOverlap (proposedSegment segs a b) s = false) segs →
  segments st = commitSelection segs a b →
  ∃ index : nat,
    segments st !! index = Some (proposedSegment segs a b)
    ∧ segments (removeSegment index st) = segs.
Proof.
  intros Hsorted Hno Hst.
  destruct (sortByStart_snoc segs (proposedSegment segs a b) Hsorted)
    as (k & Hk & Hsort).
  exists k. unfold removeSegment. cbn [segments].
  rewrite Hst, commitSelection_unfold, (mergeLoop_no_overlap _ _ _ Hno).
  cbn [fst snd]. rewrite Hsort.
  assert (length (take k segs) = k) as Hlen by (rewrite length_take; lia).
  split.
  - rewrite <- Hlen at 1. by rewrite list_lookup_middle.
  - rewrite <- delete_take_drop. rewrite <- Hlen at 1.
    rewrite delete_middle. apply take_drop.
Qed.

Lemma removeSegment_undoes_selection_witness :
  ∃ index : nat,
    segments (mkState (commitSelection [mkSegment 100 200 "#0077BE";
                                        mkSegment 900 1000 "#00A8E8"] 5 6)
                false 0 0 0) !! index
      = Some (proposedSegment [mkSegment 100 200 "#0077BE";
                               mkSegment 900 1000 "#00A8E8"] 5 6)
    ∧ segments
        (removeSegment index
           (mkState (commitSelection [mkSegment 100 200 "#0077BE";
                                      mkSegment 900 1000 "#00A8E8"] 5 6)
              false 0 0 0))
      = [mkSegment 100 200 "#0077BE"; mkSegment 900 1000 "#00A8E8"].
Proof.
  apply (removeSegment_undoes_selection _
           [mkSegment 100 200 "#0077BE"; mkSegment 900 1000 "#00A8E8"] 5 6).
  - repeat constructor; unfold startLe; simpl; lia.
  - repeat constructor.
  - reflexivity.
Defined.

(** ** Order and rounding of the committed segments *)

(** X5. Whatever the user does to the timeline, the committed segments are
    in strict order with a gap between neighbours: each starts no later
    than it ends, and ends before every later one starts. *)
Theorem run_strictly_ordered (es : list Event) (i j : nat) (a b : Segment) :
  (i < j)%nat →
  segments (run initialState es) !! i = Some a →
  segments (run initialState es) !! j = Some b →
  start a <= end_ a ∧ end_ a < start b ∧ start b <= end_ b.
Proof.
  intros Hij Hi Hj.
  destruct (run_committed es initialState committed_nil) as (Hwf & Hdis & Hs).
  rewrite Forall_forall in Hwf.
  pose proof (Hwf a (list_elem_of_lookup_2 _ _ _ Hi)) as Ha.
  pose proof (Hwf b (list_elem_of_lookup_2 _ _ _ Hj)) as Hb.
  pose proof (ForallOrdPairs_lookup _ _ Hdis i j a b Hij Hi Hj) as Hab.
  pose proof (ForallOrdPairs_lookup _ _ Hs i j a b Hij Hi Hj) as Hle.
  apply checkOverlap_false in Hab.
  unfold wellFormed, startLe in *. lia.
Qed.

Lemma run_strictly_ordered_witness :
  start (mkSegment 100 200 "#00A8E8") <= end_ (mkSegment 100 200 "#00A8E8")
  ∧ end_ (mkSegment 100 200 "#00A8E8") < start (mkSegment 500 600 "#0077BE")
  ∧ start (mkSegment 500 600 "#0077BE") <= end_ (mkSegment 500 600 "#0077BE").
Proof.
  apply (run_strictly_ordered
           [TimeUpdate 5; StartSelection; TimeUpdate 6; EndSelection;
            TimeUpdate 1; StartSelection; TimeUpdate 2; EndSelection]
           0 1).
  - lia.
  - vm_compute. reflexivity.
  - vm_compute. reflexivity.
Defined.

Lemma toFixed2_half (x : Q) :
  (100 * x - (1 # 2) <= inject_Z (toFixed2 x))%Q
  ∧ (inject_Z (toFixed2 x) <= 100 * x + (1 # 2))%Q.
Proof.
  unfold toFixed2. destruct (Qle_bool 0 x).
  - pose proof (Qfloor_le (x * 100 + (1 # 2))) as H1.
    pose proof (Qlt_floor (x * 100 + (1 # 2))) as H2.
    rewrite inject_Z_plus in H2. change (inject_Z 1) with 1%Q in H2.
    split; lra.
  - pose proof (Qfloor_le (- x * 100 + (1 # 2))) as H1.
    pose proof (Qlt_floor (- x * 100 + (1 # 2))) as H2.
    rewrite inject_Z_plus in H2. change (inject_Z 1) with 1%Q in H2.
    rewrite inject_Z_opp. split; lra.
Qed.

(** X6. The end points of a proposed segment are the selected instants
    rounded to the nearest hundredth of a second: counted in hundredths,
    its start is within one half of the instant at which the selection
    started and its end within one half of the instant at which it ended. *)
Theorem proposedSegment_rounding (segs : list Segment) (a b : Q) :
  (a < b)%Q →
  (100 * a - (1 # 2) <= inject_Z (start (proposedSegment segs a b))
   ∧ inject_Z (start (proposedSegment segs a b)) <= 100 * a + (1 # 2))%Q
  ∧ (100 * b - (1 # 2) <= inject_Z (end_ (proposedSegment segs a b))
     ∧ inject_Z (end_ (proposedSegment segs a b)) <= 100 * b + (1 # 2))%Q.
Proof.
  intros Hab. cbn [proposedSegment start end_].
  pose proof (toFixed2_half (Qmin a b)) as Hmin.
  pose proof (toFixed2_half (Qmax a b)) as Hmax.
  set (n := toFixed2 (Qmin a b)) in *. set (m := toFixed2 (Qmax a b)) in *.
  clearbody n m.
  rewrite (Q.min_l a b) in Hmin by (by apply Qlt_le_weak).
  rewrite (Q.max_r a b) in Hmax by (by apply Qlt_le_weak).
  done.
Qed.

Lemma proposedSegment_rounding_witness :
  (100 * (1001 # 1000) - (1 # 2)
     <= inject_Z (start (proposedSegment [] (1001 # 1000) (2006 # 1000)))
   ∧ inject_Z (start (proposedSegment [] (1001 # 1000) (2006 # 1000)))
     <= 100 * (1001 # 1000) + (1 # 2))%Q
  ∧ (100 * (2006 # 1000) - (1 # 2)
       <= inject_Z (end_ (proposedSegment [] (1001 # 1000) (2006 # 1000)))
     ∧ inject_Z (end_ (proposedSegment [] (1001 # 1000) (2006 # 1000)))
       <= 100 * (2006 # 1000) + (1 # 2))%Q.
Proof.
  apply (proposedSegment_rounding [] (1001 # 1000) (2006 # 1000)).
  reflexivity.
Defined.

End TimelineMore.

(* ===================================================================== *)
(** * More on the server *)
(* ===================================================================== *)

Module ServerMore.

Import Server Scenario ServerFacts.
Local Open Scope Z_scope.

(** ** A sweep or a cleanup leaves a file alone or deletes it whole *)

Section Dichotomy.

Variables (type : FileType) (name : string) (st0 : State).

(** Where the file can be after some calls of [deleteFile] from [st0]. *)
Let reached (ft : FileTracker) (disk : Disk) : Prop :=
  unlinkFails disk = unlinkFails (fs st0)
  ∧ (((trackerOf type ft !! name)
        = (trackerOf type (fileTracker st0) !! name)
      ∧ ((dirOf type, name) ∈ present disk
         ↔ (dirOf type, name) ∈ present (fs st0)))
     ∨ ((dirOf type, name) ∈ present (fs st0)
        ∧ dataInUse (trackerOf type (fileTracker st0) !! name) = false
        ∧ ((dirOf type, name) ∉ unlinkFails (fs st0))
        ∧ gone type name ft disk)).

Lemma deleteFile_reached (name' : string) (type' : FileType) (st : State) :
  reached (fileTracker st) (fs st) →
  reached (fileTracker (deleteFile name' type' st).2)
    (fs (deleteFile name' type' st).2).
Proof.
  intros [Hu Hst]. split; [by rewrite deleteFile_unlinkFails|].
  destruct Hst as [[Hl Hp]|(Hp0 & Hd0 & Hu0 & Hg)].
  - destruct (decide (type' = type ∧ name' = name)) as [[-> ->]|Hne].
    + destruct (deleteFile_cases name type st)
        as [(Heq & Hd & Hin & Hnf)|(Heq & _)].
      * right. split; [by apply Hp|]. split; [by rewrite <- Hl|].
        split; [by rewrite <- Hu|].
        apply (deleteFile_live_gone type name
                 (trackerOf type (fileTracker st) !! name)); by repeat split.
      * left. by rewrite Heq.
    + left. rewrite deleteFile_lookup, deleteFile_present.
      rewrite bool_decide_eq_false_2 by done. cbn [andb]. split; [done|].
      rewrite <- Hp. split; [by intros [? _]|]. intros Hin. split; [done|].
      intros [Heq _]. apply Hne. injection Heq as Hdir ->.
      by apply dirOf_inj in Hdir as ->.
  - right. repeat split; try done; by apply deleteFile_gone.
Qed.

Lemma reached_start : reached (fileTracker st0) (fs st0).
Proof. split; [done|]. by left. Qed.

Lemma reached_dichotomy (st' : State) :
  reached (fileTracker st') (fs st') →
  unlinkFails (fs st') = unlinkFails (fs st0)
  ∧ (untouched type name st0 st' ∨ deleted type name st0 st').
Proof. intros [Hu [H|H]]; (split; [done|]); [by left | by right]. Qed.

Lemma scheduledCleanup_dichotomy (now : Z) :
  unlinkFails (fs (scheduledCleanup now st0)) = unlinkFails (fs st0)
  ∧ (untouched type name st0 (scheduledCleanup now st0)
     ∨ deleted type name st0 (scheduledCleanup now st0)).
Proof.
  apply reached_dichotomy, (scheduledCleanup_keeps _ deleteFile_reached),
    reached_start.
Qed.

Lemma cleanupClientFiles_dichotomy (cid : string) :
  unlinkFails (fs (cleanupClientFiles cid st0)) = unlinkFails (fs st0)
  ∧ (untouched type name st0 (cleanupClientFiles cid st0)
     ∨ deleted type name st0 (cleanupClientFiles cid st0)).
Proof.
  apply reached_dichotomy, (cleanupClientFiles_keeps _ deleteFile_reached),
    reached_start.
Qed.

End Dichotomy.

(** X7. A collector run and a session cleanup only ever delete whole files:
    afterwards every file either has the tracking entry it had and is on
    disk exactly if it was, or it was on disk, not in use and unlinkable
    and is now neither on disk nor tracked. No entry is altered, no file
    leaves the disk while its entry stays, and nothing is added. *)
Theorem collector_deletes_whole_files (now : Z) (cid : string)
    (type : FileType) (name : string) (st : State) :
  (untouched type name st (scheduledCleanup now st)
   ∨ deleted type name st (scheduledCleanup now st))
  ∧ (untouched type name st (cleanupClientFiles cid st)
     ∨ deleted type name st (cleanupClientFiles cid st)).
Proof.
  split.
  - apply scheduledCleanup_dichotomy.
  - apply cleanupClientFiles_dichotomy.
Qed.

(** ** Which sessions and tokens a collector run keeps *)

Lemma foldl_fixed {A B} (f : A → B → A) (a : A) (l : list B) :
  (∀ b, b ∈ l → f a b = a) → foldl f a l = a.
Proof.
  induction l as [|b l IH]; intros Hf; [done|]. simpl.
  rewrite Hf by (apply elem_of_cons; by left).
  apply IH. intros b' Hb'. apply Hf, elem_of_cons. by right.
Qed.

Lemma sweepClientList_kept (now : Z) (cid : string)
    (l : list (string * Client)) (st : State) :
  (∀ c, (cid, c) ∈ l → ¬ inactive now c) →
  clients (foldl (sweepClient now) st l) !! cid = clients st !! cid.
Proof.
  revert st. induction l as [|e l IH]; intros st Hl; [done|]. simpl.
  rewrite IH by (intros c Hc; apply Hl, elem_of_cons; by right).
  rewrite sweepClient_clients.
  destruct (now - lastActivity e.2 >? heartbeatTimeout) eqn:Hstale; [|done].
  apply lookup_delete_ne. intros Heq. destruct e as [k c]. simpl in *.
  subst k. apply (Hl c); [apply elem_of_cons; by left|].
  unfold inactive. lia.
Qed.

Lemma sweepClients_lookup (now : Z) (cid : string) (st : State) :
  clients (sweepClients now st) !! cid
    = filter (λ e : string * Client, ¬ inactive now e.2) (clients st) !! cid.
Proof.
  destruct (clients st !! cid) as [c|] eqn:Hc.
  - destruct (decide (inactive now c)) as [Hin|Hact].
    + rewrite (sweepClients_removes now cid c Hin st Hc). symmetry.
      apply map_lookup_filter_None. right. intros c' Hc' Hact.
      rewrite Hc in Hc'. injection Hc' as <-. by apply Hact.
    + unfold sweepClients. rewrite sweepClientList_kept.
      * rewrite Hc. symmetry. by apply map_lookup_filter_Some.
      * intros c' Hc'. apply elem_of_map_to_list in Hc'. congruence.
  - unfold sweepClients. rewrite sweepClientList_absent by done. symmetry.
    apply map_lookup_filter_None. by left.
Qed.

Lemma scheduledCleanup_clients_eq (now : Z) (st : State) :
  clients (scheduledCleanup now st)
    = filter (λ e : string * Client, ¬ inactive now e.2) (clients st).
Proof.
  apply map_eq. intros cid. unfold scheduledCleanup, sweepTokens.
  destruct (sweepTokenList_files now
              (map_to_list (downloadTokens (sweepClients now (sweepFiles now st))))
              (sweepClients now (sweepFiles now st))) as (_ & _ & ->).
  rewrite sweepClients_lookup.
  by destruct (sweepFiles_rest now st) as [-> _].
Qed.

(** X8. After a collector run the session map holds exactly the sessions
    it held before whose last activity is no older than the heartbeat
    timeout, each with the record it had: a session that is not inactive
    loses neither its place nor an entry of its file list. *)
Theorem scheduledCleanup_clients_filter (now : Z) (st : State) :
  clients (scheduledCleanup now st)
    = filter (λ e : string * Client, ¬ inactive now e.2) (clients st).
Proof. apply scheduledCleanup_clients_eq. Qed.

Lemma sweepTokenList_kept (now : Z) (token : string)
    (l : list (string * TokenData)) (st : State) :
  (∀ d, (token, d) ∈ l → ¬ olderThanMaxAge now (created d)) →
  downloadTokens (foldl (sweepToken now) st l) !! token
    = downloadTokens st !! token.
Proof.
  revert st. induction l as [|e l IH]; intros st Hl; [done|]. simpl.
  rewrite IH by (intros d Hd; apply Hl, elem_of_cons; by right).
  rewrite sweepToken_downloadTokens.
  destruct (now - created e.2 >? maxAge) eqn:Hexp; [|done].
  apply lookup_delete_ne. intros Heq. destruct e as [k d]. simpl in *.
  subst k. apply (Hl d); [apply elem_of_cons; by left|].
  unfold olderThanMaxAge. lia.
Qed.

Lemma scheduledCleanup_downloadTokens_eq (now : Z) (st : State) :
  downloadTokens (scheduledCleanup now st)
    = filter (λ e : string * TokenData, ¬ olderThanMaxAge now (created e.2))
        (downloadTokens st).
Proof.
  apply map_eq. intros token.
  assert (downloadTokens (sweepClients now (sweepFiles now st))
          = downloadTokens st) as Hsame.
  { unfold sweepClients. rewrite sweepClientList_downloadTokens.
    by destruct (sweepFiles_rest now st) as [_ ->]. }
  destruct (downloadTokens st !! token) as [d|] eqn:Hd.
  - destruct (decide (olderThanMaxAge now (created d))) as [Hexp|Hfresh].
    + rewrite (scheduledCleanup_downloadTokens now token d st Hd Hexp).
      symmetry. apply map_lookup_filter_None. right. intros d' Hd' Hf.
      rewrite Hd in Hd'. injection Hd' as <-. by apply Hf.
    + unfold scheduledCleanup, sweepTokens. rewrite sweepTokenList_kept.
      * rewrite Hsame, Hd. symmetry. by apply map_lookup_filter_Some.
      * intros d' Hd'. apply elem_of_map_to_list in Hd'.
        rewrite Hsame in Hd'. congruence.
  - unfold scheduledCleanup, sweepTokens.
    rewrite sweepTokenList_absent by (by rewrite Hsame). symmetry.
    apply map_lookup_filter_None. by left.
Qed.

(** X9. After a collector run the token store holds exactly the tokens it
    held before that are no older than the retention window, each with the
    data it had. *)
Theorem scheduledCleanup_downloadTokens_filter (now : Z) (st : State) :
  downloadTokens (scheduledCleanup now st)
    = filter (λ e : string * TokenData, ¬ olderThanMaxAge now (created e.2))
        (downloadTokens st).
Proof. apply scheduledCleanup_downloadTokens_eq. Qed.

(** ** Running the collector twice *)

Lemma swept_sweepFiles (now : Z) (st : State) :
  swept now (fileTracker st) (fs st) → sweepFiles now st = st.
Proof.
  intros Hswept.
  assert (∀ type, sweepTracker now st type = st) as Hfix.
  { intros type. apply foldl_fixed. intros [name d] He.
    apply elem_of_map_to_list in He. unfold sweepEntry. simpl.
    destruct (negb (inUse d) && (now - timestamp d >? maxAge)) eqn:Hdue;
      [|done].
    apply andb_true_iff in Hdue as [Hd Hage].
    apply negb_true_iff in Hd. apply Z.gtb_lt in Hage.
    destruct (deleteFile_cases name type st)
      as [(_ & _ & Hin & Hnf)|(-> & _)]; [|done].
    destruct (Hswept type name d He Hd) as [?|?]; [lia|done..]. }
  unfold sweepFiles. simpl. by rewrite !Hfix.
Qed.

Lemma swept_scheduledCleanup (now : Z) (st : State) :
  swept now (fileTracker (scheduledCleanup now st)) (fs (scheduledCleanup now st)).
Proof.
  intros type name d Hd Hfree Hage.
  destruct (scheduledCleanup_dichotomy type name st now)
    as [Hu [[Hl Hp]|(_ & _ & _ & [Hnone _])]]; [|congruence].
  rewrite Hd in Hl. rewrite Hu, Hp.
  destruct (decide ((dirOf type, name) ∈ present (fs st))) as [Hin|?];
    [|by left].
  destruct (decide ((dirOf type, name) ∈ unlinkFails (fs st))) as [?|Hnf];
    [by right|].
  exfalso.
  destruct (scheduledCleanup_gone now type name d Hfree Hage st) as [Hnone _];
    [by repeat split | congruence].
Qed.

Lemma active_sweepClients (now : Z) (st : State) :
  (∀ cid c, clients st !! cid = Some c → ¬ inactive now c) →
  sweepClients now st = st.
Proof.
  intros Hact. apply foldl_fixed. intros [cid c] He.
  apply elem_of_map_to_list in He. unfold sweepClient. simpl.
  destruct (now - lastActivity c >? heartbeatTimeout) eqn:Hstale; [|done].
  destruct (Hact cid c He). unfold inactive. lia.
Qed.

Lemma fresh_sweepTokens (now : Z) (st : State) :
  (∀ token d, downloadTokens st !! token = Some d →
              ¬ olderThanMaxAge now (created d)) →
  sweepTokens now st = st.
Proof.
  intros Hfresh. apply foldl_fixed. intros [token d] He.
  apply elem_of_map_to_list in He. unfold sweepToken. simpl.
  destruct (now - created d >? maxAge) eqn:Hexp; [|done].
  destruct (Hfresh token d He). unfold olderThanMaxAge. lia.
Qed.

(** X10. The collector is idempotent: a second run at the same time changes
    nothing. What the first run leaves holds no file it could delete, no
    inactive session and no expired token. *)
Theorem scheduledCleanup_idempotent (now : Z) (st : State) :
  scheduledCleanup now (scheduledCleanup now st) = scheduledCleanup now st.
Proof.
  set (st' := scheduledCleanup now st).
  unfold scheduledCleanup at 1.
  rewrite (swept_sweepFiles now st') by apply swept_scheduledCleanup.
  rewrite (active_sweepClients now st').
  - apply fresh_sweepTokens. intros token d Hd. subst st'.
    rewrite scheduledCleanup_downloadTokens_eq in Hd.
    by apply map_lookup_filter_Some in Hd as [_ ?].
  - intros cid c Hc. subst st'.
    rewrite scheduledCleanup_clients_eq in Hc.
    by apply map_lookup_filter_Some in Hc as [_ ?].
Qed.

(** ** Files the collector and a cleanup leave alone *)

Section LeftAlone.

Variables (type : FileType) (name : string) (st0 : State).

Lemma untouched_refl : untouched type name st0 st0.
Proof. by split. Qed.

Lemma deleteFile_untouched (name' : string) (type' : FileType) (st : State) :
  ¬ (type' = type ∧ name' = name) →
  untouched type name st0 st →
  untouched type name st0 (deleteFile name' type' st).2.
Proof.
  intros Hne [Hl Hp]. unfold untouched.
  rewrite deleteFile_lookup, deleteFile_present.
  rewrite bool_decide_eq_false_2 by done. cbn [andb]. split; [done|].
  rewrite <- Hp. split; [by intros [? _]|]. intros Hin. split; [done|].
  intros [Heq _]. apply Hne. injection Heq as Hdir ->.
  by apply dirOf_inj in Hdir as ->.
Qed.

Lemma deleteFiles_untouched (l : list (string * FileType)) (st : State) :
  (name, type) ∉ l →
  untouched type name st0 st →
  untouched type name st0 (deleteFiles l st).
Proof.
  revert st. induction l as [|[n t] l IH]; intros st Hnot Hst; [done|].
  change (deleteFiles ((n, t) :: l) st) with (deleteFiles l (deleteFile n t st).2).
  apply not_elem_of_cons in Hnot as [Hne Hnot].
  apply IH; [done|]. apply deleteFile_untouched; [|done].
  intros [-> ->]. by apply Hne.
Qed.

Lemma cleanupClientFiles_untouched (cid : string) (st : State) :
  (∀ c, clients st !! cid = Some c → (name, type) ∉ files c) →
  untouched type name st0 st →
  untouched type name st0 (cleanupClientFiles cid st).
Proof.
  intros Hnot Hst. unfold cleanupClientFiles.
  destruct (clients st !! cid) as [c|] eqn:Hc; [|done].
  unfold untouched. cbn [fileTracker fs].
  by apply deleteFiles_untouched; [apply Hnot|].
Qed.

Variables (now : Z) (d : FileData).
Hypothesis tracked : trackerOf type (fileTracker st0) !! name = Some d.
Hypothesis young : ¬ olderThanMaxAge now (timestamp d).

Lemma sweepEntries_untouched (type' : FileType)
    (l : list (string * FileData)) (st : State) :
  (type' = type → ∀ d', (name, d') ∈ l → d' = d) →
  untouched type name st0 st →
  untouched type name st0 (foldl (sweepEntry now type') st l).
Proof.
  revert st. induction l as [|[n d'] l IH]; intros st Hl Hst; [done|]. simpl.
  apply IH.
  { intros Ht d'' Hd''. apply (Hl Ht), elem_of_cons. by right. }
  unfold sweepEntry. simpl.
  destruct (negb (inUse d') && (now - timestamp d' >? maxAge)) eqn:Hdue;
    [|done].
  apply deleteFile_untouched; [|done]. intros [Ht ->].
  rewrite (Hl Ht d') in Hdue by (apply elem_of_cons; by left).
  apply andb_true_iff in Hdue as [_ Hage]. apply Z.gtb_lt in Hage.
  apply young. unfold olderThanMaxAge. lia.
Qed.

Lemma sweepTracker_untouched (type' : FileType) (st : State) :
  untouched type name st0 st →
  untouched type name st0 (sweepTracker now st type').
Proof.
  intros Hst. apply sweepEntries_untouched; [|done].
  intros -> d' Hd'. apply elem_of_map_to_list in Hd'.
  destruct Hst as [Hl _]. rewrite Hl, tracked in Hd'. congruence.
Qed.

Lemma sweepFiles_untouched : untouched type name st0 (sweepFiles now st0).
Proof.
  unfold sweepFiles. simpl.
  do 3 apply sweepTracker_untouched. apply untouched_refl.
Qed.

Hypothesis unlisted :
  ∀ cid c, clients st0 !! cid = Some c → inactive now c → (name, type) ∉ files c.

Lemma sweepClientList_untouched (l : list (string * Client)) (st : State) :
  (∀ cid c, (cid, c) ∈ l → clients st0 !! cid = Some c) →
  (∀ cid c, clients st !! cid = Some c → clients st0 !! cid = Some c) →
  untouched type name st0 st →
  untouched type name st0 (foldl (sweepClient now) st l).
Proof.
  revert st. induction l as [|[cid c] l IH]; intros st Hl Hsub Hst; [done|].
  simpl. apply IH.
  - intros cid' c' Hin. apply Hl, elem_of_cons. by right.
  - intros cid' c' Hc'. rewrite sweepClient_clients in Hc'.
    destruct (_ >? _); [apply lookup_delete_Some in Hc' as [_ Hc']|];
      by apply Hsub.
  - unfold sweepClient. simpl.
    destruct (now - lastActivity c >? heartbeatTimeout) eqn:Hstale; [|done].
    apply Z.gtb_lt in Hstale.
    apply cleanupClientFiles_untouched; [|done]. intros c' Hc'.
    apply Hsub in Hc'.
    rewrite (Hl cid c) in Hc' by (apply elem_of_cons; by left).
    injection Hc' as <-. apply (unlisted cid c).
    + apply Hl, elem_of_cons. by left.
    + unfold inactive. lia.
Qed.

Lemma scheduledCleanup_untouched :
  untouched type name st0 (scheduledCleanup now st0).
Proof.
  unfold scheduledCleanup, sweepTokens, untouched.
  destruct (sweepTokenList_files now
              (map_to_list (downloadTokens (sweepClients now (sweepFiles now st0))))
              (sweepClients now (sweepFiles now st0))) as (-> & -> & _).
  assert (clients (sweepFiles now st0) = clients st0) as Hsame
    by (by destruct (sweepFiles_rest now st0) as [-> _]).
  apply sweepClientList_untouched.
  - intros cid c Hin. apply elem_of_map_to_list in Hin. by rewrite <- Hsame.
  - intros cid c Hc. by rewrite <- Hsame.
  - apply sweepFiles_untouched.
Qed.

End LeftAlone.

(** X11. The collector never deletes a file that is younger than the
    retention window and that no inactive session lists: after the run it
    has the tracking entry it had and is on disk exactly if it was. *)
Theorem scheduledCleanup_spares_young_files (now : Z) (type : FileType)
    (name : string) (d : FileData) (st : State) :
  trackerOf type (fileTracker st) !! name = Some d →
  ¬ olderThanMaxAge now (timestamp d) →
  (∀ cid c, clients st !! cid = Some c → inactive now c →
            (name, type) ∉ files c) →
  untouched type name st (scheduledCleanup now st).
Proof. apply scheduledCleanup_untouched. Qed.

Lemma scheduledCleanup_spares_young_files_witness :
  untouched Output resultName resultReady (scheduledCleanup 200000 resultReady).
Proof.
  apply (scheduledCleanup_spares_young_files 200000 Output resultName
           {| timestamp := 5000; clientId := "client-0-1"; inUse := false |}).
  - vm_compute. reflexivity.
  - unfold olderThanMaxAge. vm_compute. discriminate.
  - intros cid c Hc Hin. exfalso. revert Hc Hin. unfold resultReady. simpl.
    intros Hc. apply lookup_singleton_Some in Hc as [_ <-].
    unfold inactive. vm_compute. discriminate.
Defined.

(** X12. A session cleanup touches nothing but the session it is called
    for and the files in that session's list: the session is removed from
    the map, every other session keeps its record, the token store is
    unchanged, and a file that the session does not list has the tracking
    entry it had and is on disk exactly if it was. For a session that is
    not in the map nothing changes at all. *)
Theorem cleanupClientFiles_frame (cid : string) (st : State) :
  clients (cleanupClientFiles cid st) = delete cid (clients st)
  ∧ downloadTokens (cleanupClientFiles cid st) = downloadTokens st
  ∧ (∀ (type : FileType) (name : string),
       (∀ c, clients st !! cid = Some c → (name, type) ∉ files c) →
       untouched type name st (cleanupClientFiles cid st))
  ∧ (clients st !! cid = None → cleanupClientFiles cid st = st).
Proof.
  split; [apply cleanupClientFiles_clients|].
  split; [apply cleanupClientFiles_downloadTokens|]. split.
  - intros type name Hnot.
    apply cleanupClientFiles_untouched; [done | apply untouched_refl].
  - intros Hnone. unfold cleanupClientFiles. by rewrite Hnone.
Qed.

(** ** Heartbeats *)

(** X13. A heartbeat never creates a session: for an unknown client it
    answers not-found and changes nothing. For a known client it answers
    active and touches nothing but that session's last activity, and a
    collector run that comes no later than the heartbeat timeout after it
    keeps the session, with its file list and its upload name. *)
Theorem heartbeat_keeps_session (t now : Z) (cid : string) (st : State) :
  cid ≠ "" →
  (clients st !! cid = None →
   heartbeatRequest t cid st = (HeartbeatNotFound404, st))
  ∧ (∀ c : Client,
       clients st !! cid = Some c →
       (heartbeatRequest t cid st).1 = HeartbeatActive
       ∧ fileTracker (heartbeatRequest t cid st).2 = fileTracker st
       ∧ downloadTokens (heartbeatRequest t cid st).2 = downloadTokens st
       ∧ fs (heartbeatRequest t cid st).2 = fs st
       ∧ (∀ cid', cid' ≠ cid →
            clients (heartbeatRequest t cid st).2 !! cid' = clients st !! cid')
       ∧ (now - t <= heartbeatTimeout →
          clients (scheduledCleanup now (heartbeatRequest t cid st).2) !! cid
            = Some {| lastActivity := t; files := files c;
                      originalName := originalName c |})).
Proof.
  intros Hcid. unfold heartbeatRequest.
  rewrite (bool_decide_eq_false_2 _ Hcid). split.
  - by intros ->.
  - intros c Hc. rewrite Hc. cbn [fst snd fileTracker downloadTokens fs clients].
    repeat split.
    + intros cid' Hne. by rewrite lookup_alter_ne.
    + intros Hnow. rewrite scheduledCleanup_clients_eq.
      apply map_lookup_filter_Some. cbn [clients]. split.
      * by rewrite lookup_alter_eq, Hc.
      * unfold inactive. simpl. lia.
Qed.

Lemma heartbeat_keeps_session_witness :
  (heartbeatRequest 200000 "client-0-1" resultReady).1 = HeartbeatActive
  ∧ clients (scheduledCleanup 500000
               (heartbeatRequest 200000 "client-0-1" resultReady).2)
      !! "client-0-1"
    = Some {| lastActivity := 200000; files := [(resultName, Output)];
              originalName := Some "clip.mp4"%string |}.
Proof.
  destruct (heartbeat_keeps_session 200000 500000 "client-0-1" resultReady)
    as [_ Hknown].
  - discriminate.
  - destruct (Hknown {| lastActivity := 5000; files := [(resultName, Output)];
                        originalName := Some "clip.mp4"%string |})
      as (Hresp & _ & _ & _ & _ & Hkept).
    + vm_compute. reflexivity.
    + split; [exact Hresp|]. apply Hkept. vm_compute. discriminate.
Defined.

(** ** A transfer in progress *)

Lemma markOutput_output (name : string) (b : bool) (st : State) :
  output (fileTracker (markOutput name b st))
    = alter (setInUse b) name (output (fileTracker st)).
Proof. unfold markOutput. simpl. by destruct (fileTracker st). Qed.

Lemma markOutput_others (name : string) (b : bool) (st : State) :
  uploads (fileTracker (markOutput name b st)) = uploads (fileTracker st)
  ∧ temp (fileTracker (markOutput name b st)) = temp (fileTracker st)
  ∧ clients (markOutput name b st) = clients st
  ∧ downloadTokens (markOutput name b st) = downloadTokens st
  ∧ fs (markOutput name b st) = fs st.
Proof. unfold markOutput. simpl. by destruct (fileTracker st). Qed.

Lemma housekeep_keeps (P : FileTracker → Disk → Prop) :
  (∀ name type st,
     P (fileTracker st) (fs st) →
     P (fileTracker (deleteFile name type st).2) (fs (deleteFile name type st).2)) →
  ∀ (hs : list Housekeeping) (st : State),
    P (fileTracker st) (fs st) →
    P (fileTracker (foldl housekeep st hs)) (fs (foldl housekeep st hs)).
Proof.
  intros Hkeep hs. induction hs as [|h hs IH]; intros st HP; [done|].
  simpl. apply IH. destruct h as [now|cid]; simpl.
  - by apply scheduledCleanup_keeps.
  - unfold cleanupRequest. case_bool_decide; cbn [snd]; [done|].
    by apply cleanupClientFiles_keeps.
Qed.

(** X14. The in-use flag guards a result from the moment a download
    request is served until a callback clears it, and it is one flag, not a
    count of transfers. From the state a served request leaves, no sequence
    of collector runs and session cleanups removes the file from disk or
    touches its entry, provided the file was tracked when the request came
    in. But when a second request for the same token is served before the
    callback of the first has run, that callback clears the flag while the
    second transfer is still running, and from then on [deleteFile]
    removes the file if it can be unlinked. *)
Theorem in_use_flag_guards_until_callback (token : string) (data : TokenData)
    (d : FileData) (st : State) :
  downloadTokens st !! token = Some data →
  (outputDir, filename data) ∈ present (fs st) →
  output (fileTracker st) !! filename data = Some d →
  ∃ p n t1 st1,
    downloadRequest token st = (Sending p n t1, st1)
    ∧ (∀ hs : list Housekeeping,
         output (fileTracker (foldl housekeep st1 hs)) !! filename data
           = Some (setInUse true d)
         ∧ (outputDir, filename data) ∈ present (fs (foldl housekeep st1 hs)))
    ∧ ∃ t2 st2,
        downloadRequest token st1 = (Sending p n t2, st2)
        ∧ output (fileTracker (downloadCallback t1 true st2)) !! filename data
          = Some (setInUse false d)
        ∧ ((outputDir, filename data) ∉ unlinkFails (fs st) →
           (deleteFile (filename data) Output (downloadCallback t1 true st2)).1
             = true).
Proof.
  intros Htok Hdisk Hd. rewrite (downloadRequest_served _ _ _ Htok Hdisk).
  eexists _, _, _, _. split; [reflexivity|].
  destruct (markOutput_others (filename data) true st)
    as (_ & _ & _ & Htok1 & Hfs1).
  split.
  - intros hs.
    assert (heldInUse Output (filename data) (setInUse true d) True
              (fileTracker (markOutput (filename data) true st))
              (fs (markOutput (filename data) true st))) as Hheld.
    { split.
      - cbn [trackerOf]. by rewrite markOutput_output, lookup_alter_eq, Hd.
      - by rewrite Hfs1. }
    pose proof (λ n t s, deleteFile_heldInUse Output (filename data)
                  (setInUse true d) True n t s eq_refl) as Hkeep.
    destruct (housekeep_keeps _ Hkeep hs _ Hheld) as [Hl Hp].
    split; [exact Hl | by apply Hp].
  - rewrite (downloadRequest_served token data
               (markOutput (filename data) true st))
      by (by rewrite ?Htok1, ?Hfs1).
    eexists _, _. split; [reflexivity|].
    assert (output (fileTracker
              (downloadCallback
                 {| transferToken := token; transferData := data;
                    transferHasFileData :=
                      bool_decide
                        (is_Some (output (fileTracker st) !! filename data)) |}
                 true
                 (markOutput (filename data) true
                    (markOutput (filename data) true st))))
              !! filename data = Some (setInUse false d)) as Hentry.
    { unfold downloadCallback.
      cbn [transferToken transferData transferHasFileData fileTracker].
      rewrite bool_decide_eq_true_2 by (by rewrite Hd; eexists).
      cbn [andb]. rewrite !markOutput_output, !lookup_alter_eq, Hd. done. }
    split; [exact Hentry|]. intros Hunl. apply deleteFile_true.
    cbn [trackerOf dirOf]. rewrite Hentry. split; [done|].
    unfold downloadCallback.
    cbn [transferToken transferData transferHasFileData fs].
    rewrite bool_decide_eq_true_2 by (by rewrite Hd; eexists). cbn [andb].
    destruct (markOutput_others (filename data) false
                (markOutput (filename data) true
                   (markOutput (filename data) true st)))
      as (_ & _ & _ & _ & ->).
    destruct (markOutput_others (filename data) true
                (markOutput (filename data) true st))
      as (_ & _ & _ & _ & ->).
    by rewrite Hfs1.
Qed.

Lemma in_use_flag_guards_until_callback_witness :
  ∃ p n t1 st1,
    downloadRequest resultToken resultReady = (Sending p n t1, st1)
    ∧ (∀ hs : list Housekeeping,
         output (fileTracker (foldl housekeep st1 hs)) !! filename resultData
           = Some (setInUse true
                     {| timestamp := 5000; clientId := "client-0-1";
                        inUse := false |})
         ∧ (outputDir, filename resultData)
             ∈ present (fs (foldl housekeep st1 hs)))
    ∧ ∃ t2 st2,
        downloadRequest resultToken st1 = (Sending p n t2, st2)
        ∧ output (fileTracker (downloadCallback t1 true st2))
            !! filename resultData
          = Some (setInUse false
                    {| timestamp := 5000; clientId := "client-0-1";
                       inUse := false |})
        ∧ ((outputDir, filename resultData) ∉ unlinkFails (fs resultReady) →
           (deleteFile (filename resultData) Output
              (downloadCallback t1 true st2)).1 = true).
Proof.
  apply (in_use_flag_guards_until_callback resultToken resultData
           {| timestamp := 5000; clientId := "client-0-1"; inUse := false |}
           resultReady).
  - vm_compute. reflexivity.
  - apply (bool_decide_unpack _). vm_compute. exact I.
  - vm_compute. reflexivity.
Defined.

Lemma alter_setInUse_back (m : gmap string FileData) (name : string) (b : bool) :
  dataInUse (m !! name) = false →
  alter (setInUse false) name (alter (setInUse b) name m) = m.
Proof.
  intros Hfree. apply map_eq. intros k.
  destruct (decide (name = k)) as [<-|Hne].
  - rewrite !lookup_alter_eq. destruct (m !! name) as [d|]; [|done].
    simpl in *. f_equal. destruct d as [ts c us]. simpl in *. by subst us.
  - by rewrite !lookup_alter_ne.
Qed.

Lemma alter_absent (m : gmap string FileData) (name : string) (b : bool) :
  m !! name = None → alter (setInUse b) name m = m.
Proof.
  intros Hnone. apply map_eq. intros k.
  destruct (decide (name = k)) as [<-|Hne].
  - by rewrite lookup_alter_eq, Hnone.
  - by rewrite lookup_alter_ne.
Qed.

(** X15. A download that runs alone costs the server exactly its token:
    when the request is served for a file whose entry, if any, is not in
    use, and the callback runs on the state the request left, in which the
    object the handler found is the tracked one, the trackers, the sessions
    and the disk are as before the request and the token is gone. *)
Theorem download_round_trip (token : string) (data : TokenData) (st : State) :
  downloadTokens st !! token = Some data →
  (outputDir, filename data) ∈ present (fs st) →
  dataInUse (output (fileTracker st) !! filename data) = false →
  ∃ p n t st1,
    downloadRequest token st = (Sending p n t, st1)
    ∧ downloadCallback t true st1
      = {| fileTracker := fileTracker st; clients := clients st;
           downloadTokens := delete token (downloadTokens st); fs := fs st |}.
Proof.
  intros Htok Hdisk Hfree. rewrite (downloadRequest_served _ _ _ Htok Hdisk).
  eexists _, _, _, _. split; [reflexivity|].
  unfold downloadCallback. cbn [transferToken transferData transferHasFileData].
  rewrite andb_true_r. case_bool_decide as Hsome.
  - unfold markOutput. cbn [fileTracker clients downloadTokens fs].
    f_equal. destruct (fileTracker st) as [u o tmp].
    cbn [output setTracker] in *. f_equal. by apply alter_setInUse_back.
  - assert (output (fileTracker st) !! filename data = None) as Hnone.
    { destruct (output (fileTracker st) !! filename data) eqn:E; [|done].
      destruct Hsome. by eexists. }
    unfold markOutput. cbn [fileTracker clients downloadTokens fs]. f_equal.
    destruct (fileTracker st) as [u o tmp]. cbn [output setTracker] in *.
    f_equal. by apply alter_absent.
Qed.

Lemma download_round_trip_witness :
  ∃ p n t st1,
    downloadRequest resultToken resultReady = (Sending p n t, st1)
    ∧ downloadCallback t true st1
      = {| fileTracker := fileTracker resultReady;
           clients := clients resultReady;
           downloadTokens := delete resultToken (downloadTokens resultReady);
           fs := fs resultReady |}.
Proof.
  apply (download_round_trip resultToken resultData resultReady).
  - vm_compute. reflexivity.
  - apply (bool_decide_unpack _). vm_compute. exact I.
  - vm_compute. reflexivity.
Defined.

(** ** The contract of [deleteFile] *)

(** X16. [deleteFile] answers true exactly when the file's entry is not
    flagged in use, the file is on disk and unlinking it does not fail; then
    the file is neither on disk nor tracked. When it answers false the
    state is unchanged. In both cases every other file keeps its entry and
    its place on disk, and the sessions (their file lists included) and the
    tokens are untouched. *)
Theorem deleteFile_contract (name : string) (type : FileType) (st : State) :
  ((deleteFile name type st).1 = true ↔
     dataInUse (trackerOf type (fileTracker st) !! name) = false
     ∧ (dirOf type, name) ∈ present (fs st)
     ∧ (dirOf type, name) ∉ unlinkFails (fs st))
  ∧ ((deleteFile name type st).1 = true →
     gone type name (fileTracker (deleteFile name type st).2)
       (fs (deleteFile name type st).2))
  ∧ ((deleteFile name type st).1 = false → (deleteFile name type st).2 = st)
  ∧ (∀ (type' : FileType) (name' : string),
       ¬ (type = type' ∧ name = name') →
       untouched type' name' st (deleteFile name type st).2)
  ∧ clients (deleteFile name type st).2 = clients st
  ∧ downloadTokens (deleteFile name type st).2 = downloadTokens st.
Proof.
  split; [apply deleteFile_true|]. split.
  { intros Ht. apply deleteFile_true in Ht as (Hfree & Hin & Hnf).
    apply (deleteFile_live_gone type name
             (trackerOf type (fileTracker st) !! name)); by repeat split. }
  split; [apply deleteFile_false|]. split.
  { intros type' name' Hne.
    apply deleteFile_untouched; [done | apply untouched_refl]. }
  split; [apply deleteFile_clients | apply deleteFile_downloadTokens].
Qed.

(** X17. Tracking a file and deleting it again: whatever entry the file had
    before, flagged in use or not, [trackFile] writes an entry that is not
    in use, so if the file is on disk and can be unlinked the deletion goes
    through; the tracker is then the one before with the name removed, the
    file is off disk, and the session's list still holds the entry that
    [trackFile] appended. *)
Theorem trackFile_then_deleteFile (now : Z) (name : string) (type : FileType)
    (cid : string) (st : State) :
  (dirOf type, name) ∈ present (fs st) →
  (dirOf type, name) ∉ unlinkFails (fs st) →
  (deleteFile name type (trackFile now name type cid st)).1 = true
  ∧ trackerOf type
      (fileTracker (deleteFile name type (trackFile now name type cid st)).2)
    = delete name (trackerOf type (fileTracker st))
  ∧ ((dirOf type, name)
       ∉ present (fs (deleteFile name type (trackFile now name type cid st)).2))
  ∧ filesOf cid (deleteFile name type (trackFile now name type cid st)).2
    = filesOf cid st ++ [(name, type)].
Proof.
  intros Hin Hnf.
  destruct (deleteFile_cases name type (trackFile now name type cid st))
    as [(Heq & _)|(_ & [Hbusy|[Hout|Hfail]])].
  - rewrite Heq. cbn [fst snd]. split; [done|]. split; [|split].
    + unfold unlinkAndUntrack. cbn [fileTracker].
      rewrite trackerOf_setTracker, trackFile_tracker. apply delete_insert_eq.
    + unfold unlinkAndUntrack. cbn [fs present trackFile].
      rewrite elem_of_difference, elem_of_singleton. by intros [_ []].
    + unfold filesOf, unlinkAndUntrack. cbn [clients].
      rewrite trackFile_client. done.
  - rewrite trackFile_tracker, lookup_insert_eq in Hbusy. done.
  - by destruct Hout.
  - by destruct Hnf.
Qed.

Lemma trackFile_then_deleteFile_witness :
  (deleteFile resultName Output
     (trackFile 7000 resultName Output "client-0-1" resultInTransfer)).1 = true
  ∧ trackerOf Output
      (fileTracker (deleteFile resultName Output
         (trackFile 7000 resultName Output "client-0-1" resultInTransfer)).2)
    = delete resultName (trackerOf Output (fileTracker resultInTransfer))
  ∧ ((dirOf Output, resultName)
       ∉ present (fs (deleteFile resultName Output
            (trackFile 7000 resultName Output "client-0-1" resultInTransfer)).2))
  ∧ filesOf "client-0-1"
      (deleteFile resultName Output
         (trackFile 7000 resultName Output "client-0-1" resultInTransfer)).2
    = filesOf "client-0-1" resultInTransfer ++ [(resultName, Output)].
Proof.
  apply (trackFile_then_deleteFile 7000 resultName Output "client-0-1"
           resultInTransfer).
  - apply (bool_decide_unpack _). vm_compute. exact I.
  - simpl. apply not_elem_of_empty.
Defined.

(** ** What a successful run leaves *)

Section IssuedToken.

Variable exec : Cmd → Disk → Z → bool * Disk * Z.
Variable writeThrows : Path → Disk → option Disk.
Variable joinUploads : string → Path.
Variable pathParseName : string → string.
Variables (now : Z) (nameClock : nat → Z) (rnd : Z).
Variables (req : ProcessRequest) (st : State).
Hypothesis has_filename : reqFilename req ≠ "".
Hypothesis has_segments : reqSegments req ≠ [].
Hypothesis source_on_disk : joinUploads (reqFilename req) ∈ present (fs st).

Let r : Run :=
  processRequest exec writeThrows joinUploads pathParseName now nameClock rnd
    req st.
Let outName : string := "processed-" +:+ pretty now +:+ ".mp4".

Lemma temp_names_are_temp (l : list Path) :
  (outName, Output) ∉ map (λ f : Path, (basename f, Temp)) l.
Proof.
  intros Hin. apply list_elem_of_fmap in Hin as (f & Heq & _). congruence.
Qed.

Lemma processRequest_issued (token : string) :
  response r = VideoProcessed token →
  ∃ (listFile : Path) (d3 : Disk) (now2 : Z) (d4 : Disk) (now4 : Z),
    exec (ConcatCmd listFile (outputDir, outName)) d3 now2 = (true, d4, now4)
    ∧ token = downloadTokenName now4 rnd
    ∧ downloadTokens (finalState r) !! token
      = Some {| filename := outName; created := now4;
                tokenOriginalName :=
                  pathParseName (originalNameOf (clients st !! reqClientId req)) |}
    ∧ output (fileTracker (finalState r)) !! outName
      = Some (freshEntry now4 (reqClientId req))
    ∧ (∃ l, filesOf (reqClientId req) (finalState r) = l ++ [(outName, Output)])
    ∧ ((outputDir, outName) ∈ present (fs (finalState r))
       ↔ (outputDir, outName) ∈ present d4).
Proof.
  subst r. unfold processRequest.
  rewrite (bool_decide_eq_false_2 _ has_filename),
    (bool_decide_eq_false_2 _ has_segments),
    (bool_decide_eq_true_2 _ source_on_disk).
  cbn [orb negb]. cbv zeta. fold outName.
  destruct (cutSegments exec _ _ _ now) as [[[ok d2] now2] log].
  destruct ok; cbn [negb]; [|done].
  destruct (writeThrows _ d2) as [d3|]; [done|].
  destruct (exec _ _ now2) as [[ok4 d4] now4] eqn:Hexec.
  destruct ok4; cbn [negb]; [|done].
  cbn [response finalState]. intros [= <-].
  eexists _, _, now2, d4, now4. split; [exact Hexec|].
  split; [done|]. split; [cbn [downloadTokens]; by rewrite lookup_insert_eq|].
  split; [|split].
  - cbn [fileTracker]. change (output ?ft) with (trackerOf Output ft).
    by rewrite trackFile_tracker, lookup_insert_eq.
  - unfold filesOf at 1. cbn [clients]. rewrite trackFile_client.
    cbn [files]. by eexists.
  - cbn [fs trackFile].
    set (st3 := trackFile now2 _ Temp _ _).
    set (temps := map (λ f : Path, (basename f, Temp)) _).
    set (listName := basename _).
    assert (untouched Output outName (withDisk d4 st3)
              (deleteFile listName Temp (deleteFiles temps (withDisk d4 st3))).2)
      as [_ Hp].
    { apply deleteFile_untouched; [by intros [? _]|].
      apply deleteFiles_untouched;
        [apply temp_names_are_temp | apply untouched_refl]. }
    exact Hp.
Qed.

End IssuedToken.

(** X18. The token a run hands out always names a file that the run has
    tracked as the requesting session's output and appended to the
    session's list, and carries the session's upload name as
    [path.parse] reduces it; and if the encoder, when its concatenation
    succeeds, has written the output file, redeeming the token at once
    starts the transfer of that file under that name with
    [-vidsnip-edited.mp4] appended. *)
Theorem issued_token_is_redeemable
    (exec : Cmd → Disk → Z → bool * Disk * Z)
    (writeThrows : Path → Disk → option Disk) (joinUploads : string → Path)
    (pathParseName : string → string) (now : Z) (nameClock : nat → Z) (rnd : Z)
    (req : ProcessRequest) (st : State) (token : string) :
  reqFilename req ≠ "" →
  reqSegments req ≠ [] →
  joinUploads (reqFilename req) ∈ present (fs st) →
  let r :=
    processRequest exec writeThrows joinUploads pathParseName now nameClock
      rnd req st in
  let outName := "processed-" +:+ pretty now +:+ ".mp4" in
  let shownName :=
    pathParseName (originalNameOf (clients st !! reqClientId req)) in
  response r = VideoProcessed token →
  (∃ issuedAt : Z,
     token = downloadTokenName issuedAt rnd
     ∧ downloadTokens (finalState r) !! token
       = Some {| filename := outName; created := issuedAt;
                 tokenOriginalName := shownName |}
     ∧ output (fileTracker (finalState r)) !! outName
       = Some (freshEntry issuedAt (reqClientId req))
     ∧ (outName, Output) ∈ filesOf (reqClientId req) (finalState r))
  ∧ ((∀ listFile out d t d' t',
        exec (ConcatCmd listFile out) d t = (true, d', t') → out ∈ present d') →
     ∃ t st',
       downloadRequest token (finalState r)
         = (Sending (outputDir, outName) (shownName +:+ "-vidsnip-edited.mp4")
              t, st')).
Proof.
  intros Hname Hsegs Hsrc r outName shownName Hresp.
  destruct (processRequest_issued exec writeThrows joinUploads pathParseName
              now nameClock rnd req st Hname Hsegs Hsrc token Hresp)
    as (listFile & d3 & now2 & d4 & now4 & Hexec & Htok & Hdata & Hout
        & [l Hfiles] & Hdisk).
  fold r in Hdata, Hout, Hfiles, Hdisk. split.
  - exists now4. repeat split; try done.
    rewrite Hfiles. apply elem_of_app. right. by apply list_elem_of_singleton.
  - intros Hwrites.
    assert ((outputDir, outName) ∈ present (fs (finalState r))) as Hin
      by (apply Hdisk; eapply Hwrites, Hexec).
    rewrite (downloadRequest_served token _ (finalState r) Hdata Hin).
    by eexists _, _.
Qed.

Lemma issued_token_is_redeemable_witness :
  let r :=
    processRequest execOk writeOk joinPlain nameOfClip 0 clock0 7
      twoSegments uploaded in
  ∃ t st',
    downloadRequest "dl-3000-7" (finalState r)
      = (Sending (outputDir, "processed-0.mp4"%string)
           "clip-vidsnip-edited.mp4" t, st').
Proof.
  intros r.
  destruct (issued_token_is_redeemable execOk writeOk joinPlain nameOfClip 0 clock0 7 twoSegments
              uploaded "dl-3000-7") as [_ Hredeem].
  - discriminate.
  - discriminate.
  - apply (bool_decide_unpack _). vm_compute. exact I.
  - vm_compute. reflexivity.
  - apply Hredeem. intros listFile out d t d' t' [= <- _].
    unfold writeFile. simpl. apply elem_of_union. right.
    by apply elem_of_singleton.
Defined.

(** ** Requests the encode handler turns away *)


(** A name that leads out of the upload directory is taken as it comes: a
    request naming the finished result of another run by
    [../output/processed-1000.mp4] is not turned away, and the encoder is
    run on that file. *)
Example process_reaches_output_directory :
  let r :=
    processRequest execOk writeOk joinEscaping nameOfClip 0 clock0 7
      outsideUploads resultReady in
  response r = VideoProcessed "dl-2000-7"
  ∧ invocations r !! 0%nat
    = Some (CutCmd (outputDir, "processed-1000.mp4"%string) (seg 0 200)
              (tempDir, "temp-0-0.mp4"%string), true).
Proof. vm_compute. split; reflexivity. Qed.

(** ** What a successful run removes *)

(** X20. When a run of [POST /process] succeeds, every intermediate it
    named, the cut files and the list file, that the encoder's last
    invocation left on disk and that can be unlinked is, at the end of the
    run, neither on disk nor tracked; the list file was on disk when that
    invocation started. *)
Theorem successful_run_collects_intermediates
    (exec : Cmd → Disk → Z → bool * Disk * Z)
    (writeThrows : Path → Disk → option Disk) (joinUploads : string → Path)
    (pathParseName : string → string) (now : Z) (nameClock : nat → Z) (rnd : Z)
    (req : ProcessRequest) (st : State) (token : string) :
  reqFilename req ≠ "" →
  reqSegments req ≠ [] →
  joinUploads (reqFilename req) ∈ present (fs st) →
  let r :=
    processRequest exec writeThrows joinUploads pathParseName now nameClock
      rnd req st in
  response r = VideoProcessed token →
  ∃ (listFile : Path) (d3 : Disk) (now2 : Z) (d4 : Disk) (now4 : Z),
    exec (ConcatCmd listFile (outputDir, "processed-" +:+ pretty now +:+ ".mp4"))
      d3 now2 = (true, d4, now4)
    ∧ listFile ∈ present d3
    ∧ ∀ p : Path,
        p ∈ tempFilesFor nameClock (reqSegments req) ∨ p = listFile →
        p ∈ present d4 → p ∉ unlinkFails d4 →
        gone Temp (basename p) (fileTracker (finalState r)) (fs (finalState r)).
Proof.
  intros Hname Hsegs Hsrc r. subst r. unfold processRequest.
  rewrite (bool_decide_eq_false_2 _ Hname), (bool_decide_eq_false_2 _ Hsegs),
    (bool_decide_eq_true_2 _ Hsrc).
  cbn [orb negb]. cbv zeta.
  destruct (cutSegments exec _ _ _ now) as [[[ok d2] now2] log].
  destruct ok; cbn [negb]; [|done].
  destruct (writeThrows _ d2) as [d3|]; [done|].
  destruct (exec _ _ now2) as [[ok4 d4] now4] eqn:Hexec.
  destruct ok4; cbn [negb]; [|done].
  cbn [response finalState]. intros _.
  eexists _, _, now2, d4, now4. split; [exact Hexec|]. split.
  { rewrite (proj2 (trackFile_rest _ _ _ _ _)). cbn [withDisk fs writeFile present].
    apply elem_of_union. right. by apply elem_of_singleton. }
  set (cid := reqClientId req).
  set (tempFiles := tempFilesFor nameClock (reqSegments req)).
  set (listName := "list-" +:+ pretty now2 +:+ ".txt").
  set (st1 := trackTempFiles now cid tempFiles st).
  set (st3 := trackFile now2 (basename (tempDir, listName)) Temp cid
                (withDisk (writeFile (tempDir, listName) d2) st1)).
  set (temps := map (λ f : Path, (basename f, Temp)) tempFiles).
  intros p Hp Hon Hunl.
  cut (gone Temp (basename p)
         (fileTracker (deleteFile (basename (tempDir, listName)) Temp
                         (deleteFiles temps (withDisk d4 st3))).2)
         (fs (deleteFile (basename (tempDir, listName)) Temp
                (deleteFiles temps (withDisk d4 st3))).2)).
  { intros [Htr Hfs]. split.
    - cbn [fileTracker]. by rewrite trackFile_tracker_ne.
    - cbn [fs]. by rewrite (proj2 (trackFile_rest _ _ _ _ _)). }
  destruct Hp as [Hp| ->].
  - apply deleteFile_gone.
    apply (deleteFiles_gone Temp (basename p) (Some (freshEntry now cid))
             eq_refl temps (withDisk d4 st3)).
    + left. destruct (tempFilesFor_name _ _ _ Hp) as [i Hi].
      repeat split.
      * cbn [withDisk fileTracker]. subst st3. rewrite trackFile_tracker.
        rewrite lookup_insert_ne
          by (cbn [basename snd]; by apply (list_name_not_temp_name now2 p
                                               nameClock (reqSegments req))).
        cbn [withDisk fileTracker].
        exact (trackTempFiles_tracked now cid tempFiles st p Hp).
      * cbn [withDisk fs dirOf]. rewrite Hi in Hon |- *. exact Hon.
      * cbn [withDisk fs dirOf]. rewrite Hi in Hunl |- *. exact Hunl.
    + subst temps. apply list_elem_of_fmap. by exists p.
  - apply (deleteFile_live_gone Temp listName (Some (freshEntry now2 cid)));
      [done|].
    assert (untouched Temp listName (withDisk d4 st3)
              (deleteFiles temps (withDisk d4 st3))) as [Htr Hfs].
    { apply deleteFiles_untouched; [|apply untouched_refl].
      intros Hin. apply list_elem_of_fmap in Hin as (q & Heq & Hq).
      injection Heq as Heq.
      by apply (list_name_not_temp_name now2 q nameClock (reqSegments req)). }
    repeat split.
    + rewrite Htr. cbn [withDisk fileTracker]. subst st3.
      by rewrite trackFile_tracker, lookup_insert_eq.
    + by apply Hfs.
    + assert (unlinkFails (fs (deleteFiles temps (withDisk d4 st3)))
              = unlinkFails d4) as ->; [|done].
      apply (deleteFiles_keeps (λ _ d, unlinkFails d = unlinkFails d4));
        [|done].
      intros name type s Hs. by rewrite deleteFile_unlinkFails.
Qed.

Lemma successful_run_collects_intermediates_witness :
  let r :=
    processRequest execOk writeOk joinPlain nameOfClip 0 clock0 7
      twoSegments uploaded in
  ∃ (listFile : Path) (d3 : Disk) (now2 : Z) (d4 : Disk) (now4 : Z),
    execOk (ConcatCmd listFile (outputDir, "processed-0.mp4"%string)) d3 now2
      = (true, d4, now4)
    ∧ listFile ∈ present d3
    ∧ ∀ p : Path,
        p ∈ tempFilesFor clock0 (reqSegments twoSegments) ∨ p = listFile →
        p ∈ present d4 → p ∉ unlinkFails d4 →
        gone Temp (basename p) (fileTracker (finalState r)) (fs (finalState r)).
Proof.
  apply (successful_run_collects_intermediates execOk writeOk joinPlain nameOfClip 0 clock0 7
           twoSegments uploaded "dl-3000-7").
  - discriminate.
  - discriminate.
  - apply (bool_decide_unpack _). vm_compute. exact I.
  - vm_compute. reflexivity.
Defined.

(** ** Names the server mints *)

Lemma digit_not_dash (n : N) : pretty_N_char n ≠ "-"%char.
Proof. unfold pretty_N_char. by repeat case_match. Qed.

Lemma digit_not_dot (n : N) : pretty_N_char n ≠ "."%char.
Proof. unfold pretty_N_char. by repeat case_match. Qed.

Lemma pretty_N_go_lacks (c : Ascii.ascii) (x : N) (s : string) :
  (∀ n, pretty_N_char n ≠ c) → lacks c s → lacks c (pretty_N_go x s).
Proof.
  intros Hc. revert s. induction (N.lt_wf_0 x) as [x _ IH]; intros s Hs.
  assert (x = 0 ∨ 0 < x)%N as [->|?] by lia.
  - by rewrite pretty_N_go_0.
  - rewrite pretty_N_go_step by done.
    apply IH; [by apply N.div_lt|]. split; [apply Hc | done].
Qed.

Lemma pretty_N_lacks (c : Ascii.ascii) (x : N) :
  (∀ n, pretty_N_char n ≠ c) → lacks c (pretty x).
Proof.
  intros Hc. unfold pretty, pretty_N. case_decide.
  - split; [exact (Hc 0%N) | done].
  - by apply pretty_N_go_lacks.
Qed.

(** The decimal form of a time, which is not negative, has no dash. *)
Lemma pretty_Z_lacks_dash (z : Z) : 0 ≤ z → lacks "-"%char (pretty z).
Proof.
  destruct z as [|p|p]; [by split| |lia]. intros _.
  apply (pretty_N_lacks "-"%char (Npos p)), digit_not_dash.
Qed.

Lemma pretty_Z_lacks_dot (z : Z) : lacks "."%char (pretty z).
Proof.
  destruct z as [|p|p].
  - by split.
  - apply (pretty_N_lacks "."%char (Npos p)), digit_not_dot.
  - split; [done|]. apply (pretty_N_lacks "."%char (Npos p)), digit_not_dot.
Qed.

(** A string is cut at the first occurrence of a separator in one way. *)
Lemma append_split (c : Ascii.ascii) (a a' s s' : string) :
  lacks c a → lacks c a' →
  a +:+ String c s = a' +:+ String c s' → a = a' ∧ s = s'.
Proof.
  revert a'. induction a as [|x a IH]; intros [|x' a']; simpl.
  - by intros _ _ [= ->].
  - intros _ [Hx _] [= Heq _]. by destruct Hx.
  - intros [Hx _] _ [= Heq _]. by destruct Hx.
  - intros [_ Ha] [_ Ha'] [= -> Heq].
    destruct (IH a' Ha Ha' Heq) as [-> ->]. done.
Qed.

Lemma time_dash_number (now rnd now' rnd' : Z) (s s' : string) :
  0 ≤ now → 0 ≤ now' →
  pretty now +:+ "-" +:+ s = pretty now' +:+ "-" +:+ s' →
  now = now' ∧ s = s'.
Proof.
  intros Hnow Hnow' Heq.
  apply (append_split "-"%char) in Heq as [Heq ->];
    [|by apply pretty_Z_lacks_dash..].
  by apply (inj pretty) in Heq.
Qed.

Lemma temp_name_inj (i j : nat) (now now' : Z) :
  "temp-" +:+ pretty (Z.of_nat i) +:+ "-" +:+ pretty now +:+ ".mp4"
  = "temp-" +:+ pretty (Z.of_nat j) +:+ "-" +:+ pretty now' +:+ ".mp4" →
  i = j ∧ now = now'.
Proof.
  intros Heq. apply (inj (String.app "temp-")) in Heq.
  apply (time_dash_number _ 0 _ 0) in Heq as [Hi Heq]; [|lia..].
  apply (append_split "."%char) in Heq as [Heq _];
    [|by apply pretty_Z_lacks_dot..].
  apply (inj pretty) in Heq. split; [lia | done].
Qed.

(** X21. Client identifiers and download tokens are read back in one way:
    two of them minted at times that are not negative are equal only if
    they were minted at the same millisecond with the same random number;
    no client identifier is empty, and none is a download token. *)
Theorem minted_identifiers_injective (now rnd now' rnd' : Z) :
  0 ≤ now → 0 ≤ now' →
  (generateClientId now rnd = generateClientId now' rnd'
   → now = now' ∧ rnd = rnd')
  ∧ (downloadTokenName now rnd = downloadTokenName now' rnd'
     → now = now' ∧ rnd = rnd')
  ∧ generateClientId now rnd ≠ ""
  ∧ generateClientId now rnd ≠ downloadTokenName now' rnd'.
Proof.
  intros Hnow Hnow'. unfold generateClientId, downloadTokenName.
  split; [|split; [|split; [done | done]]].
  - intros Heq. apply (inj (String.app "client-")) in Heq.
    apply (time_dash_number _ rnd _ rnd') in Heq as [-> Heq]; [|done..].
    by apply (inj pretty) in Heq.
  - intros Heq. apply (inj (String.app "dl-")) in Heq.
    apply (time_dash_number _ rnd _ rnd') in Heq as [-> Heq]; [|done..].
    by apply (inj pretty) in Heq.
Qed.

Lemma minted_identifiers_injective_witness :
  generateClientId 1000 7 ≠ ""
  ∧ generateClientId 1000 7 ≠ downloadTokenName 1000 7.
Proof.
  destruct (minted_identifiers_injective 1000 7 1000 7) as (_ & _ & H1 & H2).
  - lia.
  - lia.
  - by split.
Defined.

(** X22. The intermediates of one run of [POST /process] have pairwise
    distinct names, one per segment, none of which is the name of a list
    file; and two runs give an intermediate the same name exactly at a
    segment index they both have and at which both read the same
    millisecond off the clock. *)
Theorem temp_names_distinct (nameClock : nat → Z)
    (segs : list Timeline.Segment) :
  NoDup (map basename (tempFilesFor nameClock segs))
  ∧ length (tempFilesFor nameClock segs) = length segs
  ∧ (∀ now2 : Z,
       "list-" +:+ pretty now2 +:+ ".txt"
         ∉ map basename (tempFilesFor nameClock segs))
  ∧ (∀ (nameClock' : nat → Z) (segs' : list Timeline.Segment) (i j : nat)
       (p : Path),
       tempFilesFor nameClock segs !! i = Some p →
       tempFilesFor nameClock' segs' !! j = Some p →
       i = j ∧ nameClock i = nameClock' j)
  ∧ (∀ (nameClock' : nat → Z) (segs' : list Timeline.Segment) (i : nat),
       (i < length segs)%nat → (i < length segs')%nat →
       nameClock i = nameClock' i →
       ∃ p : Path,
         tempFilesFor nameClock segs !! i = Some p
         ∧ tempFilesFor nameClock' segs' !! i = Some p).
Proof.
  split; [|split; [apply tempFilesFor_length|split; [|split]]].
  - apply NoDup_alt. intros i j name Hi Hj.
    rewrite list_lookup_fmap in Hi, Hj.
    destruct (tempFilesFor nameClock segs !! i) as [p|] eqn:Hpi; [|done].
    destruct (tempFilesFor nameClock segs !! j) as [q|] eqn:Hqj; [|done].
    apply tempFilesFor_lookup in Hpi as [_ ->].
    apply tempFilesFor_lookup in Hqj as [_ ->].
    cbn [fmap option_fmap option_map basename snd] in Hi, Hj.
    rewrite <- Hi in Hj. apply (inj Some) in Hj.
    by apply temp_name_inj in Hj as [-> _].
  - intros now2 Hin. apply list_elem_of_fmap in Hin as (p & Heq & Hp).
    by apply (list_name_not_temp_name now2 p nameClock segs).
  - intros nameClock' segs' i j p Hp Hp'.
    apply tempFilesFor_lookup in Hp as [_ ->].
    apply tempFilesFor_lookup in Hp' as [_ Heq].
    apply (f_equal snd) in Heq. cbn [snd] in Heq.
    by apply temp_name_inj in Heq as [-> ->].
  - intros nameClock' segs' i Hi Hi' Hclock.
    destruct (lookup_lt_is_Some_2 segs i Hi) as [seg Hseg].
    destruct (lookup_lt_is_Some_2 segs' i Hi') as [seg' Hseg'].
    eexists. unfold tempFilesFor. rewrite !list_lookup_imap, Hseg, Hseg'.
    simpl. by rewrite Hclock.
Qed.

(** ** Uploads *)

Lemma uploadRequest_session (now : Z) (name originalname cid : string)
    (st : State) :
  clients (uploadRequest now name originalname cid st) !! cid
    = Some {| lastActivity := now;
              files := filesOf cid st ++ [(name, Upload)];
              originalName := Some originalname |}
  ∧ trackerOf Upload (fileTracker (uploadRequest now name originalname cid st))
    = <[name := freshEntry now cid]> (trackerOf Upload (fileTracker st))
  ∧ present (fs (uploadRequest now name originalname cid st))
    = present (fs st) ∪ {[(uploadsDir, name)]}
  ∧ unlinkFails (fs (uploadRequest now name originalname cid st))
    = unlinkFails (fs st)
  ∧ downloadTokens (uploadRequest now name originalname cid st)
    = downloadTokens st.
Proof.
  unfold uploadRequest. cbv zeta. cbn [clients fileTracker fs downloadTokens].
  split; [|split; [|by rewrite (proj2 (trackFile_rest _ _ _ _ _)),
                          (proj1 (trackFile_rest _ _ _ _ _))]].
  - rewrite lookup_alter_eq, trackFile_client. done.
  - by rewrite trackFile_tracker.
Qed.

(** X23. [POST /upload] without a file answers [No file uploaded] and
    changes nothing. With a file it answers with an identifier that is
    never empty, the one sent or else a generated one, under which a
    heartbeat sent next is answered [active]; the stored file is on disk,
    tracked as that session's upload and not in use, and appended to the
    session's list; the name the browser sent is the session's original
    name, [video] standing in for an empty one; the tokens are as
    before. *)
Theorem upload_opens_session (idNow now rnd : Z) (f : UploadedFile)
    (bodyClientId : string) (st : State) :
  let cid :=
    if bool_decide (bodyClientId = "") then generateClientId idNow rnd
    else bodyClientId in
  let res := uploadHandler idNow now rnd (Some f) bodyClientId st in
  uploadHandler idNow now rnd None bodyClientId st = (NoFileUploaded400, st)
  ∧ res.1 = UploadedSuccessfully (storedName f) (sentName f) cid
  ∧ cid ≠ ""
  ∧ (∀ t : Z, (heartbeatRequest t cid res.2).1 = HeartbeatActive)
  ∧ uploads (fileTracker res.2) !! storedName f = Some (freshEntry now cid)
  ∧ (uploadsDir, storedName f) ∈ present (fs res.2)
  ∧ filesOf cid res.2 = filesOf cid st ++ [(storedName f, Upload)]
  ∧ originalNameOf (clients res.2 !! cid)
    = (if decide (sentName f = "") then "video" else sentName f)
  ∧ downloadTokens res.2 = downloadTokens st.
Proof.
  intros cid res.
  assert (cid ≠ "") as Hcid.
  { subst cid. case_bool_decide as Hb; [done | exact Hb]. }
  assert (res = (UploadedSuccessfully (storedName f) (sentName f) cid,
                 uploadRequest now (storedName f) (sentName f) cid st))
    as -> by done.
  cbn [fst snd].
  destruct (uploadRequest_session now (storedName f) (sentName f) cid st)
    as (Hc & Htr & Hfs & _ & Htok).
  repeat split; try done.
  - intros t. unfold heartbeatRequest.
    rewrite (bool_decide_eq_false_2 _ Hcid). by rewrite Hc.
  - change (uploads ?ft) with (trackerOf Upload ft).
    by rewrite Htr, lookup_insert_eq.
  - rewrite Hfs. apply elem_of_union. right. by apply elem_of_singleton.
  - unfold filesOf at 1. by rewrite Hc.
  - by rewrite Hc.
Qed.

(** X24. After an upload, a request of the same session to process the
    stored file with at least one segment is never turned away as invalid
    or as naming a missing file; and when the run succeeds, the token it
    hands out records, as the name the download will carry, what
    [path.parse] makes of the name the browser sent with the upload. The
    stored name is one of multer's, which [path.join] leaves in the upload
    directory. *)
Theorem upload_names_the_download
    (exec : Cmd → Disk → Z → bool * Disk * Z)
    (writeThrows : Path → Disk → option Disk) (joinUploads : string → Path)
    (pathParseName : string → string)
    (idNow now rnd : Z) (f : UploadedFile) (bodyClientId : string) (st : State)
    (now' : Z) (nameClock : nat → Z) (rnd' : Z)
    (segs : list Timeline.Segment) (token : string) :
  joinUploads (storedName f) = (uploadsDir, storedName f) →
  storedName f ≠ "" →
  sentName f ≠ "" →
  segs ≠ [] →
  let cid :=
    if bool_decide (bodyClientId = "") then generateClientId idNow rnd
    else bodyClientId in
  let st1 := (uploadHandler idNow now rnd (Some f) bodyClientId st).2 in
  let r :=
    processRequest exec writeThrows joinUploads pathParseName now' nameClock
      rnd'
      {| reqFilename := storedName f; reqSegments := segs; reqClientId := cid |}
      st1 in
  response r ≠ InvalidRequest400
  ∧ response r ≠ FileNotFound404
  ∧ (response r = VideoProcessed token →
     ∃ data : TokenData,
       downloadTokens (finalState r) !! token = Some data
       ∧ tokenOriginalName data = pathParseName (sentName f)
       ∧ (filename data, Output) ∈ filesOf cid (finalState r)).
Proof.
  intros Hjoin Hstored Hsent Hsegs cid st1 r.
  set (req := {| reqFilename := storedName f; reqSegments := segs;
                 reqClientId := cid |}) in r.
  assert (st1 = uploadRequest now (storedName f) (sentName f) cid st)
    as Hst1 by done.
  destruct (uploadRequest_session now (storedName f) (sentName f) cid st)
    as (Hc & _ & Hfs & _ & _).
  rewrite <- Hst1 in Hc, Hfs.
  assert (joinUploads (reqFilename req) ∈ present (fs st1)) as Hsrc.
  { cbn [req reqFilename]. rewrite Hjoin, Hfs. apply elem_of_union. right.
    by apply elem_of_singleton. }
  split; [|split].
  - destruct (processRequest_cases exec writeThrows joinUploads pathParseName
                now' nameClock rnd' req st1 Hstored Hsegs Hsrc)
      as [(? & ? & Hr & _)
         |[(? & ? & ? & _ & Hr & _)
          |[(? & ? & ? & Hr & _)|(? & ? & ? & _ & Hr & _)]]];
      fold r in Hr; by rewrite Hr.
  - destruct (processRequest_cases exec writeThrows joinUploads pathParseName
                now' nameClock rnd' req st1 Hstored Hsegs Hsrc)
      as [(? & ? & Hr & _)
         |[(? & ? & ? & _ & Hr & _)
          |[(? & ? & ? & Hr & _)|(? & ? & ? & _ & Hr & _)]]];
      fold r in Hr; by rewrite Hr.
  - intros Hresp.
    destruct (processRequest_issued exec writeThrows joinUploads pathParseName
                now' nameClock rnd' req st1 Hstored Hsegs Hsrc token Hresp)
      as (_ & _ & _ & _ & now4 & _ & _ & Hdata & _ & [l Hfiles] & _).
    fold r in Hdata, Hfiles. eexists. split; [exact Hdata|].
    cbn [tokenOriginalName filename req reqClientId]. split.
    + rewrite Hc. cbn [originalNameOf]. by rewrite decide_False.
    + cbn [req reqClientId] in Hfiles. rewrite Hfiles.
      apply elem_of_app. right. by apply list_elem_of_singleton.
Qed.

Lemma upload_names_the_download_witness :
  let r :=
    processRequest execOk writeOk joinPlain nameOfClip 0 clock0 7
      twoSegments uploaded in
  response r ≠ InvalidRequest400 ∧ response r ≠ FileNotFound404.
Proof.
  intros r.
  destruct (upload_names_the_download execOk writeOk joinPlain nameOfClip
              0 0 1 {| storedName := "0-1.mp4"; sentName := "clip.mp4" |}
              "client-0-1" emptyState 0 clock0 7 (reqSegments twoSegments)
              "dl-3000-7") as (H1 & H2 & _).
  - reflexivity.
  - discriminate.
  - discriminate.
  - discriminate.
  - split; [exact H1 | exact H2].
Defined.

(** X25. [POST /cleanup] without an identifier answers [Client ID
    required] and changes nothing. Sent by a session right after its
    upload, it removes the session's record, and the uploaded file is then
    neither on disk nor tracked, unless unlinking it fails. *)
Theorem cleanup_after_upload (idNow now rnd : Z) (f : UploadedFile)
    (bodyClientId : string) (st : State) :
  (uploadsDir, storedName f) ∉ unlinkFails (fs st) →
  let cid :=
    if bool_decide (bodyClientId = "") then generateClientId idNow rnd
    else bodyClientId in
  let st1 := (uploadHandler idNow now rnd (Some f) bodyClientId st).2 in
  cleanupRequest "" st1 = (CleanupIdRequired400, st1)
  ∧ (cleanupRequest cid st1).1 = ClientFilesCleaned
  ∧ clients (cleanupRequest cid st1).2 !! cid = None
  ∧ gone Upload (storedName f) (fileTracker (cleanupRequest cid st1).2)
      (fs (cleanupRequest cid st1).2).
Proof.
  intros Hunl cid st1.
  assert (cid ≠ "") as Hcid.
  { subst cid. case_bool_decide as Hb; [done | exact Hb]. }
  assert (st1 = uploadRequest now (storedName f) (sentName f) cid st)
    as Hst1 by done.
  destruct (uploadRequest_session now (storedName f) (sentName f) cid st)
    as (Hc & Htr & Hfs & Hu & _).
  rewrite <- Hst1 in Hc, Htr, Hfs, Hu.
  unfold cleanupRequest. rewrite (bool_decide_eq_false_2 _ Hcid).
  cbn [fst snd]. split; [done|]. split; [done|]. split.
  - by rewrite cleanupClientFiles_clients, lookup_delete_eq.
  - eapply (cleanupClientFiles_gone cid _ Upload (storedName f)
              (Some (freshEntry now cid))); [| done | exact Hc |].
    + cbn [files]. apply elem_of_app. right. by apply list_elem_of_singleton.
    + left. repeat split.
      * by rewrite Htr, lookup_insert_eq.
      * cbn [dirOf]. rewrite Hfs. apply elem_of_union. right.
        by apply elem_of_singleton.
      * cbn [dirOf]. by rewrite Hu.
Qed.

Lemma cleanup_after_upload_witness :
  gone Upload "0-1.mp4"
    (fileTracker (cleanupRequest "client-0-1" uploaded).2)
    (fs (cleanupRequest "client-0-1" uploaded).2).
Proof.
  apply (cleanup_after_upload 0 0 1
           {| storedName := "0-1.mp4"; sentName := "clip.mp4" |}
           "client-0-1" emptyState).
  simpl. apply not_elem_of_empty.
Defined.

End ServerMore.
